(** * Logo: layout and controller of a sequence logo (src/Logo.py)

    A shallow embedding of the class [Logo] and properties of its layout
    arithmetic and of its controller operations.

    Conventions of the embedding.
    - Python floats are modelled as exact rationals ([Q]); computed values
      are compared with [==] ([Qeq]).  NaN and infinities have no
      counterpart.
    - Methods of [Logo] are actions of a state-and-exception monad over a
      [World]: the instance [self], the store of matplotlib [Axes] objects
      (named by handles, so that two references to one Axes alias) and the
      handle that [plt.gca()] returns.  A raised exception leaves the world
      as it was when the exception was raised.
    - Collaborators that live outside Logo.py (numpy's [argsort],
      [Matrix.Matrix], [color.get_color_dict], the [Glyph] class, string
      formatting) are fields of the class [Externals]. *)

From Stdlib Require Import QArith Qabs Qround ZArith List String Bool.
From Stdlib Require Import DecimalString.
From Stdlib Require Import Permutation Sorted Lia Lqa.
Import ListNotations.
Open Scope Q_scope.

(* ================================================================= *)
(** ** Python values and exceptions *)

Inductive exn : Type :=
| AssertionError (msg : string)
| KeyError (key : string)
| IndexError (msg : string)
| ValueError (msg : string)
| AttributeError (msg : string).

Inductive result (A : Type) : Type :=
| Ok (a : A)
| Raise (e : exn).
Arguments Ok {A} a.
Arguments Raise {A} e.

(** Values that travel as keyword arguments. *)
Inductive pyval : Type :=
| PyNone
| PyBool (b : bool)
| PyNum (q : Q)
| PyStr (s : string)
| PyNums (l : list Q).

Definition kwargs := list (string * pyval).

(** [x < y] on floats, as a boolean. *)
Definition Qltb (x y : Q) : bool := negb (Qle_bool y x).

(** Python's builtin [sum]: a left fold of [+] that starts at 0. *)
Definition py_sum (l : list Q) : Q := fold_left Qplus l 0.

(** Python's builtin [min] and [max] of a list; [ValueError] on an empty one. *)
Definition py_min (l : list Q) : result Q :=
  match l with
  | [] => Raise (ValueError "min() arg is an empty sequence")
  | x :: tl => Ok (fold_left (fun m y => if Qltb y m then y else m) tl x)
  end.

Definition py_max (l : list Q) : result Q :=
  match l with
  | [] => Raise (ValueError "max() arg is an empty sequence")
  | x :: tl => Ok (fold_left (fun m y => if Qltb m y then y else m) tl x)
  end.

(** Float remainder [x % m] with the sign of the divisor; numpy yields NaN
    for [m = 0], which compares unequal to everything, so the test
    [x % m == 0] is modelled directly. *)
Definition py_mod (x m : Q) : Q := x - m * inject_Z (Qfloor (x / m)).

Definition mod_is_zero (x m : Q) : bool :=
  if Qeq_bool m 0 then false else Qeq_bool (py_mod x m) 0.

(* ================================================================= *)
(** ** Data model *)

(** A pandas DataFrame of numbers: positions index the rows, characters
    the columns; [df_values] is row-major. *)
Record DataFrame : Type := mkDataFrame {
  df_index : list Q;
  df_columns : list string;
  df_values : list (list Q)
}.

(** [df.loc[p, :]]: the rows labelled [p], one for each occurrence of the
    label in the index.  With one occurrence pandas gives that row, with
    several a frame of all of them, with none it raises KeyError. *)
Fixpoint loc_rows_aux (p : Q) (idx : list Q) (rows : list (list Q))
  : list (list Q) :=
  match idx, rows with
  | i :: idx', r :: rows' =>
      if Qeq_bool i p then r :: loc_rows_aux p idx' rows'
      else loc_rows_aux p idx' rows'
  | _, _ => []
  end.

Definition loc_rows (df : DataFrame) (p : Q) : list (list Q) :=
  loc_rows_aux p (df_index df) (df_values df).

(** What the caller passes as [matrix]. *)
Inductive matrix_arg : Type :=
| ArgDataFrame (df : DataFrame)
| ArgMatrix (df : DataFrame)     (* a Matrix.Matrix object, by its [.df] *)
| ArgOther.

(** A colour: a name or a list of floats; a colour scheme: one colour for
    all characters or a dict from characters to colours. *)
Inductive Color : Type :=
| ColorName (s : string)
| ColorList (l : list Q).

Inductive color_scheme : Type :=
| SchemeColor (c : Color)
| SchemeDict (d : list (string * Color)).

Module Glyph.
(** Modelled from the spec: the class [Glyph] (logomaker/Glyph.py) is not
    part of Logo.py; this is the glyph placement record of the data model
    (position, character, floor, ceiling, colour, flip flag, width,
    z-order), with the attributes Logo.py reads ([p], [c], [floor],
    [ceiling], [color], [alpha], [width]). *)
Record Glyph : Type := mk {
  p : Q;
  c : string;
  ax : option nat;
  floor : Q;
  ceiling : Q;
  color : list Q;
  flip : bool;
  zorder : Q;
  width : Q;
  alpha : Q;
  attributes : kwargs
}.
End Glyph.

(** The table [glyph_df]: a frame of Glyph objects grown cell by cell with
    [glyph_df.loc[p, c] = glyph].  Row and column labels are kept in order of
    first appearance. *)
Record GlyphFrame : Type := mkGlyphFrame {
  gf_index : list Q;
  gf_columns : list string;
  gf_cells : list ((Q * string) * Glyph.Glyph)
}.

Definition empty_frame : GlyphFrame := mkGlyphFrame [] [] [].

Definition key_eqb (k1 k2 : Q * string) : bool :=
  Qeq_bool (fst k1) (fst k2) && String.eqb (snd k1) (snd k2).

Fixpoint cells_get (k : Q * string) (cells : list ((Q * string) * Glyph.Glyph))
  : option Glyph.Glyph :=
  match cells with
  | [] => None
  | (k', g) :: tl => if key_eqb k' k then Some g else cells_get k tl
  end.

Fixpoint cells_set (k : Q * string) (g : Glyph.Glyph)
  (cells : list ((Q * string) * Glyph.Glyph))
  : list ((Q * string) * Glyph.Glyph) :=
  match cells with
  | [] => [(k, g)]
  | (k', g') :: tl =>
      if key_eqb k' k then (k', g) :: tl else (k', g') :: cells_set k g tl
  end.

Definition mem_Q (p : Q) (l : list Q) : bool := existsb (Qeq_bool p) l.
Definition mem_str (c : string) (l : list string) : bool :=
  existsb (String.eqb c) l.

(** [glyph_df.loc[p, c] = glyph] (setting with enlargement). *)
Definition frame_set (p : Q) (c : string) (g : Glyph.Glyph) (f : GlyphFrame)
  : GlyphFrame :=
  mkGlyphFrame
    (if mem_Q p (gf_index f) then gf_index f else gf_index f ++ [p])
    (if mem_str c (gf_columns f) then gf_columns f else gf_columns f ++ [c])
    (cells_set (p, c) g (gf_cells f)).

(** [glyph_df.loc[p, c]]. *)
Definition frame_get (p : Q) (c : string) (f : GlyphFrame)
  : option Glyph.Glyph :=
  cells_get (p, c) (gf_cells f).

(** [[g for g in glyph_df.values.ravel() if isinstance(g, Glyph.Glyph)]]:
    the cells in row-major order, empty cells skipped. *)
Definition frame_ravel (f : GlyphFrame) : list Glyph.Glyph :=
  flat_map
    (fun p =>
       flat_map
         (fun c => match frame_get p c f with Some g => [g] | None => [] end)
         (gf_columns f))
    (gf_index f).

(** matplotlib objects, as far as Logo.py drives them. *)
Record Rectangle : Type := mkRectangle {
  rect_x : Q;
  rect_y : Q;
  rect_width : Q;
  rect_height : Q;
  rect_facecolor : Color;
  rect_edgecolor : option Color;
  rect_zorder : Q;
  rect_kwargs : kwargs
}.

Record HLine : Type := mkHLine {
  hl_y : Q;
  hl_zorder : Q;
  hl_color : Color;
  hl_linewidth : Q;
  hl_kwargs : kwargs
}.

Record Spine : Type := mkSpine {
  sp_visible : bool;
  sp_color : Color;
  sp_linewidth : Q;
  sp_bounds : option (Q * Q)
}.

Record Axes : Type := mkAxes {
  ax_xlim : Q * Q;
  ax_ylim : Q * Q;
  ax_patches : list Rectangle;
  ax_lines : list HLine;
  ax_xticks : list Q;
  ax_xticklabels : list string;
  ax_xtick_rotation : Q;
  ax_xtick_kwargs : kwargs;
  ax_spines : list (string * Spine);
  ax_glyphs : list Glyph.Glyph
}.

(** The attributes of a [Logo] instance. *)
Record Logo : Type := mkLogo {
  matrix_df : DataFrame;
  L : nat;
  cs : list string;
  C : nat;
  ps : list Q;
  colors : color_scheme;
  ax : option nat;
  negate : bool;
  center : bool;
  flip_below : bool;
  vsep : Q;
  zorder : Q;
  has_been_drawn : bool;
  rgba_dict : list (string * list Q);
  glyph_df : GlyphFrame
}.

(** [glyph_list] holds the very objects stored in [glyph_df], and neither
    container is changed after [_compute_characters]; it is therefore read
    off the frame. *)
Definition glyph_list (l : Logo) : list Glyph.Glyph :=
  frame_ravel (glyph_df l).

Record World : Type := mkWorld {
  self : Logo;
  axes : nat -> Axes;
  gca : nat
}.

(** Collaborators outside Logo.py. *)
Class Externals : Type := {
  (** [np.argsort] of a one-dimensional float array. *)
  np_argsort : list Q -> list nat;
  (** [Matrix.Matrix(df).df]. *)
  Matrix_Matrix : DataFrame -> result DataFrame;
  (** [lm_color.get_color_dict(color_scheme, chars, alpha)]. *)
  get_color_dict :
    color_scheme -> list string -> Q -> result (list (string * list Q));
  (** Width and opacity a new Glyph starts with. *)
  Glyph_width0 : Q;
  Glyph_alpha0 : Q;
  (** [g.set_attributes] applied to the keyword arguments, mutating [g]. *)
  Glyph_set_attributes : kwargs -> Glyph.Glyph -> result unit * Glyph.Glyph;
  (** [g.draw(ax)], drawing on [ax]. *)
  Glyph_draw : Glyph.Glyph -> Axes -> result unit * Axes;
  (** [fmt % p]. *)
  str_format : string -> Q -> result string;
  (** [str(p)] of a float, as [%s] formats it. *)
  float_str : Q -> string;
  (** The state of an Axes after [ax.clear()]. *)
  Axes_cleared : Axes -> Axes;
  (** The limits an Axes has after [ax.set_xlim(lim)], [ax.set_ylim(lim)]:
      matplotlib does not always store the limits it is given (it widens
      an interval without extent). *)
  Axes_xlim_stored : Axes -> Q * Q -> Q * Q;
  Axes_ylim_stored : Axes -> Q * Q -> Q * Q;
  (** After [ax.set_xticks(ticks)]: the x-limits, which matplotlib widens
      to hold the ticks, and the tick labels, which the formatter of the
      Axes makes for the new ticks. *)
  Axes_xlim_with_ticks : Axes -> list Q -> Q * Q;
  Axes_tick_labels : Axes -> list Q -> list string
}.

(* ================================================================= *)
(** ** The method monad *)

Definition py (A : Type) : Type := World -> result A * World.

Definition ret {A} (a : A) : py A := fun w => (Ok a, w).

Definition bind {A B} (m : py A) (k : A -> py B) : py B :=
  fun w =>
    match m w with
    | (Ok a, w') => k a w'
    | (Raise e, w') => (Raise e, w')
    end.

Definition raise {A} (e : exn) : py A := fun w => (Raise e, w).

Definition lift {A} (r : result A) : py A := fun w => (r, w).

Notation "x <- m ;; k" := (bind m (fun x => k))
  (at level 61, m at next level, right associativity).
Notation "m ;;; k" := (bind m (fun _ => k))
  (at level 61, right associativity).

(** [assert b, msg]. *)
Definition py_assert (b : bool) (msg : string) : py unit :=
  if b then ret tt else raise (AssertionError msg).

Definition get_self : py Logo := fun w => (Ok (self w), w).

Definition put_self (l : Logo) : py unit :=
  fun w => (Ok tt, mkWorld l (axes w) (gca w)).

Definition plt_gca : py nat := fun w => (Ok (gca w), w).

Definition get_axes (h : nat) : py Axes := fun w => (Ok (axes w h), w).

Definition upd (h : nat) (a : Axes) (s : nat -> Axes) : nat -> Axes :=
  fun k => if Nat.eqb k h then a else s k.

Definition put_axes (h : nat) (a : Axes) : py unit :=
  fun w => (Ok tt, mkWorld (self w) (upd h a (axes w)) (gca w)).

(** [for x in xs: body x]. *)
Fixpoint py_for {A} (xs : list A) (body : A -> py unit) : py unit :=
  match xs with
  | [] => ret tt
  | x :: tl => body x ;;; py_for tl body
  end.

(** Attribute assignments [self.f = v]. *)
Definition set_ax (v : option nat) (l : Logo) : Logo :=
  mkLogo (matrix_df l) (L l) (cs l) (C l) (ps l) (colors l) v (negate l)
    (center l) (flip_below l) (vsep l) (zorder l) (has_been_drawn l)
    (rgba_dict l) (glyph_df l).

Definition set_has_been_drawn (v : bool) (l : Logo) : Logo :=
  mkLogo (matrix_df l) (L l) (cs l) (C l) (ps l) (colors l) (ax l) (negate l)
    (center l) (flip_below l) (vsep l) (zorder l) v
    (rgba_dict l) (glyph_df l).

Definition set_matrix_df (v : DataFrame) (l : Logo) : Logo :=
  mkLogo v (L l) (cs l) (C l) (ps l) (colors l) (ax l) (negate l)
    (center l) (flip_below l) (vsep l) (zorder l) (has_been_drawn l)
    (rgba_dict l) (glyph_df l).

Definition set_rgba_dict (v : list (string * list Q)) (l : Logo) : Logo :=
  mkLogo (matrix_df l) (L l) (cs l) (C l) (ps l) (colors l) (ax l) (negate l)
    (center l) (flip_below l) (vsep l) (zorder l) (has_been_drawn l)
    v (glyph_df l).

Definition set_glyph_df (v : GlyphFrame) (l : Logo) : Logo :=
  mkLogo (matrix_df l) (L l) (cs l) (C l) (ps l) (colors l) (ax l) (negate l)
    (center l) (flip_below l) (vsep l) (zorder l) (has_been_drawn l)
    (rgba_dict l) v.

Definition modify_self (f : Logo -> Logo) : py unit :=
  fun w => (Ok tt, mkWorld (f (self w)) (axes w) (gca w)).

(** [self.ax.m(...)]: the Axes behind [self.ax]; [AttributeError] on None. *)
Definition self_ax : py nat :=
  l <- get_self ;;
  match ax l with
  | Some h => ret h
  | None => raise (AttributeError "'NoneType' object has no attribute")
  end.

(* ================================================================= *)
(** ** Module constants and small helpers *)

(** [tuple(s)] of a string: its characters, each a one-character string. *)
Fixpoint tuple (s : string) : list string :=
  match s with
  | EmptyString => []
  | String a tl => String a EmptyString :: tuple tl
  end.

Definition chars_to_colors_dict : list (list string * string) :=
  [ (tuple "ACGT", "classic"%string);
    (tuple "ACGU", "classic"%string);
    (tuple "ACDEFGHIKLMNPQRSTVWY", "hydrophobicity"%string) ].

Definition tuple_eqb (k1 k2 : list string) : bool :=
  if list_eq_dec string_dec k1 k2 then true else false.

(** [d.get(key, default)]. *)
Fixpoint dict_get_default {V} (d : list (list string * V)) (key : list string)
  (default : V) : V :=
  match d with
  | [] => default
  | (k, v) :: tl => if tuple_eqb k key then v else dict_get_default tl key default
  end.

(** [d[c]] of a dict keyed by characters. *)
Fixpoint dict_get {V} (c : string) (d : list (string * V)) : option V :=
  match d with
  | [] => None
  | (k, v) :: tl => if String.eqb k c then Some v else dict_get c tl
  end.

(** Fancy indexing [a[indices]] of a numpy array. *)
Fixpoint take {A} (a : list A) (indices : list nat) : result (list A) :=
  match indices with
  | [] => Ok []
  | i :: tl =>
      match nth_error a i, take a tl with
      | Some x, Ok xs => Ok (x :: xs)
      | None, _ => Raise (IndexError "index out of bounds")
      | _, Raise e => Raise e
      end
  end.

(** [np.arange(start, stop)] with step 1:
    [ceil(stop - start)] values [start + i]. *)
Definition np_arange (start stop : Q) : list Q :=
  map (fun i => start + inject_Z (Z.of_nat i))
      (seq 0 (Z.to_nat (Qceiling (stop - start)))).

(** [-df]. *)
Definition df_neg (df : DataFrame) : DataFrame :=
  mkDataFrame (df_index df) (df_columns df)
    (map (map Qopp) (df_values df)).

(** [values.mean(axis=1)] of one row. *)
Definition row_mean (row : list Q) : Q :=
  py_sum row / inject_Z (Z.of_nat (List.length row)).

(** [df.loc[:, :] = df.values - df.values.mean(axis=1)[:, np.newaxis]]. *)
Definition df_center (df : DataFrame) : DataFrame :=
  mkDataFrame (df_index df) (df_columns df)
    (map (fun row => map (fun v => v - row_mean row) row) (df_values df)).

(* ================================================================= *)
(** ** The class Logo *)

Section Methods.

Context {E : Externals}.

(** [Glyph.Glyph(p, c, ax=, floor=, ceiling=, color=, flip=, draw_now=False,
    zorder=)]. *)
Definition Glyph_new (p : Q) (c : string) (ax : option nat)
  (floor ceiling : Q) (color : list Q) (flip : bool) (zorder : Q)
  : Glyph.Glyph :=
  Glyph.mk p c ax floor ceiling color flip zorder Glyph_width0 Glyph_alpha0 [].

(** Lines 682-685: the row's values and characters, reordered by the
    indices that [np.argsort] returns.  When the label [p] is repeated
    in the index, the fancy indexing of lines 684-685 raises IndexError
    if there are more columns than rows of that label; otherwise the loop
    of line 691 takes a whole row of characters for [c], whose text is
    no key of [rgba_dict], so that line 697 raises KeyError at its first
    turn, unless the logo has no character and the loop no turn. *)
Definition sorted_row (l : Logo) (p : Q)
  : result (list Q * list string) :=
  match loc_rows (matrix_df l) p with
  | [] => Raise (KeyError "position")
  | [vs] =>
      let ordered_indices := np_argsort vs in
      match take vs ordered_indices, take (cs l) ordered_indices with
      | Ok vs', Ok cs' => Ok (vs', cs')
      | Raise e, _ => Raise e
      | _, Raise e => Raise e
      end
  | vs :: rest =>
      (* A repeated label: [vs] is a two-dimensional array of
         [1 + len(rest)] rows, and so are the indices of [np.argsort],
         which then index its rows and the characters. *)
      if Nat.ltb (S (List.length rest)) (List.length vs)
      then Raise (IndexError "index out of bounds")
      else if Nat.ltb (List.length (cs l)) (List.length vs)
      then Raise (IndexError "index out of bounds")
      else if Nat.eqb (C l) 0
      then Ok ([], [])
      else Raise (KeyError "row of characters")
  end.

(** Line 688: [sum((vs - vsep) * (vs < 0)) + vsep/2.0]. *)
Definition initial_floor (vsep : Q) (vs : list Q) : Q :=
  py_sum (map (fun v => (v - vsep) * (if Qltb v 0 then 1 else 0)) vs)
  + vsep / 2.

(** Lines 691-717: the inner loop over [zip(range(self.C), vs, cs)],
    storing each new Glyph in [glyph_df]. *)
Fixpoint place_row (l : Logo) (p : Q) (floor : Q) (vcs : list (Q * string))
  (glyph_df : GlyphFrame) : result GlyphFrame :=
  match vcs with
  | [] => Ok glyph_df
  | (v, c) :: tl =>
      let ceiling := floor + Qabs v in
      match dict_get c (rgba_dict l) with
      | None => Raise (KeyError c)
      | Some rgba =>
          let this_color := firstn 3 rgba in
          let flip := Qltb v 0 && flip_below l in
          let glyph :=
            Glyph_new p c (ax l) floor ceiling this_color flip (zorder l) in
          let glyph_df := frame_set p c glyph glyph_df in
          place_row l p (ceiling + vsep l) tl glyph_df
      end
  end.

(** Lines 679-717: the outer loop over [self.ps]. *)
Fixpoint compute_rows (l : Logo) (positions : list Q) (glyph_df : GlyphFrame)
  : result GlyphFrame :=
  match positions with
  | [] => Ok glyph_df
  | p :: tl =>
      match sorted_row l p with
      | Raise e => Raise e
      | Ok (vs, cs') =>
          let floor := initial_floor (vsep l) vs in
          match place_row l p floor (firstn (C l) (combine vs cs')) glyph_df
          with
          | Raise e => Raise e
          | Ok glyph_df => compute_rows l tl glyph_df
          end
      end
  end.

(** The Glyph objects the inner loop creates, in order of creation: the
    stack of one position, bottom glyph first. *)
Fixpoint stack_glyphs (l : Logo) (p : Q) (floor : Q)
  (vcs : list (Q * string)) : result (list Glyph.Glyph) :=
  match vcs with
  | [] => Ok []
  | (v, c) :: tl =>
      let ceiling := floor + Qabs v in
      match dict_get c (rgba_dict l) with
      | None => Raise (KeyError c)
      | Some rgba =>
          let this_color := firstn 3 rgba in
          let flip := Qltb v 0 && flip_below l in
          let glyph :=
            Glyph_new p c (ax l) floor ceiling this_color flip (zorder l) in
          match stack_glyphs l p (ceiling + vsep l) tl with
          | Ok gs => Ok (glyph :: gs)
          | Raise e => Raise e
          end
      end
  end.

(** The glyphs created for position [p] in one turn of the outer loop. *)
Definition row_glyphs (l : Logo) (p : Q) : result (list Glyph.Glyph) :=
  match sorted_row l p with
  | Raise e => Raise e
  | Ok (vs, cs') =>
      let floor := initial_floor (vsep l) vs in
      stack_glyphs l p floor (firstn (C l) (combine vs cs'))
  end.

(** Storing a stack in the frame, glyph by glyph. *)
Definition store_row (gs : list Glyph.Glyph) (gdf : GlyphFrame) : GlyphFrame :=
  fold_left (fun f g => frame_set (Glyph.p g) (Glyph.c g) g f) gs gdf.

Definition _compute_characters : py unit :=
  l <- get_self ;;
  glyph_df <- lift (compute_rows l (ps l) empty_frame) ;;
  modify_self (set_glyph_df glyph_df).

Definition _update_ax (ax : option nat) : py unit :=
  match ax with
  | Some h => modify_self (set_ax (Some h))
  | None => ret tt
  end.

(** [g.draw(self.ax)] for one glyph. *)
Definition draw_glyph (h : nat) (g : Glyph.Glyph) : py unit :=
  a <- get_axes h ;;
  let '(r, a') := Glyph_draw g a in
  put_axes h a' ;;;
  lift r.

Definition set_xlim (h : nat) (lim : Q * Q) : py unit :=
  a <- get_axes h ;;
  put_axes h
    (mkAxes (Axes_xlim_stored a lim) (ax_ylim a) (ax_patches a) (ax_lines a) (ax_xticks a)
       (ax_xticklabels a) (ax_xtick_rotation a) (ax_xtick_kwargs a)
       (ax_spines a) (ax_glyphs a)).

Definition set_ylim (h : nat) (lim : Q * Q) : py unit :=
  a <- get_axes h ;;
  put_axes h
    (mkAxes (ax_xlim a) (Axes_ylim_stored a lim) (ax_patches a) (ax_lines a) (ax_xticks a)
       (ax_xticklabels a) (ax_xtick_rotation a) (ax_xtick_kwargs a)
       (ax_spines a) (ax_glyphs a)).

Definition add_patch (h : nat) (patch : Rectangle) : py unit :=
  a <- get_axes h ;;
  put_axes h
    (mkAxes (ax_xlim a) (ax_ylim a) (ax_patches a ++ [patch]) (ax_lines a)
       (ax_xticks a) (ax_xticklabels a) (ax_xtick_rotation a)
       (ax_xtick_kwargs a) (ax_spines a) (ax_glyphs a)).

Definition axhline (h : nat) (line : HLine) : py unit :=
  a <- get_axes h ;;
  put_axes h
    (mkAxes (ax_xlim a) (ax_ylim a) (ax_patches a) (ax_lines a ++ [line])
       (ax_xticks a) (ax_xticklabels a) (ax_xtick_rotation a)
       (ax_xtick_kwargs a) (ax_spines a) (ax_glyphs a)).

Definition set_xticks (h : nat) (ticks : list Q) : py unit :=
  a <- get_axes h ;;
  put_axes h
    (mkAxes (Axes_xlim_with_ticks a ticks) (ax_ylim a) (ax_patches a)
       (ax_lines a) ticks (Axes_tick_labels a ticks) (ax_xtick_rotation a)
       (ax_xtick_kwargs a) (ax_spines a) (ax_glyphs a)).

Definition set_xticklabels (h : nat) (labels : list string) (rotation : Q)
  (kw : kwargs) : py unit :=
  a <- get_axes h ;;
  put_axes h
    (mkAxes (ax_xlim a) (ax_ylim a) (ax_patches a) (ax_lines a) (ax_xticks a)
       labels rotation kw (ax_spines a) (ax_glyphs a)).

Definition set_spines (h : nat) (spines : list (string * Spine)) : py unit :=
  a <- get_axes h ;;
  put_axes h
    (mkAxes (ax_xlim a) (ax_ylim a) (ax_patches a) (ax_lines a) (ax_xticks a)
       (ax_xticklabels a) (ax_xtick_rotation a) (ax_xtick_kwargs a)
       spines (ax_glyphs a)).

(** Lines 618-661. *)
Definition draw (ax_arg : option nat) : py unit :=
  _update_ax ax_arg ;;;
  l <- get_self ;;
  (match ax l with
   | None => h <- plt_gca ;; modify_self (set_ax (Some h))
   | Some _ => ret tt
   end) ;;;
  h <- self_ax ;;
  a <- get_axes h ;;
  put_axes h (Axes_cleared a) ;;;
  modify_self (set_has_been_drawn false) ;;;
  l <- get_self ;;
  py_for (glyph_list l) (draw_glyph h) ;;;
  modify_self (set_has_been_drawn true) ;;;
  l <- get_self ;;
  xmin <- lift (py_min
           (map (fun g => Glyph.p g - (5 # 10) * Glyph.width g) (glyph_list l))) ;;
  xmax <- lift (py_max
           (map (fun g => Glyph.p g + (5 # 10) * Glyph.width g) (glyph_list l))) ;;
  set_xlim h (xmin, xmax) ;;;
  ymin <- lift (py_min (map Glyph.floor (glyph_list l))) ;;
  ymax <- lift (py_max (map Glyph.ceiling (glyph_list l))) ;;
  set_ylim h (ymin, ymax).

(** Lines 79-154.  [colors = None] is [None]; the attributes are assigned
    in the order of the source. *)
Definition __init__ (matrix : matrix_arg) (ax : option nat)
  (negate center : bool) (colors : option color_scheme) (flip_below : bool)
  (vsep zorder : Q) (draw_now : bool) : py unit :=
  py_assert (match matrix with ArgOther => false | _ => true end)
    "Error: matrix must be either a pd.DataFrame object or a Matrix object" ;;;
  df <- (match matrix with
         | ArgDataFrame df => lift (Matrix_Matrix df)
         | ArgMatrix df => ret df
         | ArgOther => raise (AssertionError "unreachable")
         end) ;;
  let L := List.length (df_index df) in
  let cs := df_columns df in
  let C := List.length cs in
  let ps := df_index df in
  let colors :=
    match colors with
    | None =>
        let key := cs in
        SchemeColor
          (ColorName (dict_get_default chars_to_colors_dict key "gray"%string))
    | Some c => c
    end in
  put_self
    (mkLogo df L cs C ps colors ax negate center flip_below vsep zorder
       false [] empty_frame) ;;;
  (if negate then modify_self (fun l => set_matrix_df (df_neg (matrix_df l)) l)
   else ret tt) ;;;
  (if center then modify_self (fun l => set_matrix_df (df_center (matrix_df l)) l)
   else ret tt) ;;;
  rgba <- lift (get_color_dict colors cs 1) ;;
  modify_self (set_rgba_dict rgba) ;;;
  _compute_characters ;;;
  (if draw_now then draw None else ret tt).

(** Lines 271-316. *)
Definition style_single_glyph (p : Q) (c : string) (draw_now : bool)
  (ax : option nat) (kw : kwargs) : py unit :=
  _update_ax ax ;;;
  l <- get_self ;;
  py_assert (mem_Q p (gf_index (glyph_df l)))
    (String.append "Error: p="
       (String.append (float_str p) " is not a valid position")) ;;;
  py_assert (mem_str c (gf_columns (glyph_df l)))
    (String.append "Error: c="
       (String.append c " is not a valid character")) ;;;
  match frame_get p c (glyph_df l) with
  | None => raise (AttributeError "'float' object has no attribute 'set_attributes'")
  | Some g =>
      let '(r, g') := Glyph_set_attributes kw g in
      modify_self (fun l =>
        set_glyph_df
          (mkGlyphFrame (gf_index (glyph_df l)) (gf_columns (glyph_df l))
             (cells_set (p, c) g' (gf_cells (glyph_df l)))) l) ;;;
      lift r ;;;
      (if draw_now then draw None else ret tt)
  end.

(** [for i, p in enumerate(index): c = sequence[i]; body p c]. *)
Fixpoint for_enumerate (i : nat) (index : list Q) (sequence : list string)
  (body : Q -> string -> py unit) : py unit :=
  match index with
  | [] => ret tt
  | p :: tl =>
      match nth_error sequence i with
      | None => raise (IndexError "string index out of range")
      | Some c => body p c ;;; for_enumerate (S i) tl sequence body
      end
  end.

(** Lines 318-371. *)
Definition style_glyphs_in_sequence (sequence : string) (draw_now : bool)
  (ax : option nat) (kw : kwargs) : py unit :=
  _update_ax ax ;;;
  l <- get_self ;;
  py_assert (Nat.eqb (String.length sequence) (L l))
    "Error: sequence to highlight does not have same length as logo." ;;;
  py_for (tuple sequence) (fun c =>
    py_assert (mem_str c (cs l))
      (String.append "Error: sequence contains invalid character " c)) ;;;
  l <- get_self ;;
  for_enumerate 0 (gf_index (glyph_df l)) (tuple sequence)
    (fun p c => style_single_glyph p c true None kw) ;;;
  (if draw_now then draw None else ret tt).

(** Lines 397-471. *)
Definition highlight_position_range (pmin pmax padding : Q) (color : Color)
  (edgecolor : option Color) (floor ceiling : option Q) (zorder : Q)
  (kw : kwargs) : py unit :=
  l <- get_self ;;
  py_assert (has_been_drawn l)
    "Error: Cannot call this function until Log0 has been drawn." ;;;
  h <- self_ax ;;
  a <- get_axes h ;;
  let '(ymin, ymax) := ax_ylim a in
  let floor := match floor with None => ymin | Some f => f end in
  let ceiling := match ceiling with None => ymax | Some c => c end in
  py_assert (Qltb floor ceiling) "Error: floor < ceiling not satisfied." ;;;
  py_assert (Qle_bool pmin pmax) "Error: pmin <= pmax not satisfied." ;;;
  py_assert (Qle_bool (- (5 # 10)) padding)
    "Error: padding >= -0.5 not satisfied" ;;;
  let x := pmin - (5 # 10) - padding in
  let y := floor in
  let width := pmax - pmin + 1 + 2 * padding in
  let height := ceiling - floor in
  let patch := mkRectangle x y width height color edgecolor zorder kw in
  add_patch h patch.

(** Lines 373-395. *)
Definition highlight_position (p : Q) (padding : Q) (color : Color)
  (edgecolor : option Color) (floor ceiling : option Q) (zorder : Q)
  (kw : kwargs) : py unit :=
  l <- get_self ;;
  py_assert (has_been_drawn l)
    "Error: Cannot call this function until Log0 has been drawn." ;;;
  highlight_position_range p p padding color edgecolor floor ceiling zorder kw.

(** Lines 473-510. *)
Definition draw_baseline (zorder : Q) (color : Color) (linewidth : Q)
  (kw : kwargs) : py unit :=
  l <- get_self ;;
  py_assert (has_been_drawn l)
    "Error: Cannot call this function until Log0 has been drawn." ;;;
  h <- self_ax ;;
  axhline h (mkHLine 0 zorder color linewidth kw).

(** [[fmt % p for p in xticks]]. *)
Fixpoint format_each (fmt : string) (ts : list Q) : result (list string) :=
  match ts with
  | [] => Ok []
  | p :: tl =>
      match str_format fmt p with
      | Raise e => Raise e
      | Ok s =>
          match format_each fmt tl with
          | Ok ss => Ok (s :: ss)
          | Raise e => Raise e
          end
      end
  end.

(** Lines 512-562. *)
Definition style_xticks (anchor spacing : Q) (fmt : string) (rotation : Q)
  (kw : kwargs) : py unit :=
  l <- get_self ;;
  py_assert (has_been_drawn l)
    "Error: Cannot call this function until Log0 has been drawn." ;;;
  p_min <- lift (py_min (ps l)) ;;
  p_max <- lift (py_max (ps l)) ;;
  let ps := np_arange p_min (p_max + 1) in
  let xticks := filter (fun p => mod_is_zero (p - anchor) spacing) ps in
  h <- self_ax ;;
  set_xticks h xticks ;;;
  xticklabels <- lift (format_each fmt xticks) ;;
  set_xticklabels h xticklabels rotation kw.

(** Lines 564-616. *)
Definition style_spines (spines : list string) (visible : bool)
  (linewidth : Q) (color : Color) (bounds : option (Q * Q)) : py unit :=
  l <- get_self ;;
  py_assert (has_been_drawn l)
    "Error: Cannot call this function until Log0 has been drawn." ;;;
  h <- self_ax ;;
  a <- get_axes h ;;
  set_spines h
    (map (fun ns : string * Spine =>
            let (name, spine) := ns in
            if mem_str name spines
            then (name,
                  mkSpine visible color linewidth
                    (match bounds with
                     | Some b => Some b
                     | None => sp_bounds spine
                     end))
            else (name, spine))
         (ax_spines a)).

(** [v = df.loc[p, c]] followed by the test [v < 0], which needs a number:
    when the label [p] or the label [c] is repeated, [v] is a Series or a
    frame, whose truth value pandas refuses with ValueError; when one of
    them is missing, [.loc] raises KeyError. *)
Fixpoint column_index (c : string) (columns : list string) : option nat :=
  match columns with
  | [] => None
  | c' :: tl =>
      if String.eqb c' c then Some 0%nat
      else option_map S (column_index c tl)
  end.

Definition df_loc (df : DataFrame) (p : Q) (c : string) : result Q :=
  match loc_rows df p, column_index c (df_columns df) with
  | [], _ => Raise (KeyError "position")
  | _, None => Raise (KeyError c)
  | [row], Some j =>
      if mem_str c (skipn (S j) (df_columns df))
      then Raise (ValueError "The truth value of a Series is ambiguous.")
      else match nth_error row j with
           | Some v => Ok v
           | None => Raise (KeyError c)
           end
  | _, Some _ =>
      Raise (ValueError "The truth value of a Series is ambiguous.")
  end.

Definition set_colors (v : color_scheme) (l : Logo) : Logo :=
  mkLogo (matrix_df l) (L l) (cs l) (C l) (ps l) v (ax l) (negate l)
    (center l) (flip_below l) (vsep l) (zorder l) (has_been_drawn l)
    (rgba_dict l) (glyph_df l).

Definition set_zorder (v : Q) (l : Logo) : Logo :=
  mkLogo (matrix_df l) (L l) (cs l) (C l) (ps l) (colors l) (ax l) (negate l)
    (center l) (flip_below l) (vsep l) v (has_been_drawn l)
    (rgba_dict l) (glyph_df l).

(** The cells of the frame that hold a glyph, in the order of
    [glyph_list]: [glyph_list] holds the objects of these cells. *)
Definition frame_keys (f : GlyphFrame) : list (Q * string) :=
  flat_map
    (fun p =>
       flat_map
         (fun c => match frame_get p c f with
                   | Some _ => [(p, c)]
                   | None => []
                   end)
         (gf_columns f))
    (gf_index f).

(** Storing a glyph object back in its cell. *)
Definition put_glyph (k : Q * string) (g : Glyph.Glyph) (l : Logo) : Logo :=
  set_glyph_df
    (mkGlyphFrame (gf_index (glyph_df l)) (gf_columns (glyph_df l))
       (cells_set k g (gf_cells (glyph_df l)))) l.

(** [g.set_attributes(...)] on the glyph object of cell [k]; the object is
    shared by [glyph_df] and [glyph_list], so the cell shows the change. *)
Definition mutate_glyph (k : Q * string) (kw : kwargs) : py unit :=
  l <- get_self ;;
  match cells_get k (gf_cells (glyph_df l)) with
  | None => ret tt
  | Some g =>
      let '(r, g') := Glyph_set_attributes kw g in
      modify_self (put_glyph k g') ;;;
      lift r
  end.

(** Lines 156-209.  The keyword [zorder], which the method also records in
    [self.zorder], is a number when present; [kw] holds the other keyword
    arguments. *)
Definition style_glyphs (new_colors : option color_scheme) (draw_now : bool)
  (ax : option nat) (zorder : option Q) (kw : kwargs) : py unit :=
  _update_ax ax ;;;
  (match new_colors with
   | Some scheme =>
       modify_self (set_colors scheme) ;;;
       l <- get_self ;;
       rgba <- lift (get_color_dict (colors l) (cs l) 1) ;;
       modify_self (set_rgba_dict rgba)
   | None => ret tt
   end) ;;;
  (match zorder with
   | Some z => modify_self (set_zorder z)
   | None => ret tt
   end) ;;;
  let kwargs :=
    match zorder with
    | Some z => ("zorder"%string, PyNum z) :: kw
    | None => kw
    end in
  l <- get_self ;;
  py_for (frame_keys (glyph_df l)) (fun k =>
    mutate_glyph k kwargs ;;;
    match new_colors with
    | None => ret tt
    | Some _ =>
        l <- get_self ;;
        match cells_get k (gf_cells (glyph_df l)) with
        | None => ret tt
        | Some g =>
            match dict_get (Glyph.c g) (rgba_dict l) with
            | None => raise (KeyError (Glyph.c g))
            | Some rgba =>
                let this_color := firstn 3 rgba in
                mutate_glyph k [("color"%string, PyNums this_color)]
            end
        end
    end) ;;;
  (if draw_now then draw None else ret tt).

(** Lines 211-269.  A key of [kw] that repeats [color], [alpha] or [flip]
    makes the call of [set_attributes] fail; that, as any failure of the
    call, is the collaborator's to raise. *)
Definition style_glyphs_below (shade fade : Q) (flip : bool) (draw_now : bool)
  (ax : option nat) (kw : kwargs) : py unit :=
  _update_ax ax ;;;
  l <- get_self ;;
  py_for (ps l) (fun p =>
    py_for (cs l) (fun c =>
      l <- get_self ;;
      match df_loc (matrix_df l) p c with
      | Raise e => raise e
      | Ok v =>
          if Qltb v 0 then
            match frame_get p c (glyph_df l) with
            | None =>
                if mem_Q p (gf_index (glyph_df l))
                   && mem_str c (gf_columns (glyph_df l))
                then raise (AttributeError "'float' object has no attribute 'color'")
                else raise (KeyError c)
            | Some g =>
                let color := map (fun x => x * (1 - shade)) (Glyph.color g) in
                let alpha := Glyph.alpha g * (1 - fade) in
                mutate_glyph (p, c)
                  (("color"%string, PyNums color)
                   :: ("alpha"%string, PyNum alpha)
                   :: ("flip"%string, PyBool flip) :: kw)
            end
          else ret tt
      end)) ;;;
  (if draw_now then draw None else ret tt).

End Methods.

(* ================================================================= *)
(** ** Vocabulary of the properties *)

(** What numpy promises of [np.argsort(vs)]: a rearrangement of the indices
    [0 .. len(vs)-1] along which the values ascend.  The default sorting
    kind is not a stable one, so nothing is promised about equal values. *)
Fixpoint ascending (l : list Q) : bool :=
  match l with
  | [] => true
  | x :: tl => forallb (Qle_bool x) tl && ascending tl
  end.

Fixpoint distinct (l : list nat) : bool :=
  match l with
  | [] => true
  | i :: tl => negb (existsb (Nat.eqb i) tl) && distinct tl
  end.

Definition is_argsort (vs : list Q) (indices : list nat) : bool :=
  Nat.eqb (List.length indices) (List.length vs)
  && forallb (fun i => Nat.ltb i (List.length vs)) indices
  && distinct indices
  && ascending (map (fun i => nth i vs 0) indices).



(** An attribute of the logo that assignments to [ax] and
    [has_been_drawn] leave alone, and one that assignments to [glyph_df]
    leave alone as well. *)
Definition draw_stable {B} (f : Logo -> B) : Prop :=
  (forall v l, f (set_ax v l) = f l)
  /\ (forall v l, f (set_has_been_drawn v l) = f l).

Definition stable {B} (f : Logo -> B) : Prop :=
  draw_stable f /\ (forall v l, f (set_glyph_df v l) = f l).

(** A method that leaves the attribute [f] of the logo as it finds it,
    whether it returns or raises. *)
Definition keeps {A B} (f : Logo -> B) (m : py A) : Prop :=
  forall w, f (self (snd (m w))) = f (self w).

(** The matrix after the constructor's transform step, and the colour
    scheme after its defaulting step. *)
Definition transformed (negate center : bool) (df : DataFrame) : DataFrame :=
  let df1 := if negate then df_neg df else df in
  if center then df_center df1 else df1.

Definition resolved_colors (colors : option color_scheme) (chars : list string)
  : color_scheme :=
  match colors with
  | None =>
      SchemeColor
        (ColorName (dict_get_default chars_to_colors_dict chars "gray"%string))
  | Some c => c
  end.

(** The frame the constructor obtained from its [matrix] argument. *)
Definition matrix_frame {E : Externals} (matrix : matrix_arg) (df : DataFrame)
  : Prop :=
  match matrix with
  | ArgDataFrame df0 => Matrix_Matrix df0 = Ok df
  | ArgMatrix df0 => df0 = df
  | ArgOther => False
  end.

(** Two results that are both values, or both the same exception. *)
Definition same_outcome {A B} (r1 : result A) (r2 : result B) : Prop :=
  match r1, r2 with
  | Ok _, Ok _ => True
  | Raise e1, Raise e2 => e1 = e2
  | _, _ => False
  end.

(** A float that holds a whole number. *)
Definition is_integer (q : Q) : Prop := exists z : Z, q == inject_Z z.

(** A row for which the inner loop runs to its end: the matrix has the
    row, under a label that occurs once in its index, every column has a
    character and a colour, and [np.argsort] kept its promise on it. *)
Definition row_ready {E : Externals} (l : Logo) (p : Q) (vs : list Q) : Prop :=
  loc_rows (matrix_df l) p = [vs]
  /\ List.length (cs l) = List.length vs
  /\ C l = List.length (cs l)
  /\ forallb (fun c => match dict_get c (rgba_dict l) with
                       | Some _ => true | None => false end) (cs l) = true
  /\ is_argsort vs (np_argsort vs) = true.

(** The row's values in stacking order. *)
Definition stacking_order {E : Externals} (vs : list Q) : list Q :=
  map (fun i => nth i vs 0) (np_argsort vs).

(** The row's characters in stacking order. *)
Definition stacking_chars {E : Externals} (chars : list string) (vs : list Q)
  : list string :=
  map (fun i => nth i chars EmptyString) (np_argsort vs).


(** The geometry of one stack: glyphs [gs] carry the values [vs], the first
    one standing on [floor], each one as tall as the absolute value it
    carries, and each next one standing [vsep] above the previous ceiling. *)
Inductive Stacked (vsep : Q) : Q -> list Q -> list Glyph.Glyph -> Prop :=
| Stacked_nil (floor : Q) : Stacked vsep floor [] []
| Stacked_cons (floor v : Q) (vs : list Q) (g : Glyph.Glyph)
    (gs : list Glyph.Glyph) :
    Glyph.floor g = floor ->
    Glyph.ceiling g = floor + Qabs v ->
    Stacked vsep (floor + Qabs v + vsep) vs gs ->
    Stacked vsep floor (v :: vs) (g :: gs).






(* ================================================================= *)
(** ** Reference collaborators, for running the model on examples *)

(** Insertion of index [i] into a list of indices sorted by value: past the
    indices of smaller or equal value ([insert_after]), or of smaller value
    only ([insert_before]). *)
Fixpoint insert_after (vs : list Q) (i : nat) (sorted : list nat) : list nat :=
  match sorted with
  | [] => [i]
  | j :: tl =>
      if Qle_bool (nth j vs 0) (nth i vs 0)
      then j :: insert_after vs i tl
      else i :: j :: tl
  end.


(** An argsort that keeps equal values in column order. *)
Definition stable_argsort (vs : list Q) : list nat :=
  fold_left (fun acc i => insert_after vs i acc) (seq 0 (List.length vs)) [].


(** A cleared Axes: unit limits, nothing drawn, and the four spines every
    Axes has. *)
Definition default_spine : Spine :=
  mkSpine true (ColorName "black") (8 # 10) None.

Definition blank_axes : Axes :=
  mkAxes (0, 1) (0, 1) [] [] [] [] 0 []
    [("left"%string, default_spine); ("right"%string, default_spine);
     ("bottom"%string, default_spine); ("top"%string, default_spine)] [].

(** The text of a number: a whole number in decimal, another one as a
    fraction. *)
Definition whole_text (z : Z) : string :=
  NilZero.string_of_int (Z.to_int z).

Definition number_text (q : Q) : string :=
  let r := Qred q in
  if Pos.eqb (Qden r) 1 then whole_text (Qnum r)
  else String.append (whole_text (Qnum r))
         (String.append "/" (whole_text (Zpos (Qden r)))).

(** Limits as matplotlib stores them: an interval without extent is
    widened by a twentieth of its bounds, or to [-0.05, 0.05] at zero. *)
Definition nonsingular (lim : Q * Q) : Q * Q :=
  let (lo, hi) := lim in
  if Qeq_bool lo hi
  then if Qeq_bool lo 0 then (- (5 # 100), 5 # 100)
       else (lo - (5 # 100) * Qabs lo, hi + (5 # 100) * Qabs hi)
  else lim.

Definition reference_externals (argsort : list Q -> list nat) : Externals :=
  {| np_argsort := argsort;
     Matrix_Matrix := fun df => Ok df;
     get_color_dict := fun _ chars _ =>
       Ok (map (fun c => (c, [5 # 10; 5 # 10; 5 # 10; 1])) chars);
     Glyph_width0 := 1;
     Glyph_alpha0 := 1;
     Glyph_set_attributes := fun kw g =>
       (Ok tt,
        Glyph.mk (Glyph.p g) (Glyph.c g) (Glyph.ax g) (Glyph.floor g)
          (Glyph.ceiling g) (Glyph.color g) (Glyph.flip g) (Glyph.zorder g)
          (Glyph.width g) (Glyph.alpha g) (Glyph.attributes g ++ kw));
     Glyph_draw := fun g a =>
       (Ok tt,
        mkAxes (ax_xlim a) (ax_ylim a) (ax_patches a) (ax_lines a)
          (ax_xticks a) (ax_xticklabels a) (ax_xtick_rotation a)
          (ax_xtick_kwargs a) (ax_spines a) (ax_glyphs a ++ [g]));
     str_format := fun fmt _ => Ok fmt;
     float_str := fun p =>
       if Pos.eqb (Qden (Qred p)) 1
       then String.append (number_text p) ".0"
       else number_text p;
     Axes_cleared := fun _ => blank_axes;
     Axes_xlim_stored := fun _ => nonsingular;
     Axes_ylim_stored := fun _ => nonsingular;
     Axes_xlim_with_ticks := fun a ticks =>
       match py_min ticks, py_max ticks with
       | Ok lo, Ok hi =>
           (if Qltb lo (fst (ax_xlim a)) then lo else fst (ax_xlim a),
            if Qltb (snd (ax_xlim a)) hi then hi else snd (ax_xlim a))
       | _, _ => ax_xlim a
       end;
     Axes_tick_labels := fun _ ticks => map number_text ticks |}.

Definition stable_externals : Externals := reference_externals stable_argsort.

(** Collaborators that refuse what the libraries refuse: a colour with an
    empty name, and the incomplete format ["%"]. *)
Definition strict_externals : Externals :=
  {| np_argsort := stable_argsort;
     Matrix_Matrix := fun df => Ok df;
     get_color_dict := fun scheme chars _ =>
       match scheme with
       | SchemeColor (ColorName EmptyString) =>
           Raise (ValueError "invalid color")
       | _ => Ok (map (fun c => (c, [5 # 10; 5 # 10; 5 # 10; 1])) chars)
       end;
     Glyph_width0 := 1;
     Glyph_alpha0 := 1;
     Glyph_set_attributes := @Glyph_set_attributes stable_externals;
     Glyph_draw := @Glyph_draw stable_externals;
     str_format := fun fmt _ =>
       if String.eqb fmt "%" then Raise (ValueError "incomplete format")
       else Ok fmt;
     float_str := @float_str stable_externals;
     Axes_cleared := fun _ => blank_axes;
     Axes_xlim_stored := @Axes_xlim_stored stable_externals;
     Axes_ylim_stored := @Axes_ylim_stored stable_externals;
     Axes_xlim_with_ticks := @Axes_xlim_with_ticks stable_externals;
     Axes_tick_labels := @Axes_tick_labels stable_externals |}.

(** A world before any Logo exists: blank Axes everywhere, [plt.gca()]
    is Axes 0. *)
Definition blank_logo : Logo :=
  mkLogo (mkDataFrame [] [] []) 0 [] 0 [] (SchemeColor (ColorName "gray"))
    None false false true 0 0 false [] empty_frame.

Definition blank_world : World := mkWorld blank_logo (fun _ => blank_axes) 0.

(** Example matrices. *)
Definition acgt : list string := tuple "ACGT".

Definition df_example : DataFrame :=
  mkDataFrame [0; 1] acgt
    [ [1 # 10; 2 # 10; 3 # 10; 4 # 10]; [0; 0; 0; 0] ].

Definition df_zero_between : DataFrame :=
  mkDataFrame [0] (tuple "ACG") [ [-1; 0; 1] ].

Definition df_mixed : DataFrame :=
  mkDataFrame [0; 1; 2] acgt
    [ [-1; 2; -3; 4]; [1 # 2; -(1 # 4); 3; 1]; [2; 1; -1; -2] ].


(** Construction of a logo from a DataFrame in the blank world, nothing
    drawn. *)
Definition construct (E : Externals) (df : DataFrame) (vsep : Q)
  : result unit * World :=
  @__init__ E (ArgDataFrame df) None false false None true vsep 0 false
    blank_world.


Definition logo_zero_between : Logo :=
  self (snd (construct stable_externals df_zero_between 1)).


(** The same matrix, constructed and drawn on the current Axes. *)
Definition drawn_world : World :=
  snd (@__init__ stable_externals (ArgDataFrame df_mixed) None false false
         None true (1 # 2) 0 true blank_world).

(** Constructions with a negative gap, and with centering. *)
Definition negative_gap_world : World :=
  snd (@__init__ stable_externals (ArgDataFrame df_example) None false false
         None true (-1) 0 true blank_world).

Definition centered_world : World :=
  snd (@__init__ stable_externals (ArgDataFrame df_mixed) None true true
         None true 0 0 true blank_world).

(** The logo of [df_mixed], constructed and not drawn. *)
Definition undrawn_world : World :=
  snd (construct stable_externals df_mixed (1 # 2)).

(** A drawn logo whose positions are 0 and 3/2. *)
Definition df_fractional : DataFrame :=
  mkDataFrame [0; 3 # 2] (tuple "AC") [ [1; 2]; [2; 1] ].

Definition fractional_world : World :=
  snd (@__init__ stable_externals (ArgDataFrame df_fractional) None false
         false None true 0 0 true blank_world).

(** The messages of the assertions. *)
Definition not_drawn_msg : string :=
  "Error: Cannot call this function until Log0 has been drawn.".
Definition floor_ceiling_msg : string :=
  "Error: floor < ceiling not satisfied.".
Definition pmin_pmax_msg : string := "Error: pmin <= pmax not satisfied.".
Definition padding_msg : string := "Error: padding >= -0.5 not satisfied".
Definition length_msg : string :=
  "Error: sequence to highlight does not have same length as logo.".
Definition character_msg (c : string) : string :=
  String.append "Error: sequence contains invalid character " c.

(** *** Vocabulary of the further properties *)

(** A method whose final state, whether it returns or raises, is related
    by [R] to the state it started in. *)
Definition preserves {A} (R : World -> World -> Prop) (m : py A) : Prop :=
  forall w, R w (snd (m w)).

(** A method that keeps a property of the logo; a method that touches no
    Axes; a method that touches no Axes other than [h]. *)
Definition maintains {A} (P : Logo -> Prop) (m : py A) : Prop :=
  preserves (fun w w' => P (self w) -> P (self w')) m.

Definition draws_nothing {A} (m : py A) : Prop :=
  preserves (fun w w' => axes w' = axes w /\ gca w' = gca w) m.

Definition draws_only_on {A} (h : nat) (m : py A) : Prop :=
  preserves (fun w w' => forall k, k <> h -> axes w' k = axes w k) m.

(** A method that leaves the logo object as it is. *)
Definition reads_only {A} (m : py A) : Prop :=
  preserves (fun w w' => self w' = self w) m.

(** A method that only decorates the Axes of the logo: it leaves the logo
    object, pyplot's current Axes and every other Axes as they are. *)
Definition decorates {A} (m : py A) : Prop :=
  forall w,
    self (snd (m w)) = self w
    /\ gca (snd (m w)) = gca w
    /\ forall k, ax (self w) <> Some k -> axes (snd (m w)) k = axes w k.

(** The spines of an Axes after [style_spines]. *)
Definition styled_spines (spines : list string) (visible : bool)
  (linewidth : Q) (color : Color) (bounds : option (Q * Q))
  (old new : string * Spine) : Prop :=
  fst new = fst old
  /\ if mem_str (fst old) spines
     then sp_visible (snd new) = visible
          /\ sp_color (snd new) = color
          /\ sp_linewidth (snd new) = linewidth
          /\ sp_bounds (snd new)
             = match bounds with
               | Some b => Some b
               | None => sp_bounds (snd old)
               end
     else snd new = snd old.

(** What the constructor fixes: the matrix, its labels and sizes, and the
    parameters of the layout. *)
Definition logo_data (l : Logo)
  : DataFrame * nat * list string * nat * list Q * (bool * bool * bool * Q) :=
  (matrix_df l, L l, cs l, C l, ps l,
   (negate l, center l, flip_below l, vsep l)).

(** The sizes and labels of the logo agree with its matrix. *)
Definition consistent (l : Logo) : Prop :=
  L l = List.length (df_index (matrix_df l))
  /\ C l = List.length (df_columns (matrix_df l))
  /\ ps l = df_index (matrix_df l)
  /\ cs l = df_columns (matrix_df l).

(** The labels of the glyph frame. *)
Definition frame_labels (l : Logo) : list Q * list string :=
  (gf_index (glyph_df l), gf_columns (glyph_df l)).

(** The Axes [draw] settles on: its argument, else the logo's Axes, else
    the current Axes of pyplot. *)
Definition settle_ax (ax_arg : option nat) (w : World) : nat :=
  match ax_arg with
  | Some h => h
  | None => match ax (self w) with
            | Some h => h
            | None => gca w
            end
  end.

(** [draw] from [self.ax.clear()] on, [self.ax] being the Axes [h]. *)
Definition draw_on {E : Externals} (h : nat) : py unit :=
  a <- get_axes h ;;
  put_axes h (Axes_cleared a) ;;;
  modify_self (set_has_been_drawn false) ;;;
  l <- get_self ;;
  py_for (glyph_list l) (draw_glyph h) ;;;
  modify_self (set_has_been_drawn true) ;;;
  l <- get_self ;;
  xmin <- lift (py_min
           (map (fun g => Glyph.p g - (5 # 10) * Glyph.width g) (glyph_list l))) ;;
  xmax <- lift (py_max
           (map (fun g => Glyph.p g + (5 # 10) * Glyph.width g) (glyph_list l))) ;;
  set_xlim h (xmin, xmax) ;;;
  ymin <- lift (py_min (map Glyph.floor (glyph_list l))) ;;
  ymax <- lift (py_max (map Glyph.ceiling (glyph_list l))) ;;
  set_ylim h (ymin, ymax).

(** The methods of the class, as calls with their arguments. *)
Inductive method_call : Type :=
| Call_draw (ax : option nat)
| Call_style_glyphs (new_colors : option color_scheme) (draw_now : bool)
    (ax : option nat) (zorder : option Q) (kw : kwargs)
| Call_style_glyphs_below (shade fade : Q) (flip draw_now : bool)
    (ax : option nat) (kw : kwargs)
| Call_style_single_glyph (p : Q) (c : string) (draw_now : bool)
    (ax : option nat) (kw : kwargs)
| Call_style_glyphs_in_sequence (sequence : string) (draw_now : bool)
    (ax : option nat) (kw : kwargs)
| Call_highlight_position (p padding : Q) (color : Color)
    (edgecolor : option Color) (floor ceiling : option Q) (zorder : Q)
    (kw : kwargs)
| Call_highlight_position_range (pmin pmax padding : Q) (color : Color)
    (edgecolor : option Color) (floor ceiling : option Q) (zorder : Q)
    (kw : kwargs)
| Call_draw_baseline (zorder : Q) (color : Color) (linewidth : Q)
    (kw : kwargs)
| Call_style_xticks (anchor spacing : Q) (fmt : string) (rotation : Q)
    (kw : kwargs)
| Call_style_spines (spines : list string) (visible : bool) (linewidth : Q)
    (color : Color) (bounds : option (Q * Q))
| Call_update_ax (ax : option nat)
| Call_compute_characters.

Definition run {E : Externals} (call : method_call) : py unit :=
  match call with
  | Call_draw a => draw a
  | Call_style_glyphs nc dn a z kw => style_glyphs nc dn a z kw
  | Call_style_glyphs_below sh fa fl dn a kw =>
      style_glyphs_below sh fa fl dn a kw
  | Call_style_single_glyph p c dn a kw => style_single_glyph p c dn a kw
  | Call_style_glyphs_in_sequence s dn a kw =>
      style_glyphs_in_sequence s dn a kw
  | Call_highlight_position p pad col ec fl ce z kw =>
      highlight_position p pad col ec fl ce z kw
  | Call_highlight_position_range pmin pmax pad col ec fl ce z kw =>
      highlight_position_range pmin pmax pad col ec fl ce z kw
  | Call_draw_baseline z col lw kw => draw_baseline z col lw kw
  | Call_style_xticks an sp fmt rot kw => style_xticks an sp fmt rot kw
  | Call_style_spines sps vis lw col b => style_spines sps vis lw col b
  | Call_update_ax a => _update_ax a
  | Call_compute_characters => _compute_characters
  end.

(** The states a logo can be in: a completed construction, then any
    sequence of method calls, each returning or raising, while matplotlib's
    figures and current Axes may change between the calls. *)
Inductive reachable {E : Externals} : World -> Prop :=
| reachable_init (matrix : matrix_arg) (ax0 : option nat)
    (negate center : bool) (colors : option color_scheme) (flip_below : bool)
    (vsep zorder : Q) (draw_now : bool) (w0 w : World) :
    __init__ matrix ax0 negate center colors flip_below vsep zorder draw_now w0
    = (Ok tt, w) ->
    reachable w
| reachable_call (call : method_call) (w : World) :
    reachable w -> reachable (snd (run call w))
| reachable_figure (w : World) (axes' : nat -> Axes) (gca' : nat) :
    reachable w -> reachable (mkWorld (self w) axes' gca').

(** Whenever the logo counts as drawn, it has an Axes. *)
Definition drawn_has_axes (l : Logo) : Prop :=
  has_been_drawn l = true -> ax l <> None.


(** What the inner loop gives the glyph of value [v] and character [c]
    at position [p]. *)
Definition glyph_of {E : Externals} (l : Logo) (p : Q) (v : Q) (c : string)
  (g : Glyph.Glyph) : Prop :=
  Glyph.p g = p
  /\ Glyph.c g = c
  /\ Glyph.ceiling g = Glyph.floor g + Qabs v
  /\ Glyph.flip g = (Qltb v 0 && flip_below l)
  /\ (exists rgba,
        dict_get c (rgba_dict l) = Some rgba
        /\ Glyph.color g = firstn 3 rgba)
  /\ Glyph.zorder g = zorder l
  /\ Glyph.ax g = ax l
  /\ Glyph.width g = Glyph_width0
  /\ Glyph.alpha g = Glyph_alpha0.

(** Positions that differ pairwise, as floats. *)
Definition distinct_positions (positions : list Q) : Prop :=
  ForallOrdPairs (fun q q' => Qeq_bool q' q = false) positions.

(** Matrices equal entry by entry, as floats. *)
Definition same_values (m1 m2 : list (list Q)) : Prop :=
  Forall2 (Forall2 Qeq) m1 m2.

(* ================================================================= *)
(** ** Arithmetic and list facts *)


Lemma Qltb_lt (x y : Q) : Qltb x y = true <-> x < y.
Proof.
  unfold Qltb. rewrite negb_true_iff. split; intro H.
  - apply Qnot_le_lt. intro Hle. apply Qle_bool_iff in Hle. congruence.
  - destruct (Qle_bool y x) eqn:Hle; [| reflexivity].
    apply Qle_bool_iff in Hle. exfalso. exact (Qlt_not_le _ _ H Hle).
Qed.

Lemma Qltb_ge (x y : Q) : Qltb x y = false <-> y <= x.
Proof.
  unfold Qltb. rewrite negb_false_iff. apply Qle_bool_iff.
Qed.

Lemma fold_left_Qplus_acc (l : list Q) (a : Q) :
  fold_left Qplus l a == a + fold_left Qplus l 0.
Proof.
  revert a. induction l as [| x l IH]; intros a; simpl.
  - ring.
  - rewrite (IH (a + x)), (IH (0 + x)). ring.
Qed.

Lemma py_sum_nil : py_sum [] == 0.
Proof. reflexivity. Qed.

Lemma py_sum_cons (x : Q) (l : list Q) : py_sum (x :: l) == x + py_sum l.
Proof.
  unfold py_sum. simpl. rewrite fold_left_Qplus_acc. ring.
Qed.

Lemma py_sum_app (l1 l2 : list Q) : py_sum (l1 ++ l2) == py_sum l1 + py_sum l2.
Proof.
  induction l1 as [| x l1 IH]; simpl.
  - rewrite py_sum_nil. ring.
  - rewrite !py_sum_cons, IH. ring.
Qed.





(** *** The promise of argsort, as propositions *)


Lemma distinct_NoDup (l : list nat) : distinct l = true -> NoDup l.
Proof.
  induction l as [| i l IH]; simpl; intros H.
  - constructor.
  - apply andb_true_iff in H. destruct H as [Hi Hl].
    constructor; [| now apply IH].
    intros Hin. rewrite negb_true_iff in Hi.
    assert (existsb (Nat.eqb i) l = true) as Hex.
    { apply existsb_exists. exists i. split; [exact Hin |].
      apply Nat.eqb_refl. }
    congruence.
Qed.

Lemma is_argsort_length (vs : list Q) (idx : list nat) :
  is_argsort vs idx = true -> List.length idx = List.length vs.
Proof.
  unfold is_argsort. rewrite !andb_true_iff. intros [[[H _] _] _].
  now apply Nat.eqb_eq.
Qed.

Lemma is_argsort_bound (vs : list Q) (idx : list nat) :
  is_argsort vs idx = true ->
  Forall (fun i => (i < List.length vs)%nat) idx.
Proof.
  unfold is_argsort. rewrite !andb_true_iff. intros [[[_ H] _] _].
  rewrite forallb_forall in H. apply Forall_forall.
  intros i Hi. apply Nat.ltb_lt. now apply H.
Qed.

Lemma is_argsort_perm (vs : list Q) (idx : list nat) :
  is_argsort vs idx = true -> Permutation idx (seq 0 (List.length vs)).
Proof.
  intros H. pose proof (is_argsort_length _ _ H) as Hlen.
  pose proof (is_argsort_bound _ _ H) as Hb.
  unfold is_argsort in H. rewrite !andb_true_iff in H.
  destruct H as [[[_ _] Hd] _].
  apply NoDup_Permutation_bis.
  - now apply distinct_NoDup.
  - rewrite length_seq. lia.
  - intros i Hi. rewrite Forall_forall in Hb. apply in_seq.
    specialize (Hb i Hi). lia.
Qed.



Lemma take_map {A} (a : list A) (d : A) (idx : list nat) :
  Forall (fun i => (i < List.length a)%nat) idx ->
  take a idx = Ok (map (fun i => nth i a d) idx).
Proof.
  induction 1 as [| i idx Hi _ IH]; simpl.
  - reflexivity.
  - rewrite IH. destruct (nth_error a i) eqn:Hn.
    + now rewrite (nth_error_nth _ _ d Hn).
    + apply nth_error_None in Hn. lia.
Qed.



(** *** The stacking loop *)










(* ================================================================= *)
(** ** The frame of glyphs *)

Lemma key_eqb_refl (k : Q * string) : key_eqb k k = true.
Proof.
  unfold key_eqb. now rewrite Qeq_bool_refl, String.eqb_refl.
Qed.

Lemma key_eqb_sym (k1 k2 : Q * string) : key_eqb k1 k2 = key_eqb k2 k1.
Proof.
  unfold key_eqb. now rewrite Qeq_bool_comm, String.eqb_sym.
Qed.

Lemma key_eqb_trans (k1 k2 k3 : Q * string) :
  key_eqb k1 k2 = true -> key_eqb k2 k3 = true -> key_eqb k1 k3 = true.
Proof.
  unfold key_eqb. rewrite !andb_true_iff.
  intros [Hq1 Hs1] [Hq2 Hs2]. split.
  - exact (Qeq_bool_trans _ _ _ Hq1 Hq2).
  - apply String.eqb_eq in Hs1, Hs2. apply String.eqb_eq. congruence.
Qed.

Lemma cells_get_set_same (k : Q * string) (g : Glyph.Glyph)
  (cells : list ((Q * string) * Glyph.Glyph)) :
  cells_get k (cells_set k g cells) = Some g.
Proof.
  induction cells as [| [k' g'] cells IH]; simpl.
  - now rewrite key_eqb_refl.
  - destruct (key_eqb k' k) eqn:Hk; simpl; rewrite Hk; [reflexivity |].
    exact IH.
Qed.

Lemma cells_get_set_other (k1 k2 : Q * string) (g : Glyph.Glyph)
  (cells : list ((Q * string) * Glyph.Glyph)) :
  key_eqb k1 k2 = false ->
  cells_get k2 (cells_set k1 g cells) = cells_get k2 cells.
Proof.
  intros Hdiff. induction cells as [| [k' g'] cells IH]; simpl.
  - now rewrite Hdiff.
  - destruct (key_eqb k' k1) eqn:Hk1; simpl.
    + destruct (key_eqb k' k2) eqn:Hk2; [| reflexivity].
      rewrite key_eqb_sym in Hk1.
      rewrite (key_eqb_trans _ _ _ Hk1 Hk2) in Hdiff. discriminate.
    + destruct (key_eqb k' k2); [reflexivity | exact IH].
Qed.

(** Storing a stack leaves the cells of other positions alone. *)
Lemma store_row_other (gs : list Glyph.Glyph) (p : Q) (c : string) :
  forall gdf,
    Forall (fun g => Qeq_bool (Glyph.p g) p = false) gs ->
    frame_get p c (store_row gs gdf) = frame_get p c gdf.
Proof.
  induction gs as [| g gs IH]; intros gdf Hall; simpl.
  - reflexivity.
  - inversion Hall as [| ? ? Hg Hgs]; subst.
    unfold store_row in IH. rewrite IH by exact Hgs.
    unfold frame_get, frame_set. simpl.
    apply cells_get_set_other. unfold key_eqb. simpl. now rewrite Hg.
Qed.

(** Storing a stack leaves the cells of other characters alone. *)
Lemma store_row_fresh (gs : list Glyph.Glyph) (p : Q) (c : string) :
  forall gdf,
    ~ In c (map Glyph.c gs) ->
    frame_get p c (store_row gs gdf) = frame_get p c gdf.
Proof.
  induction gs as [| g gs IH]; intros gdf Hfresh; simpl.
  - reflexivity.
  - unfold store_row in IH. rewrite IH.
    + unfold frame_get, frame_set. simpl.
      apply cells_get_set_other. unfold key_eqb. simpl.
      apply andb_false_iff. right. apply String.eqb_neq.
      intro Heq. apply Hfresh. simpl. now left.
    + intro Hc. apply Hfresh. simpl. now right.
Qed.

(** After storing a stack whose characters are pairwise different, each
    of its glyphs is found under its position and character. *)
Lemma store_row_same (gs : list Glyph.Glyph) (p : Q) :
  forall gdf,
    Forall (fun g => Glyph.p g = p) gs ->
    NoDup (map Glyph.c gs) ->
    forall g, In g gs -> frame_get p (Glyph.c g) (store_row gs gdf) = Some g.
Proof.
  induction gs as [| g0 gs IH]; intros gdf Hp Hnd g Hin; [destruct Hin |].
  apply Forall_cons_iff in Hp. destruct Hp as [Hp0 Hps].
  simpl in Hnd. apply NoDup_cons_iff in Hnd. destruct Hnd as [Hfresh Hnd].
  change (store_row (g0 :: gs) gdf)
    with (store_row gs (frame_set (Glyph.p g0) (Glyph.c g0) g0 gdf)).
  destruct Hin as [<- | Hin].
  - rewrite (store_row_fresh gs p (Glyph.c g0) _ Hfresh).
    rewrite Hp0. unfold frame_get, frame_set. simpl.
    apply cells_get_set_same.
  - now apply IH.
Qed.

Section Layout.

Context {E : Externals}.

Lemma stack_glyphs_Stacked (l : Logo) (p : Q) (vcs : list (Q * string)) :
  forall (f : Q) (gs : list Glyph.Glyph),
  stack_glyphs l p f vcs = Ok gs ->
  Stacked (vsep l) f (map fst vcs) gs.
Proof.
  induction vcs as [| [v c] vcs IH]; intros f gs H; simpl in H.
  - injection H as <-. constructor.
  - destruct (dict_get c (rgba_dict l)) as [rgba |]; [| discriminate].
    destruct (stack_glyphs l p (f + Qabs v + vsep l) vcs) as [gs' |] eqn:Hgs;
      [| discriminate].
    injection H as <-. simpl. constructor; try reflexivity.
    now apply IH.
Qed.

Lemma stack_glyphs_labels (l : Logo) (p : Q) (vcs : list (Q * string)) :
  forall (f : Q) (gs : list Glyph.Glyph),
  stack_glyphs l p f vcs = Ok gs ->
  map Glyph.c gs = map snd vcs
  /\ Forall (fun g => Glyph.p g = p) gs
  /\ map Glyph.flip gs
     = map (fun vc => Qltb (fst vc) 0 && flip_below l) vcs.
Proof.
  induction vcs as [| [v c] vcs IH]; intros f gs H; simpl in H.
  - injection H as <-. repeat split. constructor.
  - destruct (dict_get c (rgba_dict l)) as [rgba |]; [| discriminate].
    destruct (stack_glyphs l p (f + Qabs v + vsep l) vcs) as [gs' |] eqn:Hgs;
      [| discriminate].
    injection H as <-. destruct (IH _ _ Hgs) as (Hc & Hp & Hf).
    simpl. repeat split.
    + now rewrite Hc.
    + now constructor.
    + now rewrite Hf.
Qed.

Lemma stack_glyphs_total (l : Logo) (p : Q) (vcs : list (Q * string)) :
  (forall c, In c (map snd vcs) -> dict_get c (rgba_dict l) <> None) ->
  forall f, exists gs, stack_glyphs l p f vcs = Ok gs.
Proof.
  induction vcs as [| [v c] vcs IH]; intros Hcol f; simpl.
  - now exists [].
  - destruct (dict_get c (rgba_dict l)) as [rgba |] eqn:Hd.
    + destruct (IH (fun c' Hc' => Hcol c' (or_intror Hc'))
                  (f + Qabs v + vsep l)) as [gs ->].
      eauto.
    + exfalso. apply (Hcol c); [now left | exact Hd].
Qed.

(** The inner loop stores exactly the glyphs of [stack_glyphs], in their
    order, and fails exactly when [stack_glyphs] does. *)
Lemma place_row_stack (l : Logo) (p : Q) (vcs : list (Q * string)) :
  forall (f : Q) (gdf : GlyphFrame),
  place_row l p f vcs gdf
  = match stack_glyphs l p f vcs with
    | Ok gs => Ok (store_row gs gdf)
    | Raise e => Raise e
    end.
Proof.
  induction vcs as [| [v c] vcs IH]; intros f gdf; simpl.
  - reflexivity.
  - destruct (dict_get c (rgba_dict l)) as [rgba |]; [| reflexivity].
    rewrite IH.
    destruct (stack_glyphs l p (f + Qabs v + vsep l) vcs); reflexivity.
Qed.

Lemma compute_rows_step (l : Logo) (p : Q) (positions : list Q)
  (gdf : GlyphFrame) :
  compute_rows l (p :: positions) gdf
  = match row_glyphs l p with
    | Raise e => Raise e
    | Ok gs => compute_rows l positions (store_row gs gdf)
    end.
Proof.
  simpl. unfold row_glyphs.
  destruct (sorted_row l p) as [[vs cs'] | e]; [| reflexivity].
  rewrite place_row_stack.
  destruct (stack_glyphs l p _ _); reflexivity.
Qed.

Lemma row_ready_sorted_row (l : Logo) (p : Q) (vs : list Q) :
  row_ready l p vs ->
  sorted_row l p = Ok (stacking_order vs, stacking_chars (cs l) vs).
Proof.
  intros (Hrow & Hlen & _ & _ & Hsort).
  unfold sorted_row. rewrite Hrow.
  pose proof (is_argsort_bound _ _ Hsort) as Hb.
  rewrite (take_map vs 0 _ Hb).
  rewrite (take_map (cs l) EmptyString).
  - reflexivity.
  - now rewrite Hlen.
Qed.

Lemma stacking_order_length (vs : list Q) :
  is_argsort vs (np_argsort vs) = true ->
  List.length (stacking_order vs) = List.length vs.
Proof.
  intros H. unfold stacking_order. rewrite length_map.
  now apply is_argsort_length.
Qed.

(** On a ready row the inner loop runs to its end, and its glyphs are
    stacked from the initial floor in the order argsort gives. *)
Lemma row_glyphs_ready (l : Logo) (p : Q) (vs : list Q) :
  row_ready l p vs ->
  exists gs,
    row_glyphs l p = Ok gs
    /\ Stacked (vsep l) (initial_floor (vsep l) (stacking_order vs))
         (stacking_order vs) gs
    /\ map Glyph.c gs = stacking_chars (cs l) vs
    /\ Forall (fun g => Glyph.p g = p) gs.
Proof.
  intros Hready. pose proof Hready as (Hrow & Hlen & HC & Hcol & Hsort).
  unfold row_glyphs. rewrite (row_ready_sorted_row _ _ _ Hready).
  assert (List.length (stacking_order vs)
          = List.length (stacking_chars (cs l) vs)) as Hsame.
  { unfold stacking_order, stacking_chars. now rewrite !length_map. }
  assert (firstn (C l) (combine (stacking_order vs) (stacking_chars (cs l) vs))
          = combine (stacking_order vs) (stacking_chars (cs l) vs)) as ->.
  { apply firstn_all2. rewrite length_combine, <- Hsame, Nat.min_id.
    rewrite (stacking_order_length _ Hsort). lia. }
  assert (map fst (combine (stacking_order vs) (stacking_chars (cs l) vs))
          = stacking_order vs) as Hfst.
  { clear -Hsame. revert Hsame.
    generalize (stacking_order vs), (stacking_chars (cs l) vs).
    induction l0 as [| a l0 IH]; intros [| b l1] Hs; simpl in *;
      try discriminate; [reflexivity |].
    f_equal. apply IH. now injection Hs. }
  assert (map snd (combine (stacking_order vs) (stacking_chars (cs l) vs))
          = stacking_chars (cs l) vs) as Hsnd.
  { clear -Hsame. revert Hsame.
    generalize (stacking_order vs), (stacking_chars (cs l) vs).
    induction l0 as [| a l0 IH]; intros [| b l1] Hs; simpl in *;
      try discriminate; [reflexivity |].
    f_equal. apply IH. now injection Hs. }
  destruct (stack_glyphs_total l p
              (combine (stacking_order vs) (stacking_chars (cs l) vs)))
    with (f := initial_floor (vsep l) (stacking_order vs)) as [gs Hgs].
  { rewrite Hsnd. intros c Hc. unfold stacking_chars in Hc.
    apply in_map_iff in Hc. destruct Hc as (i & <- & Hi).
    pose proof (is_argsort_bound _ _ Hsort) as Hb.
    rewrite Forall_forall in Hb. specialize (Hb i Hi).
    rewrite forallb_forall in Hcol.
    assert (In (nth i (cs l) EmptyString) (cs l)) as Hin.
    { apply nth_In. lia. }
    specialize (Hcol _ Hin).
    destruct (dict_get (nth i (cs l) EmptyString) (rgba_dict l));
      [discriminate | discriminate Hcol]. }
  exists gs. split; [exact Hgs |].
  pose proof (stack_glyphs_Stacked _ _ _ _ _ Hgs) as HS.
  destruct (stack_glyphs_labels _ _ _ _ _ Hgs) as (Hc & Hp & _).
  rewrite Hfst in HS. rewrite Hsnd in Hc. auto.
Qed.

Lemma row_glyphs_position (l : Logo) (p : Q) (gs : list Glyph.Glyph) :
  row_glyphs l p = Ok gs -> Forall (fun g => Glyph.p g = p) gs.
Proof.
  unfold row_glyphs. destruct (sorted_row l p) as [[vs cs'] | e];
    [| discriminate].
  intros H. now destruct (stack_glyphs_labels _ _ _ _ _ H) as (_ & Hp & _).
Qed.

(** When every row is ready, the two loops run to their end. *)
Lemma compute_rows_total (l : Logo) (positions : list Q) :
  (forall p, In p positions -> exists vs, row_ready l p vs) ->
  forall gdf0, exists gdf, compute_rows l positions gdf0 = Ok gdf.
Proof.
  induction positions as [| p positions IH]; intros Hready gdf0.
  - now exists gdf0.
  - rewrite compute_rows_step.
    destruct (Hready p (or_introl eq_refl)) as (vs & Hvs).
    destruct (row_glyphs_ready l p vs Hvs) as (gs & -> & _).
    apply IH. intros q Hq. apply Hready. now right.
Qed.

(** Rows of other positions leave the cells of position [p] alone. *)
Lemma compute_rows_other (l : Logo) (p : Q) (c : string)
  (positions : list Q) :
  forall gdf0 gdf,
    compute_rows l positions gdf0 = Ok gdf ->
    Forall (fun q => Qeq_bool q p = false) positions ->
    frame_get p c gdf = frame_get p c gdf0.
Proof.
  induction positions as [| q positions IH]; intros gdf0 gdf H Hall.
  - simpl in H. now injection H as <-.
  - rewrite compute_rows_step in H.
    destruct (row_glyphs l q) as [gs | e] eqn:Hrow; [| discriminate].
    apply Forall_cons_iff in Hall. destruct Hall as [Hq Hall].
    rewrite (IH _ _ H Hall). apply store_row_other.
    eapply Forall_impl; [| exact (row_glyphs_position _ _ _ Hrow)].
    intros g Hg. simpl in Hg. now rewrite Hg.
Qed.

(** When positions differ pairwise and the characters of a stack differ
    pairwise, the frame that [_compute_characters] builds holds each glyph
    of the stack under its position and character. *)
Lemma compute_rows_stored (l : Logo) (positions : list Q) :
  forall gdf0 gdf,
    compute_rows l positions gdf0 = Ok gdf ->
    ForallOrdPairs (fun q q' => Qeq_bool q' q = false) positions ->
    forall p gs,
      In p positions -> row_glyphs l p = Ok gs ->
      NoDup (map Glyph.c gs) ->
      forall g, In g gs -> frame_get p (Glyph.c g) gdf = Some g.
Proof.
  induction positions as [| q positions IH];
    intros gdf0 gdf H Hpairs p gs Hin Hrow Hnd g Hg; [destruct Hin |].
  rewrite compute_rows_step in H.
  destruct (row_glyphs l q) as [gsq | e] eqn:Hq; [| discriminate].
  inversion Hpairs as [| ? ? Hhead Htail]; subst.
  destruct Hin as [-> | Hin].
  - rewrite Hq in Hrow. injection Hrow as ->.
    rewrite (compute_rows_other _ _ _ _ _ _ H Hhead).
    apply store_row_same; [exact (row_glyphs_position _ _ _ Hq) | | ];
      assumption.
  - eapply IH; eassumption.
Qed.

End Layout.

(** *** Around the axis *)



Lemma sum_shifted (g : Q) (l : list Q) :
  py_sum (map (fun v => v - g) l)
  == py_sum l - g * inject_Z (Z.of_nat (List.length l)).
Proof.
  induction l as [| x l IH].
  - simpl. rewrite py_sum_nil. ring.
  - simpl map. rewrite !py_sum_cons, IH.
    change (List.length (x :: l)) with (S (List.length l)).
    rewrite Nat2Z.inj_succ. unfold Z.succ. rewrite inject_Z_plus.
    change (inject_Z 1) with 1. ring.
Qed.






(* ================================================================= *)
(** ** The layout engine *)

Section LayoutProperties.

Context {E : Externals}.






End LayoutProperties.



Section StackProperties.

Context {E : Externals}.


End StackProperties.


(* ================================================================= *)
(** ** Order of the glyphs of one position *)




Lemma is_argsort_NoDup (vs : list Q) (idx : list nat) :
  is_argsort vs idx = true -> NoDup idx.
Proof.
  unfold is_argsort. rewrite !andb_true_iff. intros [[_ H] _].
  now apply distinct_NoDup.
Qed.


(** ** The reference argsorts keep numpy's promise *)

Section Insertion.

Variable vs : list Q.









End Insertion.



Section OrderProperties.

Context {E : Externals}.


End OrderProperties.



(* ================================================================= *)
(** ** The controller: operations that need a drawn logo *)

Section DrawnGate.

Context {E : Externals}.

(** C7.  While [has_been_drawn] is false, each of [highlight_position],
    [highlight_position_range], [draw_baseline], [style_xticks] and
    [style_spines] raises the assertion error of the drawn-gate, and leaves
    the logo and every Axes as they were. *)
Theorem C7_not_drawn_precondition (w : World) :
  has_been_drawn (self w) = false ->
  (forall p padding color edgecolor floor ceiling zorder kw,
     highlight_position p padding color edgecolor floor ceiling zorder kw w
     = (Raise (AssertionError not_drawn_msg), w))
  /\ (forall pmin pmax padding color edgecolor floor ceiling zorder kw,
        highlight_position_range pmin pmax padding color edgecolor floor
          ceiling zorder kw w
        = (Raise (AssertionError not_drawn_msg), w))
  /\ (forall zorder color linewidth kw,
        draw_baseline zorder color linewidth kw w
        = (Raise (AssertionError not_drawn_msg), w))
  /\ (forall anchor spacing fmt rotation kw,
        style_xticks anchor spacing fmt rotation kw w
        = (Raise (AssertionError not_drawn_msg), w))
  /\ (forall spines visible linewidth color bounds,
        style_spines spines visible linewidth color bounds w
        = (Raise (AssertionError not_drawn_msg), w)).
Proof.
  intros Hnot. repeat split; intros;
    unfold highlight_position, highlight_position_range, draw_baseline,
      style_xticks, style_spines, bind, get_self, py_assert;
    rewrite Hnot; reflexivity.
Qed.

(** C6.  On a drawn logo, [highlight_position_range] with
    [pmin <= pmax], [padding >= -1/2] and [floor < ceiling] (each
    defaulting to the Axes' y-limit) succeeds and appends exactly one
    rectangle to the patches of the logo's Axes, spanning
    [pmin - 1/2 - padding .. pmax + 1/2 + padding] by [floor .. ceiling];
    nothing else changes.  With [pmin > pmax] or [padding < -1/2] it raises
    the assertion error of the first ordering that fails ([floor < ceiling],
    then [pmin <= pmax], then [padding >= -1/2]) and changes nothing. *)
Theorem C6_highlight_rectangle (w : World) (h : nat) (pmin pmax padding : Q)
  (color : Color) (edgecolor : option Color) (floor ceiling : option Q)
  (zorder : Q) (kw : kwargs) :
  has_been_drawn (self w) = true ->
  ax (self w) = Some h ->
  let lo := match floor with Some f => f | None => fst (ax_ylim (axes w h)) end in
  let hi := match ceiling with Some c => c | None => snd (ax_ylim (axes w h)) end in
  (pmin <= pmax -> - (1 # 2) <= padding -> lo < hi ->
   exists r w',
     highlight_position_range pmin pmax padding color edgecolor floor ceiling
       zorder kw w = (Ok tt, w')
     /\ self w' = self w /\ gca w' = gca w
     /\ (forall k, k <> h -> axes w' k = axes w k)
     /\ ax_patches (axes w' h) = ax_patches (axes w h) ++ [r]
     /\ ax_xlim (axes w' h) = ax_xlim (axes w h)
     /\ ax_ylim (axes w' h) = ax_ylim (axes w h)
     /\ ax_lines (axes w' h) = ax_lines (axes w h)
     /\ ax_glyphs (axes w' h) = ax_glyphs (axes w h)
     /\ rect_x r == pmin - (1 # 2) - padding
     /\ rect_x r + rect_width r == pmax + (1 # 2) + padding
     /\ rect_y r = lo
     /\ rect_y r + rect_height r == hi
     /\ rect_zorder r = zorder)
  /\ (pmax < pmin \/ padding < - (1 # 2) ->
      exists msg,
        highlight_position_range pmin pmax padding color edgecolor floor
          ceiling zorder kw w = (Raise (AssertionError msg), w)
        /\ (lo < hi -> pmax < pmin -> msg = pmin_pmax_msg)
        /\ (lo < hi -> pmin <= pmax -> msg = padding_msg)
        /\ (hi <= lo -> msg = floor_ceiling_msg)).
Proof.
  intros Hdrawn Hax. cbv zeta.
  cbv beta iota delta [highlight_position_range bind get_self py_assert
    self_ax get_axes add_patch put_axes ret raise].
  rewrite Hdrawn, Hax. cbv beta iota.
  destruct (ax_ylim (axes w h)) as [ymin ymax] eqn:Hylim.
  cbv beta iota zeta delta [fst snd].
  set (lo := match floor with Some f => f | None => ymin end).
  set (hi := match ceiling with Some c => c | None => ymax end).
  split.
  - intros Hp Hpad Hlh.
    rewrite (proj2 (Qltb_lt lo hi) Hlh). simpl.
    rewrite (proj2 (Qle_bool_iff pmin pmax) Hp). simpl.
    assert (Qle_bool (- (5 # 10)) padding = true) as ->.
    { apply Qle_bool_iff. lra. }
    simpl.
    exists (mkRectangle (pmin - (5 # 10) - padding) lo
              (pmax - pmin + 1 + 2 * padding) (hi - lo) color edgecolor
              zorder kw).
    eexists. split; [reflexivity |]. simpl.
    repeat split; unfold upd; simpl;
      try (intros k Hk; apply Nat.eqb_neq in Hk; now rewrite Hk);
      rewrite ?Nat.eqb_refl;
      cbv beta iota delta [rect_x rect_y rect_width rect_height rect_zorder
                            ax_patches ax_xlim ax_ylim ax_lines ax_glyphs];
      first [reflexivity | exact Hylim | ring].
  - intros Hbad.
    destruct (Qltb lo hi) eqn:Hlh; simpl.
    + destruct (Qle_bool pmin pmax) eqn:Hp; simpl.
      * assert (Qle_bool (- (5 # 10)) padding = false) as ->.
        { apply Qle_bool_iff in Hp.
          destruct Hbad as [Hbad | Hbad].
          - exfalso. exact (Qlt_not_le _ _ Hbad Hp).
          - destruct (Qle_bool (- (5 # 10)) padding) eqn:Hq; [| reflexivity].
            apply Qle_bool_iff in Hq. lra. }
        apply Qltb_lt in Hlh.
        simpl. eexists. split; [reflexivity |]. split; [| split].
        -- intros _ Hlt. apply Qle_bool_iff in Hp.
           exfalso. exact (Qlt_not_le _ _ Hlt Hp).
        -- reflexivity.
        -- intros Hle. exfalso. exact (Qlt_not_le _ _ Hlh Hle).
      * apply Qltb_lt in Hlh.
        eexists. split; [reflexivity |]. split; [| split].
        -- reflexivity.
        -- intros _ Hle. apply Qle_bool_iff in Hle. congruence.
        -- intros Hle. exfalso. exact (Qlt_not_le _ _ Hlh Hle).
    + eexists. split; [reflexivity |].
      apply Qltb_ge in Hlh.
      split; [| split];
        try (intros Hlt; exfalso; exact (Qlt_not_le _ _ Hlt Hlh)).
      reflexivity.
Qed.

End DrawnGate.

Lemma C7_not_drawn_precondition_witness :
  has_been_drawn (self blank_world) = false
  /\ @style_xticks stable_externals 0 1 "%d" 0 [] blank_world
     = (Raise (AssertionError not_drawn_msg), blank_world)
  /\ draw_baseline (-1) (ColorName "black") (5 # 10) [] blank_world
     = (Raise (AssertionError not_drawn_msg), blank_world).
Proof.
  split; [reflexivity |].
  destruct (@C7_not_drawn_precondition stable_externals blank_world eq_refl)
    as (_ & _ & Hbase & Hticks & _).
  split; [apply Hticks | apply Hbase].
Defined.

Lemma C6_highlight_rectangle_witness :
  has_been_drawn (self drawn_world) = true
  /\ ax (self drawn_world) = Some 0%nat
  /\ exists r w',
       highlight_position_range 2 2 0 (ColorName "yellow") None None None
         (-2) [] drawn_world = (Ok tt, w')
       /\ ax_patches (axes w' 0%nat)
          = ax_patches (axes drawn_world 0%nat) ++ [r]
       /\ rect_x r == 3 # 2
       /\ rect_x r + rect_width r == 5 # 2.
Proof.
  assert (has_been_drawn (self drawn_world) = true) as Hdrawn
    by (vm_compute; reflexivity).
  assert (ax (self drawn_world) = Some 0%nat) as Hax
    by (vm_compute; reflexivity).
  split; [exact Hdrawn |]. split; [exact Hax |].
  destruct (C6_highlight_rectangle drawn_world 0%nat 2 2 0
              (ColorName "yellow") None None None (-2) [] Hdrawn Hax)
    as [Hok _].
  destruct Hok as (r & w' & Hrun & _ & _ & _ & Hp & _ & _ & _ & _ & Hx & Hw
                   & _).
  - unfold Qle. simpl. lia.
  - unfold Qle. simpl. lia.
  - vm_compute. reflexivity.
  - exists r, w'. repeat split; assumption.
Defined.

(* ================================================================= *)
(** ** The controller: what methods leave alone *)

Lemma bind_Ok_inv {A B} (m : py A) (k : A -> py B) (w w' : World) (b : B) :
  bind m k w = (Ok b, w') ->
  exists a w1, m w = (Ok a, w1) /\ k a w1 = (Ok b, w').
Proof.
  unfold bind. destruct (m w) as [[a | e] w1]; intros H.
  - now exists a, w1.
  - discriminate.
Qed.

Lemma keeps_ret {A B} (f : Logo -> B) (a : A) : keeps f (ret a).
Proof. intros w. reflexivity. Qed.

Lemma keeps_raise {A B} (f : Logo -> B) (e : exn) : keeps f (@raise A e).
Proof. intros w. reflexivity. Qed.

Lemma keeps_lift {A B} (f : Logo -> B) (r : result A) : keeps f (lift r).
Proof. intros w. reflexivity. Qed.

Lemma keeps_bind {A A' B} (f : Logo -> B) (m : py A) (k : A -> py A') :
  keeps f m -> (forall a, keeps f (k a)) -> keeps f (bind m k).
Proof.
  intros Hm Hk w. unfold bind. specialize (Hm w).
  destruct (m w) as [[a | e] w1]; simpl in *.
  - now rewrite (Hk a w1).
  - exact Hm.
Qed.

Lemma keeps_assert {B} (f : Logo -> B) (b : bool) (msg : string) :
  keeps f (py_assert b msg).
Proof. destruct b; intros w; reflexivity. Qed.

Lemma keeps_get_self {B} (f : Logo -> B) : keeps f get_self.
Proof. intros w. reflexivity. Qed.

Lemma keeps_plt_gca {B} (f : Logo -> B) : keeps f plt_gca.
Proof. intros w. reflexivity. Qed.

Lemma keeps_get_axes {B} (f : Logo -> B) (h : nat) : keeps f (get_axes h).
Proof. intros w. reflexivity. Qed.

Lemma keeps_put_axes {B} (f : Logo -> B) (h : nat) (a : Axes) :
  keeps f (put_axes h a).
Proof. intros w. reflexivity. Qed.

Lemma keeps_modify {B} (f : Logo -> B) (g : Logo -> Logo) :
  (forall l, f (g l) = f l) -> keeps f (modify_self g).
Proof. intros H w. simpl. apply H. Qed.

Lemma keeps_for {A B} (f : Logo -> B) (xs : list A) (body : A -> py unit) :
  (forall x, keeps f (body x)) -> keeps f (py_for xs body).
Proof.
  intros H. induction xs as [| x xs IH]; simpl.
  - apply keeps_ret.
  - apply keeps_bind; [apply H | intros _; exact IH].
Qed.

Lemma keeps_self_ax {B} (f : Logo -> B) : keeps f self_ax.
Proof.
  unfold self_ax. apply keeps_bind; [apply keeps_get_self |].
  intros l. destruct (ax l); [apply keeps_ret | apply keeps_raise].
Qed.

Section Keeps.

Context {E : Externals}.

Lemma keeps_update_ax {B} (f : Logo -> B) (a : option nat) :
  draw_stable f -> keeps f (_update_ax a).
Proof.
  intros (Hax & _). destruct a; simpl.
  - apply keeps_modify. intros l. apply Hax.
  - apply keeps_ret.
Qed.

Lemma keeps_draw_glyph {B} (f : Logo -> B) (h : nat) (g : Glyph.Glyph) :
  keeps f (draw_glyph h g).
Proof.
  unfold draw_glyph. apply keeps_bind; [apply keeps_get_axes |].
  intros a. destruct (Glyph_draw g a) as [r a'].
  apply keeps_bind; [apply keeps_put_axes | intros _; apply keeps_lift].
Qed.

Lemma keeps_set_lim {B} (f : Logo -> B) (h : nat) (lim : Q * Q) :
  keeps f (set_xlim h lim) /\ keeps f (set_ylim h lim).
Proof.
  split; intros w; reflexivity.
Qed.

Lemma keeps_draw {B} (f : Logo -> B) (a : option nat) :
  draw_stable f -> keeps f (draw a).
Proof.
  intros Hst. pose proof Hst as (Hax & Hdrawn).
  unfold draw.
  apply keeps_bind; [now apply keeps_update_ax | intros _].
  apply keeps_bind; [apply keeps_get_self | intros l].
  apply keeps_bind.
  { destruct (ax l).
    - apply keeps_ret.
    - apply keeps_bind; [apply keeps_plt_gca | intros h].
      apply keeps_modify. intros l'. apply Hax. }
  intros _.
  apply keeps_bind; [apply keeps_self_ax | intros h].
  apply keeps_bind; [apply keeps_get_axes | intros ax0].
  apply keeps_bind; [apply keeps_put_axes | intros _].
  apply keeps_bind; [apply keeps_modify; intros l'; apply Hdrawn | intros _].
  apply keeps_bind; [apply keeps_get_self | intros l1].
  apply keeps_bind; [apply keeps_for; intros g; apply keeps_draw_glyph
                    | intros _].
  apply keeps_bind; [apply keeps_modify; intros l'; apply Hdrawn | intros _].
  apply keeps_bind; [apply keeps_get_self | intros l2].
  apply keeps_bind; [apply keeps_lift | intros xmin].
  apply keeps_bind; [apply keeps_lift | intros xmax].
  apply keeps_bind; [apply keeps_set_lim | intros _].
  apply keeps_bind; [apply keeps_lift | intros ymin].
  apply keeps_bind; [apply keeps_lift | intros ymax].
  apply keeps_set_lim.
Qed.

Lemma keeps_compute_characters {B} (f : Logo -> B) :
  stable f -> keeps f _compute_characters.
Proof.
  intros (_ & Hgdf). unfold _compute_characters.
  apply keeps_bind; [apply keeps_get_self | intros l].
  apply keeps_bind; [apply keeps_lift | intros gdf].
  apply keeps_modify. intros l'. apply Hgdf.
Qed.

End Keeps.

(* ================================================================= *)
(** ** The constructor *)

Section Constructor.

Context {E : Externals}.

(** What a completed construction has stored: every attribute other than
    [ax], [has_been_drawn] and [glyph_df] is the one assigned at the start
    of [__init__]. *)
Lemma init_Ok_attributes (matrix : matrix_arg) (ax0 : option nat)
  (neg cen : bool) (col : option color_scheme) (flip : bool) (v z : Q)
  (dn : bool) (w w' : World) :
  __init__ matrix ax0 neg cen col flip v z dn w = (Ok tt, w') ->
  exists df rgba,
    matrix_frame matrix df
    /\ get_color_dict (resolved_colors col (df_columns df)) (df_columns df) 1
       = Ok rgba
    /\ forall B (f : Logo -> B), stable f ->
         f (self w')
         = f (mkLogo (transformed neg cen df) (List.length (df_index df))
                (df_columns df) (List.length (df_columns df)) (df_index df)
                (resolved_colors col (df_columns df)) ax0 neg cen flip v z
                false rgba empty_frame).
Proof.
  unfold __init__. intros H.
  apply bind_Ok_inv in H. destruct H as ([] & w1 & Hassert & H).
  apply bind_Ok_inv in H. destruct H as (df & w2 & Hconv & H).
  assert (matrix_frame matrix df) as Hframe.
  { destruct matrix as [df0 | df0 |]; simpl in *.
    - unfold lift in Hconv. now injection Hconv.
    - unfold ret in Hconv. now injection Hconv.
    - discriminate. }
  cbv zeta in H.
  apply bind_Ok_inv in H. destruct H as ([] & w3 & Hput & H).
  apply bind_Ok_inv in H. destruct H as ([] & w4 & Hneg & H).
  apply bind_Ok_inv in H. destruct H as ([] & w5 & Hcen & H).
  apply bind_Ok_inv in H. destruct H as (rgba & w6 & Hrgba & H).
  apply bind_Ok_inv in H. destruct H as ([] & w7 & Hset & H).
  unfold lift in Hrgba. injection Hrgba as Hrgba <-.
  exists df, rgba. split; [exact Hframe |]. split; [exact Hrgba |].
  intros B f Hst.
  assert (f (self w') = f (self w7)) as ->.
  { pose proof (keeps_bind f _compute_characters
                  (fun _ => if dn then draw None else ret tt)) as Hk.
    specialize (Hk (keeps_compute_characters f Hst)).
    assert (forall a : unit,
              keeps f ((fun _ => if dn then draw None else ret tt) a)) as Hd.
    { intros _. destruct dn; [apply keeps_draw, Hst | apply keeps_ret]. }
    specialize (Hk Hd w7). unfold bind in Hk at 1. unfold bind in H at 1.
    now rewrite H in Hk. }
  unfold modify_self in Hset. injection Hset as <-.
  unfold put_self in Hput. injection Hput as <-.
  unfold transformed.
  destruct neg, cen; simpl in Hneg, Hcen;
    unfold modify_self, ret in Hneg, Hcen;
    injection Hneg as <-; injection Hcen as <-; reflexivity.
Qed.

(** The frame of glyphs a completed construction has stored is the one the
    layout loops computed from the attributes assigned before them. *)
Lemma init_Ok_glyphs (matrix : matrix_arg) (ax0 : option nat)
  (neg cen : bool) (col : option color_scheme) (flip : bool) (v z : Q)
  (dn : bool) (w w' : World) :
  __init__ matrix ax0 neg cen col flip v z dn w = (Ok tt, w') ->
  exists df rgba,
    matrix_frame matrix df
    /\ compute_rows
         (mkLogo (transformed neg cen df) (List.length (df_index df))
            (df_columns df) (List.length (df_columns df)) (df_index df)
            (resolved_colors col (df_columns df)) ax0 neg cen flip v z
            false rgba empty_frame)
         (df_index df) empty_frame
       = Ok (glyph_df (self w')).
Proof.
  unfold __init__. intros H.
  apply bind_Ok_inv in H. destruct H as ([] & w1 & Hassert & H).
  apply bind_Ok_inv in H. destruct H as (df & w2 & Hconv & H).
  assert (matrix_frame matrix df) as Hframe.
  { destruct matrix as [df0 | df0 |]; simpl in *.
    - unfold lift in Hconv. now injection Hconv.
    - unfold ret in Hconv. now injection Hconv.
    - discriminate. }
  cbv zeta in H.
  apply bind_Ok_inv in H. destruct H as ([] & w3 & Hput & H).
  apply bind_Ok_inv in H. destruct H as ([] & w4 & Hneg & H).
  apply bind_Ok_inv in H. destruct H as ([] & w5 & Hcen & H).
  apply bind_Ok_inv in H. destruct H as (rgba & w6 & Hrgba & H).
  apply bind_Ok_inv in H. destruct H as ([] & w7 & Hset & H).
  apply bind_Ok_inv in H. destruct H as ([] & w8 & Hcomp & H).
  unfold lift in Hrgba. injection Hrgba as Hrgba <-.
  exists df, rgba. split; [exact Hframe |].
  assert (glyph_df (self w') = glyph_df (self w8)) as ->.
  { destruct dn.
    - pose proof (keeps_draw glyph_df None) as Hk.
      specialize (Hk (conj (fun _ _ => eq_refl) (fun _ _ => eq_refl)) w8).
      now rewrite H in Hk.
    - unfold ret in H. now injection H as <-. }
  unfold _compute_characters, bind, get_self, lift, modify_self in Hcomp.
  destruct (compute_rows (self w7) (ps (self w7)) empty_frame) as [gdf | e]
    eqn:Hrows; [| discriminate].
  injection Hcomp as <-. cbn [self glyph_df set_glyph_df].
  rewrite <- Hrows.
  unfold modify_self in Hset. injection Hset as <-.
  unfold put_self in Hput. injection Hput as <-.
  unfold transformed.
  destruct neg, cen; simpl in Hneg, Hcen;
    unfold modify_self, ret in Hneg, Hcen;
    injection Hneg as <-; injection Hcen as <-; reflexivity.
Qed.

End Constructor.

Lemma stable_projections :
  stable cs /\ stable colors /\ stable matrix_df /\ stable vsep
  /\ stable ps /\ stable rgba_dict.
Proof. repeat split. Qed.

Lemma centered_row_sum (row : list Q) :
  py_sum (map (fun v => v - row_mean row) row) == 0.
Proof.
  rewrite sum_shifted. unfold row_mean.
  destruct row as [| x row].
  - reflexivity.
  - field. change (List.length (x :: row)) with (S (List.length row)).
    rewrite Nat2Z.inj_succ. unfold Qeq. simpl. lia.
Qed.

Lemma df_center_zero_sum (df : DataFrame) :
  Forall (fun row => py_sum row == 0) (df_values (df_center df)).
Proof.
  unfold df_center. simpl. apply Forall_forall. intros row Hrow.
  apply in_map_iff in Hrow. destruct Hrow as (row0 & <- & _).
  apply centered_row_sum.
Qed.

Section ConstructorProperties.

Context {E : Externals}.

(** C10.  A construction with [colors=None] that completes has chosen its
    colour scheme from the tuple of column characters: 'classic' for
    exactly (A, C, G, T) or (A, C, G, U), 'hydrophobicity' for exactly the
    twenty characters of ACDEFGHIKLMNPQRSTVWY in that order, and 'gray'
    for every other tuple. *)
Theorem C10_default_color_scheme (matrix : matrix_arg) (ax0 : option nat)
  (neg cen flip : bool) (v z : Q) (dn : bool) (w w' : World) :
  __init__ matrix ax0 neg cen None flip v z dn w = (Ok tt, w') ->
  ((cs (self w') = tuple "ACGT" \/ cs (self w') = tuple "ACGU") ->
   colors (self w') = SchemeColor (ColorName "classic"))
  /\ (cs (self w') = tuple "ACDEFGHIKLMNPQRSTVWY" ->
      colors (self w') = SchemeColor (ColorName "hydrophobicity"))
  /\ (cs (self w') <> tuple "ACGT" ->
      cs (self w') <> tuple "ACGU" ->
      cs (self w') <> tuple "ACDEFGHIKLMNPQRSTVWY" ->
      colors (self w') = SchemeColor (ColorName "gray")).
Proof.
  intros H. destruct (init_Ok_attributes _ _ _ _ _ _ _ _ _ _ _ H)
    as (df & rgba & _ & _ & Hattr).
  destruct stable_projections as (Hcs & Hcol & _).
  rewrite (Hattr _ cs Hcs), (Hattr _ colors Hcol). simpl.
  unfold chars_to_colors_dict, dict_get_default, tuple_eqb.
  repeat split.
  - intros [-> | ->]; reflexivity.
  - intros ->. reflexivity.
  - intros H1 H2 H3.
    repeat match goal with
           | |- context [list_eq_dec string_dec ?a ?b] =>
               destruct (list_eq_dec string_dec a b) as [e | _];
               [exfalso;
                first [apply H1; symmetry; exact e
                      | apply H2; symmetry; exact e
                      | apply H3; symmetry; exact e] |]
           end.
    reflexivity.
Qed.

(** C8.  A construction with [center=True] that completes has stored the
    matrix it was given, negated first when [negate] is set, with the mean
    of each row subtracted from the values of that row; every row of the
    stored matrix sums to zero. *)
Theorem C8_centering_zero_sum (matrix : matrix_arg) (ax0 : option nat)
  (neg : bool) (col : option color_scheme) (flip : bool) (v z : Q)
  (dn : bool) (w w' : World) :
  __init__ matrix ax0 neg true col flip v z dn w = (Ok tt, w') ->
  exists df,
    matrix_frame matrix df
    /\ df_values (matrix_df (self w'))
       = map (fun row => map (fun x => x - row_mean row) row)
           (df_values (if neg then df_neg df else df))
    /\ Forall (fun row => py_sum row == 0) (df_values (matrix_df (self w'))).
Proof.
  intros H. destruct (init_Ok_attributes _ _ _ _ _ _ _ _ _ _ _ H)
    as (df & rgba & Hframe & _ & Hattr).
  destruct stable_projections as (_ & _ & Hm & _).
  exists df. rewrite (Hattr _ matrix_df Hm). simpl.
  split; [exact Hframe |]. split; [reflexivity |].
  apply df_center_zero_sum.
Qed.

Lemma stack_glyphs_outcome (l1 l2 : Logo) (p : Q) (vcs : list (Q * string)) :
  rgba_dict l1 = rgba_dict l2 ->
  forall f1 f2,
    same_outcome (stack_glyphs l1 p f1 vcs) (stack_glyphs l2 p f2 vcs).
Proof.
  intros Hd. induction vcs as [| [x c] vcs IH]; intros f1 f2; simpl.
  - exact I.
  - rewrite Hd. destruct (dict_get c (rgba_dict l2)); [| reflexivity].
    specialize (IH (f1 + Qabs x + vsep l1) (f2 + Qabs x + vsep l2)).
    destruct (stack_glyphs l1 p _ vcs), (stack_glyphs l2 p _ vcs);
      simpl in *; auto.
Qed.

Lemma row_glyphs_outcome (l1 l2 : Logo) (p : Q) :
  matrix_df l1 = matrix_df l2 -> cs l1 = cs l2 -> C l1 = C l2 ->
  rgba_dict l1 = rgba_dict l2 ->
  same_outcome (row_glyphs l1 p) (row_glyphs l2 p).
Proof.
  intros Hm Hcs HC Hd. unfold row_glyphs, sorted_row.
  rewrite Hm, Hcs, HC.
  destruct (loc_rows (matrix_df l2) p) as [| vs [| vs2 rest]];
    [reflexivity | |].
  - destruct (take vs (np_argsort vs)) as [vs' | e]; [| reflexivity].
    destruct (take (cs l2) (np_argsort vs)) as [cs' | e]; [| reflexivity].
    now apply stack_glyphs_outcome.
  - destruct (Nat.ltb _ _); [reflexivity |].
    destruct (Nat.ltb _ _); [reflexivity |].
    destruct (Nat.eqb _ _); [| reflexivity].
    rewrite firstn_nil. exact I.
Qed.

Lemma compute_rows_outcome (l1 l2 : Logo) :
  matrix_df l1 = matrix_df l2 -> cs l1 = cs l2 -> C l1 = C l2 ->
  rgba_dict l1 = rgba_dict l2 ->
  forall positions gdf1 gdf2,
    same_outcome (compute_rows l1 positions gdf1)
      (compute_rows l2 positions gdf2).
Proof.
  intros Hm Hcs HC Hd. induction positions as [| p positions IH];
    intros gdf1 gdf2.
  - exact I.
  - rewrite !compute_rows_step.
    pose proof (row_glyphs_outcome l1 l2 p Hm Hcs HC Hd) as Hrow.
    destruct (row_glyphs l1 p), (row_glyphs l2 p); simpl in *;
      try contradiction; auto.
Qed.

(** Closes a goal comparing two runs of the row loop on logos that differ
    in [vsep] only. *)
Ltac same_rows :=
  simpl;
  match goal with
  | |- ?lhs = ?rhs =>
      match lhs with
      | context [compute_rows ?l1 ?q1 ?g1] =>
          match rhs with
          | context [compute_rows ?l2 ?q1 ?g2] =>
              let Hout := fresh "Hout" in
              pose proof (compute_rows_outcome l1 l2 eq_refl eq_refl eq_refl
                            eq_refl q1 g1 g2) as Hout;
              destruct (compute_rows l1 q1 g1), (compute_rows l2 q1 g2);
              simpl in Hout |- *; try contradiction; try reflexivity;
              now subst
          end
      end
  end.

(** C4 (amended).  The constructor does not look at the sign of [vsep]: a
    construction that completes has stored the gap it was given,
    unchanged, and has laid the glyphs out with that gap; and without
    drawing the constructor returns or raises alike (with the same
    exception) whatever the gap. *)
Theorem C4_gap_not_validated (matrix : matrix_arg) (ax0 : option nat)
  (neg cen : bool) (col : option color_scheme) (flip : bool) (v z : Q)
  (w : World) :
  (forall dn w',
     __init__ matrix ax0 neg cen col flip v z dn w = (Ok tt, w') ->
     vsep (self w') = v
     /\ exists l0,
          vsep l0 = v
          /\ compute_rows l0 (ps l0) empty_frame = Ok (glyph_df (self w')))
  /\ (forall v',
        fst (__init__ matrix ax0 neg cen col flip v z false w)
        = fst (__init__ matrix ax0 neg cen col flip v' z false w)).
Proof.
  split.
  - intros dn w' H. split.
    + destruct (init_Ok_attributes _ _ _ _ _ _ _ _ _ _ _ H)
        as (df & rgba & _ & _ & Hattr).
      destruct stable_projections as (_ & _ & _ & Hv & _).
      now rewrite (Hattr _ vsep Hv).
    + destruct (init_Ok_glyphs _ _ _ _ _ _ _ _ _ _ _ H)
        as (df & rgba & _ & Hrows).
      eexists. split; [| exact Hrows]. reflexivity.
  - intros v'.
    cbv beta iota zeta delta [__init__ bind py_assert ret raise lift put_self
                               modify_self _compute_characters get_self].
    destruct matrix as [df0 | df |]; cbv beta iota; [| | reflexivity].
    + destruct (Matrix_Matrix df0) as [df | e]; [| reflexivity].
      destruct neg, cen; cbn [self];
        (destruct (get_color_dict _ _ _) as [rgba | e]; [| reflexivity]);
        cbn [self]; same_rows.
    + destruct neg, cen; cbn [self];
        (destruct (get_color_dict _ _ _) as [rgba | e]; [| reflexivity]);
        cbn [self]; same_rows.
Qed.

End ConstructorProperties.

Lemma C10_default_color_scheme_witness :
  @__init__ stable_externals (ArgDataFrame df_mixed) None false false None
    true (1 # 2) 0 true blank_world = (Ok tt, drawn_world)
  /\ cs (self drawn_world) = tuple "ACGT"
  /\ colors (self drawn_world) = SchemeColor (ColorName "classic").
Proof.
  assert (@__init__ stable_externals (ArgDataFrame df_mixed) None false false
            None true (1 # 2) 0 true blank_world = (Ok tt, drawn_world))
    as Hrun by (vm_compute; reflexivity).
  assert (cs (self drawn_world) = tuple "ACGT") as Hcs
    by (vm_compute; reflexivity).
  split; [exact Hrun |]. split; [exact Hcs |].
  destruct (@C10_default_color_scheme stable_externals _ _ _ _ _ _ _ _ _ _
              Hrun) as (Hclassic & _ & _).
  apply Hclassic. left. exact Hcs.
Defined.

(** Permutations and subsets of the known tuples fall back to 'gray'. *)
Lemma default_scheme_of_other_tuples :
  resolved_colors None (tuple "TGCA") = SchemeColor (ColorName "gray")
  /\ resolved_colors None (tuple "ACG") = SchemeColor (ColorName "gray")
  /\ resolved_colors None (tuple "ACGU") = SchemeColor (ColorName "classic")
  /\ resolved_colors None (tuple "YWVTSRQPNMLKIHGFEDCA")
     = SchemeColor (ColorName "gray")
  /\ colors logo_zero_between = SchemeColor (ColorName "gray").
Proof. repeat split. Qed.

Lemma C8_centering_zero_sum_witness :
  @__init__ stable_externals (ArgDataFrame df_mixed) None true true None
    true 0 0 true blank_world = (Ok tt, centered_world)
  /\ Forall (fun row => py_sum row == 0)
       (df_values (matrix_df (self centered_world)))
  /\ df_values (matrix_df (self centered_world))
     = map (fun row => map (fun x => x - row_mean row) row)
         (df_values (df_neg df_mixed)).
Proof.
  assert (@__init__ stable_externals (ArgDataFrame df_mixed) None true true
            None true 0 0 true blank_world = (Ok tt, centered_world))
    as Hrun by (vm_compute; reflexivity).
  split; [exact Hrun |].
  destruct (@C8_centering_zero_sum stable_externals _ _ _ _ _ _ _ _ _ _ Hrun)
    as (df & Hframe & Hvalues & Hzero).
  split; [exact Hzero |].
  simpl in Hframe. injection Hframe as <-. exact Hvalues.
Defined.

Lemma C4_gap_not_validated_witness :
  @__init__ stable_externals (ArgDataFrame df_example) None false false None
    true (-1) 0 true blank_world = (Ok tt, negative_gap_world)
  /\ vsep (self negative_gap_world) = -1
  /\ fst (@__init__ stable_externals (ArgDataFrame df_example) None false
            false None true (-1) 0 false blank_world)
     = fst (@__init__ stable_externals (ArgDataFrame df_example) None false
              false None true 0 0 false blank_world).
Proof.
  assert (@__init__ stable_externals (ArgDataFrame df_example) None false
            false None true (-1) 0 true blank_world
          = (Ok tt, negative_gap_world))
    as Hrun by (vm_compute; reflexivity).
  split; [exact Hrun |].
  destruct (@C4_gap_not_validated stable_externals
              (ArgDataFrame df_example) None false false None true (-1) 0
              blank_world) as (Hstored & Hsame).
  split; [exact (proj1 (Hstored true negative_gap_world Hrun)) | apply Hsame].
Defined.

(** C4 as stated fails: a construction with [vsep = -1] completes and
    draws, the negative gap is stored, and the glyphs are laid out with it
    (at position 0 the glyph of C, stacked after the glyph of A, lies
    below it). *)
Lemma C4_negative_gap_counterexample :
  @__init__ stable_externals (ArgDataFrame df_example) None false false None
    true (-1) 0 true blank_world = (Ok tt, negative_gap_world)
  /\ vsep (self negative_gap_world) < 0
  /\ has_been_drawn (self negative_gap_world) = true
  /\ exists g1 g2,
       frame_get 0 "A" (glyph_df (self negative_gap_world)) = Some g1
       /\ frame_get 0 "C" (glyph_df (self negative_gap_world)) = Some g2
       /\ Glyph.floor g1 == - (1 # 2)
       /\ Glyph.ceiling g1 == - (4 # 10)
       /\ Glyph.floor g2 == - (14 # 10)
       /\ Glyph.ceiling g2 < Glyph.floor g1.
Proof.
  split; [vm_compute; reflexivity |].
  split; [vm_compute; reflexivity |].
  split; [vm_compute; reflexivity |].
  eexists. eexists.
  split; [vm_compute; reflexivity |].
  split; [vm_compute; reflexivity |].
  repeat split; vm_compute; reflexivity.
Qed.

(* ================================================================= *)
(** ** The controller: styling along a sequence *)

Lemma assert_each (chars known : list string) (msg : string -> string)
  (w : World) :
  py_for chars (fun c => py_assert (mem_str c known) (msg c)) w
  = match find (fun c => negb (mem_str c known)) chars with
    | None => (Ok tt, w)
    | Some c => (Raise (AssertionError (msg c)), w)
    end.
Proof.
  induction chars as [| c chars IH]; simpl.
  - reflexivity.
  - unfold bind. destruct (mem_str c known); simpl.
    + exact IH.
    + reflexivity.
Qed.

Lemma find_first {A} (t : A -> bool) (l : list A) (x : A) :
  find t l = Some x ->
  exists pre post,
    l = pre ++ x :: post /\ t x = true /\ forall y, In y pre -> t y = false.
Proof.
  induction l as [| a l IH]; simpl; intros H; [discriminate |].
  destruct (t a) eqn:Ha.
  - injection H as <-. exists [], l. repeat split; [exact Ha |].
    intros y [].
  - destruct (IH H) as (pre & post & -> & Hx & Hpre).
    exists (a :: pre), post. repeat split; [exact Hx |].
    intros y [<- | Hy]; [exact Ha | now apply Hpre].
Qed.

Section SequenceStyling.

Context {E : Externals}.

(** C5 (amended).  When the sequence's length differs from the number of
    positions, [style_glyphs_in_sequence] raises the assertion error of the
    length check; when the length is right and one of its characters is not
    a column of the matrix, it raises the assertion error that names the
    first such character.  In both cases no glyph, no Axes and no attribute
    of the logo other than [ax] has changed; [ax] has become the [ax]
    argument when one was passed. *)
Theorem C5_sequence_validation (w : World) (sequence : string)
  (draw_now : bool) (ax0 : option nat) (kw : kwargs) :
  String.length sequence <> L (self w)
  \/ (exists c, In c (tuple sequence) /\ mem_str c (cs (self w)) = false) ->
  exists msg w',
    style_glyphs_in_sequence sequence draw_now ax0 kw w
    = (Raise (AssertionError msg), w')
    /\ (String.length sequence <> L (self w) -> msg = length_msg)
    /\ (String.length sequence = L (self w) ->
        exists pre c post,
          tuple sequence = pre ++ c :: post
          /\ (forall d, In d pre -> mem_str d (cs (self w)) = true)
          /\ mem_str c (cs (self w)) = false
          /\ msg = character_msg c)
    /\ self w' = match ax0 with
                 | Some h => set_ax (Some h) (self w)
                 | None => self w
                 end
    /\ glyph_df (self w') = glyph_df (self w)
    /\ has_been_drawn (self w') = has_been_drawn (self w)
    /\ axes w' = axes w
    /\ gca w' = gca w
    /\ (ax0 = None -> w' = w).
Proof.
  intros Hbad. unfold style_glyphs_in_sequence.
  set (w1 := snd (_update_ax ax0 w)).
  assert (_update_ax ax0 w = (Ok tt, w1)) as Hupd.
  { unfold w1. destruct ax0; reflexivity. }
  assert (self w1 = match ax0 with
                    | Some h => set_ax (Some h) (self w)
                    | None => self w
                    end
          /\ axes w1 = axes w /\ gca w1 = gca w
          /\ (ax0 = None -> w1 = w)) as (Hself & Haxes & Hgca & Hnone).
  { unfold w1. destruct ax0; simpl; repeat split; try reflexivity.
    discriminate. }
  assert (L (self w1) = L (self w) /\ cs (self w1) = cs (self w)
          /\ glyph_df (self w1) = glyph_df (self w)
          /\ has_been_drawn (self w1) = has_been_drawn (self w))
    as (HL & Hcs & Hgdf & Hdrawn).
  { rewrite Hself. destruct ax0; repeat split. }
  unfold bind at 1. rewrite Hupd.
  unfold bind at 1. unfold get_self at 1.
  unfold bind at 1.
  destruct (Nat.eqb (String.length sequence) (L (self w1))) eqn:Hlen.
  - (* the length check passes, so a character fails *)
    simpl py_assert. unfold ret at 1.
    unfold bind at 1.
    rewrite (assert_each (tuple sequence) (cs (self w1)) character_msg).
    destruct Hbad as [Hbad | (c & Hin & Hc)].
    { apply Nat.eqb_eq in Hlen. rewrite HL in Hlen. contradiction. }
    destruct (find (fun c => negb (mem_str c (cs (self w1)))) (tuple sequence))
      as [c0 |] eqn:Hfind.
    + destruct (find_first _ _ _ Hfind) as (pre & post & Hsplit & Hc0 & Hpre).
      rewrite Hcs in Hc0, Hpre. apply negb_true_iff in Hc0.
      exists (character_msg c0), w1. split; [reflexivity |].
      split.
      { intros Hne. apply Nat.eqb_eq in Hlen. rewrite HL in Hlen.
        contradiction. }
      split.
      { intros _. exists pre, c0, post. repeat split; auto.
        intros d Hd. specialize (Hpre d Hd).
        now apply negb_false_iff in Hpre. }
      repeat split; auto.
    + exfalso. pose proof (find_none _ _ Hfind c Hin) as Hnone'.
      simpl in Hnone'. rewrite Hcs, Hc in Hnone'. discriminate.
  - simpl py_assert. unfold raise at 1.
    exists length_msg, w1. split; [reflexivity |].
    split; [reflexivity |].
    split.
    { intros Heq. apply Nat.eqb_neq in Hlen. rewrite HL in Hlen.
      contradiction. }
    repeat split; auto.
Qed.

End SequenceStyling.

Lemma C5_sequence_validation_witness :
  exists msg w',
    @style_glyphs_in_sequence stable_externals "AXG" true None []
      undrawn_world
    = (Raise (AssertionError msg), w')
    /\ (String.length "AXG" <> L (self undrawn_world) -> msg = length_msg)
    /\ (String.length "AXG" = L (self undrawn_world) ->
        exists pre c post,
          tuple "AXG" = pre ++ c :: post
          /\ (forall d, In d pre -> mem_str d (cs (self undrawn_world)) = true)
          /\ mem_str c (cs (self undrawn_world)) = false
          /\ msg = character_msg c)
    /\ self w' = self undrawn_world
    /\ glyph_df (self w') = glyph_df (self undrawn_world)
    /\ has_been_drawn (self w') = has_been_drawn (self undrawn_world)
    /\ axes w' = axes undrawn_world
    /\ gca w' = gca undrawn_world
    /\ (@None nat = None -> w' = undrawn_world).
Proof.
  apply (@C5_sequence_validation stable_externals undrawn_world "AXG" true
           None []).
  right. exists "X"%string. split; [| reflexivity].
  right. left. reflexivity.
Defined.

(** C5 as stated fails: the [ax] argument is stored before the sequence is
    checked.  A too short sequence passed together with [ax=7] raises the
    length error and leaves the logo attached to Axes 7. *)
Lemma C5_ax_counterexample :
  ax (self undrawn_world) = None
  /\ String.length "AC" <> L (self undrawn_world)
  /\ exists w',
       @style_glyphs_in_sequence stable_externals "AC" true (Some 7%nat) []
         undrawn_world
       = (Raise (AssertionError length_msg), w')
       /\ ax (self w') = Some 7%nat
       /\ self w' <> self undrawn_world.
Proof.
  split; [vm_compute; reflexivity |].
  split; [vm_compute; discriminate |].
  eexists. split; [vm_compute; reflexivity |].
  split; [vm_compute; reflexivity |].
  intros H. apply (f_equal ax) in H. vm_compute in H. discriminate H.
Qed.

(* ================================================================= *)
(** ** The controller: tick marks *)

Lemma mod_is_zero_iff (x m : Q) :
  mod_is_zero x m = true
  <-> ~ m == 0 /\ exists k : Z, x == inject_Z k * m.
Proof.
  unfold mod_is_zero. destruct (Qeq_bool m 0) eqn:Hm.
  - apply Qeq_bool_iff in Hm. split; [discriminate |].
    intros [H _]. contradiction.
  - apply Qeq_bool_neq in Hm. rewrite Qeq_bool_iff. unfold py_mod. split.
    + intros H. split; [exact Hm |]. exists (Qfloor (x / m)).
      rewrite <- (Qplus_0_r (inject_Z (Qfloor (x / m)) * m)), <- H. ring.
    + intros [_ [k Hk]].
      assert (x / m == inject_Z k) as Hq.
      { rewrite Hk. now apply Qdiv_mult_l. }
      rewrite (Qfloor_comp _ _ Hq), Qfloor_Z, Hk. ring.
Qed.

Lemma lt_ceiling (z : Z) (x : Q) : (z < Qceiling x)%Z <-> inject_Z z < x.
Proof.
  split; intros H.
  - apply Qle_lt_trans with (inject_Z (Qceiling x - 1)).
    + rewrite <- Zle_Qle. lia.
    + apply Qceiling_lt.
  - rewrite Zlt_Qlt. apply Qlt_le_trans with x; [exact H |].
    apply Qle_ceiling.
Qed.

Lemma In_np_arange (a b t : Q) :
  In t (np_arange a b)
  <-> exists i : nat,
        t = a + inject_Z (Z.of_nat i) /\ a + inject_Z (Z.of_nat i) < b.
Proof.
  unfold np_arange. rewrite in_map_iff. split.
  - intros (i & <- & Hi). apply in_seq in Hi. exists i.
    split; [reflexivity |].
    assert (Z.of_nat i < Qceiling (b - a))%Z as Hlt by lia.
    apply lt_ceiling in Hlt. lra.
  - intros (i & -> & Hi). exists i. split; [reflexivity |]. apply in_seq.
    assert (Z.of_nat i < Qceiling (b - a))%Z as Hlt
      by (apply lt_ceiling; lra).
    lia.
Qed.

Lemma fold_min_spec (tl : list Q) :
  forall x,
    let m := fold_left (fun m y => if Qltb y m then y else m) tl x in
    In m (x :: tl) /\ m <= x /\ forall y, In y tl -> m <= y.
Proof.
  induction tl as [| a tl IH]; intros x; simpl.
  - repeat split; [now left | apply Qle_refl | intros y []].
  - destruct (Qltb a x) eqn:Hax.
    + apply Qltb_lt in Hax. destruct (IH a) as (Hin & Hle & Hall).
      repeat split.
      * now right.
      * apply Qle_trans with a; [exact Hle | now apply Qlt_le_weak].
      * intros y [<- | Hy]; [exact Hle | now apply Hall].
    + apply Qltb_ge in Hax. destruct (IH x) as (Hin & Hle & Hall).
      repeat split.
      * destruct Hin as [<- | Hin]; [now left | right; now right].
      * exact Hle.
      * intros y [<- | Hy]; [now apply Qle_trans with x | now apply Hall].
Qed.

Lemma fold_max_spec (tl : list Q) :
  forall x,
    let m := fold_left (fun m y => if Qltb m y then y else m) tl x in
    In m (x :: tl) /\ x <= m /\ forall y, In y tl -> y <= m.
Proof.
  induction tl as [| a tl IH]; intros x; simpl.
  - repeat split; [now left | apply Qle_refl | intros y []].
  - destruct (Qltb x a) eqn:Hax.
    + apply Qltb_lt in Hax. destruct (IH a) as (Hin & Hle & Hall).
      repeat split.
      * now right.
      * apply Qle_trans with a; [now apply Qlt_le_weak | exact Hle].
      * intros y [<- | Hy]; [exact Hle | now apply Hall].
    + apply Qltb_ge in Hax. destruct (IH x) as (Hin & Hle & Hall).
      repeat split.
      * destruct Hin as [<- | Hin]; [now left | right; now right].
      * exact Hle.
      * intros y [<- | Hy]; [now apply Qle_trans with x | now apply Hall].
Qed.

Lemma py_min_spec (l : list Q) (m : Q) :
  py_min l = Ok m -> In m l /\ forall y, In y l -> m <= y.
Proof.
  destruct l as [| x tl]; simpl; intros H; [discriminate |].
  injection H as <-. destruct (fold_min_spec tl x) as (Hin & Hle & Hall).
  split; [exact Hin |]. intros y [<- | Hy]; [exact Hle | now apply Hall].
Qed.

Lemma py_max_spec (l : list Q) (m : Q) :
  py_max l = Ok m -> In m l /\ forall y, In y l -> y <= m.
Proof.
  destruct l as [| x tl]; simpl; intros H; [discriminate |].
  injection H as <-. destruct (fold_max_spec tl x) as (Hin & Hle & Hall).
  split; [exact Hin |]. intros y [<- | Hy]; [exact Hle | now apply Hall].
Qed.

(** The ticks, read off the code: the floats [p_min + i] below
    [p_max + 1] whose distance to [anchor] is a multiple of [spacing]. *)
Lemma In_ticks (p_min p_max anchor spacing t : Q) :
  In t (filter (fun p => mod_is_zero (p - anchor) spacing)
          (np_arange p_min (p_max + 1)))
  <-> (exists i : nat,
         t = p_min + inject_Z (Z.of_nat i)
         /\ p_min + inject_Z (Z.of_nat i) < p_max + 1)
      /\ ~ spacing == 0
      /\ exists k : Z, t - anchor == inject_Z k * spacing.
Proof.
  rewrite filter_In, In_np_arange, mod_is_zero_iff. tauto.
Qed.

(** With whole positions, anchor and spacing, the ticks are the members of
    the arithmetic sequence [anchor + k * spacing] between [p_min] and
    [p_max]. *)
Lemma ticks_of_integers (p_min p_max anchor spacing : Q) :
  is_integer p_min -> is_integer p_max ->
  is_integer anchor -> is_integer spacing -> ~ spacing == 0 ->
  forall t,
    (exists t',
       In t' (filter (fun p => mod_is_zero (p - anchor) spacing)
                (np_arange p_min (p_max + 1)))
       /\ t' == t)
    <-> (p_min <= t /\ t <= p_max
         /\ exists k : Z, t == anchor + inject_Z k * spacing).
Proof.
  intros (zmin & Hmin) (zmax & Hmax) (za & Ha) (zs & Hs) Hnz t. split.
  - intros (t' & Hin & Heq). apply In_ticks in Hin.
    destruct Hin as ((i & -> & Hlt) & _ & (k & Hk)).
    rewrite <- Heq. repeat split.
    + assert (0 <= inject_Z (Z.of_nat i)) as Hi.
      { change 0 with (inject_Z 0). rewrite <- Zle_Qle. lia. }
      lra.
    + rewrite Hmin, Hmax in Hlt. rewrite Hmin, Hmax.
      change 1 with (inject_Z 1) in Hlt.
      rewrite <- !inject_Z_plus in Hlt. rewrite <- inject_Z_plus.
      rewrite <- Zlt_Qlt in Hlt. rewrite <- Zle_Qle. lia.
    + exists k. lra.
  - intros (Hlo & Hhi & (k & Hk)).
    assert (t == inject_Z (za + k * zs)) as Ht.
    { rewrite Hk, Ha, Hs, inject_Z_plus, inject_Z_mult. reflexivity. }
    assert (zmin <= za + k * zs)%Z as Hn.
    { rewrite Zle_Qle, <- Hmin, <- Ht. exact Hlo. }
    exists (p_min + inject_Z (Z.of_nat (Z.to_nat (za + k * zs - zmin)))).
    assert (p_min + inject_Z (Z.of_nat (Z.to_nat (za + k * zs - zmin))) == t)
      as Hsame.
    { rewrite Z2Nat.id by lia. rewrite Ht, Hmin.
      rewrite <- inject_Z_plus. apply inject_Z_injective. lia. }
    split; [| exact Hsame].
    apply In_ticks. repeat split.
    + exists (Z.to_nat (za + k * zs - zmin)). split; [reflexivity |].
      rewrite Hsame. lra.
    + exact Hnz.
    + exists k. rewrite Hsame, Hk. ring.
Qed.

Section Ticks.

Context {E : Externals}.

Lemma format_each_labels (fmt : string) (label : Q -> string)
  (ts : list Q) :
  (forall t, str_format fmt t = Ok (label t)) ->
  format_each fmt ts = Ok (map label ts).
Proof.
  intros H. induction ts as [| t ts IH]; simpl.
  - reflexivity.
  - now rewrite H, IH.
Qed.

(** C9 (amended).  On a drawn logo with at least one position,
    [style_xticks] sets the ticks of the logo's Axes to the floats
    [p_min + i] ([i = 0, 1, ...]) below [p_max + 1] whose distance to
    [anchor] is a multiple of [spacing], in ascending order, and labels
    each tick with [fmt] applied to it; [p_min] and [p_max] are the least
    and the greatest position of the matrix.  When the positions, [anchor]
    and the non-zero [spacing] are whole numbers, these ticks are exactly
    the members of the arithmetic sequence [anchor + k * spacing] that lie
    between [p_min] and [p_max]. *)
Theorem C9_tick_positions (w : World) (h : nat) (anchor spacing : Q)
  (fmt : string) (rotation : Q) (kw : kwargs) (label : Q -> string) :
  has_been_drawn (self w) = true ->
  ax (self w) = Some h ->
  ps (self w) <> [] ->
  (forall t, str_format fmt t = Ok (label t)) ->
  exists p_min p_max w',
    style_xticks anchor spacing fmt rotation kw w = (Ok tt, w')
    /\ In p_min (ps (self w)) /\ In p_max (ps (self w))
    /\ (forall p, In p (ps (self w)) -> p_min <= p /\ p <= p_max)
    /\ self w' = self w
    /\ ax_xticks (axes w' h)
       = filter (fun p => mod_is_zero (p - anchor) spacing)
           (np_arange p_min (p_max + 1))
    /\ ax_xticklabels (axes w' h) = map label (ax_xticks (axes w' h))
    /\ (forall t,
          In t (ax_xticks (axes w' h))
          <-> (exists i : nat,
                 t = p_min + inject_Z (Z.of_nat i)
                 /\ p_min + inject_Z (Z.of_nat i) < p_max + 1)
              /\ ~ spacing == 0
              /\ exists k : Z, t - anchor == inject_Z k * spacing)
    /\ ((forall p, In p (ps (self w)) -> is_integer p) ->
        is_integer anchor -> is_integer spacing -> ~ spacing == 0 ->
        forall t,
          (exists t', In t' (ax_xticks (axes w' h)) /\ t' == t)
          <-> (p_min <= t /\ t <= p_max
               /\ exists k : Z, t == anchor + inject_Z k * spacing)).
Proof.
  intros Hdrawn Hax Hne Hfmt.
  destruct (py_min (ps (self w))) as [p_min | e] eqn:Hmin;
    [| destruct (ps (self w)); [congruence | discriminate]].
  destruct (py_max (ps (self w))) as [p_max | e] eqn:Hmax;
    [| destruct (ps (self w)); [congruence | discriminate]].
  destruct (py_min_spec _ _ Hmin) as (Hin_min & Hle_min).
  destruct (py_max_spec _ _ Hmax) as (Hin_max & Hle_max).
  exists p_min, p_max.
  cbv beta iota zeta delta [style_xticks bind get_self py_assert lift self_ax
                             set_xticks set_xticklabels get_axes put_axes
                             ret raise].
  rewrite Hdrawn, Hmin, Hmax, Hax. cbv beta iota.
  rewrite (format_each_labels fmt label _ Hfmt). cbv beta iota.
  eexists. split; [reflexivity |].
  split; [exact Hin_min |]. split; [exact Hin_max |].
  split; [intros p Hp; split; [now apply Hle_min | now apply Hle_max] |].
  split; [reflexivity |].
  cbn [axes self]. unfold upd. rewrite Nat.eqb_refl. cbn [ax_xticks
    ax_xticklabels].
  split; [reflexivity |]. split; [reflexivity |].
  split.
  - intros t. apply In_ticks.
  - intros Hint Ha Hs Hnz.
    apply ticks_of_integers; auto.
Qed.

End Ticks.

Lemma C9_tick_positions_witness :
  has_been_drawn (self drawn_world) = true
  /\ ax (self drawn_world) = Some 0%nat
  /\ exists w',
       @style_xticks stable_externals 1 2 "%d" 0 [] drawn_world = (Ok tt, w')
       /\ (forall t,
             (exists t', In t' (ax_xticks (axes w' 0%nat)) /\ t' == t)
             -> 0 <= t /\ t <= 2
                /\ exists k : Z, t == 1 + inject_Z k * 2).
Proof.
  assert (has_been_drawn (self drawn_world) = true) as Hdrawn
    by (vm_compute; reflexivity).
  assert (ax (self drawn_world) = Some 0%nat) as Hax
    by (vm_compute; reflexivity).
  split; [exact Hdrawn |]. split; [exact Hax |].
  destruct (@C9_tick_positions stable_externals drawn_world 0%nat 1 2 "%d" 0
              [] (fun _ => "%d"%string) Hdrawn Hax)
    as (p_min & p_max & w' & Hrun & Hmin & Hmax & _ & _ & _ & _ & _ & Hseq).
  - vm_compute. discriminate.
  - intros t. reflexivity.
  - exists w'. split; [exact Hrun |]. intros t Ht.
    assert (forall p, In p (ps (self drawn_world)) -> is_integer p) as Hint.
    { intros p Hp. vm_compute in Hp.
      destruct Hp as [<- | [<- | [<- | []]]];
        [exists 0%Z | exists 1%Z | exists 2%Z]; reflexivity. }
    assert (is_integer 1) as H1 by (exists 1%Z; reflexivity).
    assert (is_integer 2) as H2 by (exists 2%Z; reflexivity).
    assert (~ 2 == 0) as Hnz by (intro H; discriminate H).
    destruct (proj1 (Hseq Hint H1 H2 Hnz t) Ht) as (Hlo & Hhi & Hk).
    assert (0 <= p_min) as Hlo'.
    { vm_compute in Hmin.
      destruct Hmin as [<- | [<- | [<- | []]]]; unfold Qle; simpl; lia. }
    assert (p_max <= 2) as Hhi'.
    { vm_compute in Hmax.
      destruct Hmax as [<- | [<- | [<- | []]]]; unfold Qle; simpl; lia. }
    repeat split; [lra | lra | exact Hk].
Defined.

(** C9 as stated fails when positions are not whole numbers: with the
    positions 0 and 3/2, anchor 0 and spacing 1, the ticks are 0, 1 and 2,
    and the tick 2 lies beyond the greatest position 3/2. *)
Lemma C9_fractional_positions_counterexample :
  has_been_drawn (self fractional_world) = true
  /\ ps (self fractional_world) = [0; 3 # 2]
  /\ py_max (ps (self fractional_world)) = Ok (3 # 2)
  /\ exists w',
       @style_xticks stable_externals 0 1 "%d" 0 [] fractional_world
       = (Ok tt, w')
       /\ ax_xticks (axes w' 0%nat) = [0; 1; 2]
       /\ In 2 (ax_xticks (axes w' 0%nat))
       /\ ~ 2 <= 3 # 2.
Proof.
  split; [vm_compute; reflexivity |].
  split; [vm_compute; reflexivity |].
  split; [vm_compute; reflexivity |].
  eexists. split; [vm_compute; reflexivity |].
  split; [vm_compute; reflexivity |].
  split; [vm_compute; auto |].
  intro H. vm_compute in H. apply H. reflexivity.
Qed.

(* ================================================================= *)
(** * Further properties of the layout *)



Section Separation.

Context {E : Externals}.


End Separation.




Section Extent.

Context {E : Externals}.


End Extent.


(* ================================================================= *)
(** * The glyph of a matrix cell *)

Lemma Forall2_In_l {A B} (R : A -> B -> Prop) (xs : list A) (ys : list B) :
  Forall2 R xs ys -> forall x, In x xs -> exists y, In y ys /\ R x y.
Proof.
  induction 1 as [| a b xs ys Hab _ IH]; intros x Hx.
  - destruct Hx.
  - destruct Hx as [<- | Hx].
    + exists b. split; [now left | exact Hab].
    + destruct (IH x Hx) as (y & Hy & Hxy). exists y. split; [now right | exact Hxy].
Qed.

Lemma combine_map_same {A B C} (f : A -> B) (g : A -> C) (l : list A) :
  combine (map f l) (map g l) = map (fun i => (f i, g i)) l.
Proof.
  induction l as [| a l IH]; simpl; [reflexivity | now rewrite IH].
Qed.

Lemma column_index_nth (c : string) (columns : list string) :
  forall j, column_index c columns = Some j -> nth_error columns j = Some c.
Proof.
  induction columns as [| c' tl IH]; intros j H; simpl in H.
  - discriminate.
  - destruct (String.eqb c' c) eqn:Hc.
    + apply String.eqb_eq in Hc. injection H as <-. simpl. now rewrite Hc.
    + destruct (column_index c tl) as [k |]; [| discriminate].
      injection H as <-. simpl. now apply IH.
Qed.

Lemma column_index_In (c : string) (columns : list string) :
  In c columns -> exists j, column_index c columns = Some j.
Proof.
  induction columns as [| c' tl IH]; intros H.
  - destruct H.
  - simpl. destruct (String.eqb c' c) eqn:Hc; [now exists 0%nat |].
    destruct H as [-> | H].
    + rewrite String.eqb_refl in Hc. discriminate.
    + destruct (IH H) as [j ->]. now exists (S j).
Qed.

Lemma NoDup_map_nth {A} (a : list A) (d : A) (idx : list nat) :
  NoDup a -> NoDup idx ->
  Forall (fun i => (i < List.length a)%nat) idx ->
  NoDup (map (fun i => nth i a d) idx).
Proof.
  intros Ha Hidx Hb. induction Hidx as [| i idx Hi Hidx IH]; simpl.
  - constructor.
  - apply Forall_cons_iff in Hb. destruct Hb as [Hlt Hb].
    constructor; [| now apply IH].
    intros Hin. apply in_map_iff in Hin. destruct Hin as (j & Hj & Hjin).
    rewrite Forall_forall in Hb. specialize (Hb j Hjin).
    rewrite NoDup_nth in Ha. specialize (Ha j i Hb Hlt Hj).
    subst j. contradiction.
Qed.

Section Cells.

Context {E : Externals}.

Lemma stack_glyphs_cells (l : Logo) (p : Q) (vcs : list (Q * string)) :
  forall (f : Q) (gs : list Glyph.Glyph),
  stack_glyphs l p f vcs = Ok gs ->
  Forall2 (fun vc g => glyph_of l p (fst vc) (snd vc) g) vcs gs.
Proof.
  induction vcs as [| [v c] vcs IH]; intros f gs H; simpl in H.
  - injection H as <-. constructor.
  - destruct (dict_get c (rgba_dict l)) as [rgba |] eqn:Hd; [| discriminate].
    destruct (stack_glyphs l p (f + Qabs v + vsep l) vcs) as [gs' |] eqn:Hgs;
      [| discriminate].
    injection H as <-. constructor; [| now apply IH with (f + Qabs v + vsep l)].
    unfold glyph_of, Glyph_new. simpl. repeat split. now exists rgba.
Qed.

Lemma row_glyphs_unfold (l : Logo) (p : Q) (vs : list Q) :
  row_ready l p vs ->
  row_glyphs l p
  = stack_glyphs l p (initial_floor (vsep l) (stacking_order vs))
      (combine (stacking_order vs) (stacking_chars (cs l) vs)).
Proof.
  intros Hready. pose proof Hready as (Hrow & Hlen & HC & Hcol & Hsort).
  unfold row_glyphs. rewrite (row_ready_sorted_row _ _ _ Hready).
  f_equal. apply firstn_all2.
  unfold stacking_order, stacking_chars.
  rewrite length_combine, !length_map, Nat.min_id.
  rewrite (is_argsort_length _ _ Hsort). lia.
Qed.

(** In a ready row with distinct characters, every column has its glyph. *)
Lemma row_glyphs_cell (l : Logo) (p : Q) (vs : list Q) (c : string) (v : Q) :
  row_ready l p vs ->
  df_columns (matrix_df l) = cs l ->
  df_loc (matrix_df l) p c = Ok v ->
  exists gs g,
    row_glyphs l p = Ok gs /\ In g gs /\ glyph_of l p v c g.
Proof.
  intros Hready Hcols Hloc.
  pose proof Hready as (Hrow & Hlen & HC & Hcol & Hsort).
  destruct (row_glyphs_ready l p vs Hready) as (gs & Hgs & _).
  exists gs. pose proof Hgs as Hstack.
  rewrite (row_glyphs_unfold _ _ _ Hready) in Hstack.
  apply stack_glyphs_cells in Hstack.
  unfold df_loc in Hloc. rewrite Hrow, Hcols in Hloc.
  destruct (column_index c (cs l)) as [j |] eqn:Hj; [| discriminate].
  destruct (mem_str c (skipn (S j) (cs l))); [discriminate |].
  destruct (nth_error vs j) as [v0 |] eqn:Hnth; [| discriminate].
  injection Hloc as ->.
  apply column_index_nth in Hj.
  assert (j < List.length vs)%nat as Hlt.
  { apply nth_error_Some. congruence. }
  assert (In (v, c) (combine (stacking_order vs) (stacking_chars (cs l) vs)))
    as Hin.
  { unfold stacking_order, stacking_chars. rewrite combine_map_same.
    apply in_map_iff. exists j. split.
    - f_equal.
      + now apply nth_error_nth.
      + now apply nth_error_nth.
    - apply (Permutation_in _ (Permutation_sym (is_argsort_perm _ _ Hsort))).
      apply in_seq. lia. }
  destruct (Forall2_In_l _ _ _ Hstack _ Hin) as (g & Hg & Hof).
  exists g. auto.
Qed.

Lemma row_glyphs_labels_NoDup (l : Logo) (p : Q) (vs : list Q)
  (gs : list Glyph.Glyph) :
  row_ready l p vs -> NoDup (cs l) -> row_glyphs l p = Ok gs ->
  NoDup (map Glyph.c gs).
Proof.
  intros Hready Hnd Hgs.
  pose proof Hready as (_ & Hlen & _ & _ & Hsort).
  destruct (row_glyphs_ready l p vs Hready) as (gs' & Hgs' & _ & Hc & _).
  assert (gs' = gs) as -> by congruence.
  rewrite Hc. unfold stacking_chars. apply NoDup_map_nth.
  - exact Hnd.
  - now apply is_argsort_NoDup with vs.
  - rewrite Hlen. now apply is_argsort_bound.
Qed.

(** X3.  The glyph of a matrix cell.  When [_compute_characters] completes on a
    logo whose positions differ pairwise and whose characters are distinct,
    the cell [glyph_df.loc[p, c]] holds a Glyph built from the matrix value
    [v = matrix_df.loc[p, c]]: it stands at position [p] with character
    [c], is exactly [|v|] tall, is flipped exactly when [v < 0] and
    [flip_below] is set, has the first three components of [rgba_dict[c]]
    as colour, and carries the logo's [zorder] and [ax]. *)
Theorem glyph_of_matrix_cell (w w' : World) (p : Q) (c : string) (v : Q)
  (vs : list Q) :
  _compute_characters w = (Ok tt, w') ->
  distinct_positions (ps (self w)) ->
  NoDup (cs (self w)) ->
  df_columns (matrix_df (self w)) = cs (self w) ->
  In p (ps (self w)) ->
  row_ready (self w) p vs ->
  df_loc (matrix_df (self w)) p c = Ok v ->
  exists g,
    frame_get p c (glyph_df (self w')) = Some g
    /\ glyph_of (self w) p v c g.
Proof.
  intros Hrun Hps Hcs Hcols Hp Hready Hloc.
  unfold _compute_characters, bind, get_self, lift, modify_self in Hrun.
  destruct (compute_rows (self w) (ps (self w)) empty_frame) as [gdf | e]
    eqn:Hrows; [| discriminate].
  injection Hrun as <-. simpl.
  destruct (row_glyphs_cell _ _ _ _ _ Hready Hcols Hloc)
    as (gs & g & Hgs & Hg & Hof).
  exists g. split; [| exact Hof].
  pose proof (row_glyphs_labels_NoDup _ _ _ _ Hready Hcs Hgs) as Hnd.
  pose proof (compute_rows_stored _ _ _ _ Hrows Hps p gs Hp Hgs Hnd g Hg)
    as Hget.
  destruct Hof as (_ & Hc & _). now rewrite Hc in Hget.
Qed.

End Cells.

Lemma glyph_of_matrix_cell_witness :
  exists g,
    frame_get 1 "C"
      (glyph_df (self (snd (@_compute_characters stable_externals
                              undrawn_world))))
    = Some g
    /\ @glyph_of stable_externals (self undrawn_world) 1 (- (1 # 4)) "C" g.
Proof.
  apply (@glyph_of_matrix_cell stable_externals undrawn_world
           (snd (@_compute_characters stable_externals undrawn_world))
           1 "C" (- (1 # 4)) [1 # 2; - (1 # 4); 3; 1]).
  - vm_compute. reflexivity.
  - vm_compute. repeat constructor.
  - vm_compute. repeat constructor; simpl; intuition discriminate.
  - vm_compute. reflexivity.
  - vm_compute. right. left. reflexivity.
  - repeat split; vm_compute; reflexivity.
  - vm_compute. reflexivity.
Defined.

(* ================================================================= *)
(** * One glyph per matrix cell *)

Lemma mem_str_In (c : string) (l : list string) :
  mem_str c l = true <-> In c l.
Proof.
  unfold mem_str. rewrite existsb_exists. split.
  - intros (x & Hx & Heq). apply String.eqb_eq in Heq. now subst.
  - intros H. exists c. split; [exact H | apply String.eqb_refl].
Qed.

Lemma mem_Q_app (p : Q) (l1 l2 : list Q) :
  mem_Q p (l1 ++ l2) = mem_Q p l1 || mem_Q p l2.
Proof. unfold mem_Q. apply existsb_app. Qed.

Lemma mem_Q_self (p : Q) : mem_Q p [p] = true.
Proof.
  unfold mem_Q. simpl. rewrite orb_false_r. apply Qeq_bool_iff. reflexivity.
Qed.

Lemma store_row_index_old (gs : list Glyph.Glyph) (p : Q) :
  forall gdf,
    Forall (fun g => Glyph.p g = p) gs ->
    mem_Q p (gf_index gdf) = true ->
    gf_index (store_row gs gdf) = gf_index gdf.
Proof.
  induction gs as [| g gs IH]; intros gdf Hall Hmem; [reflexivity |].
  apply Forall_cons_iff in Hall. destruct Hall as [Hg Hall].
  change (store_row (g :: gs) gdf)
    with (store_row gs (frame_set (Glyph.p g) (Glyph.c g) g gdf)).
  rewrite IH; [| exact Hall |]; unfold frame_set; simpl; now rewrite Hg, Hmem.
Qed.

Lemma store_row_index_new (gs : list Glyph.Glyph) (p : Q) (gdf : GlyphFrame) :
  Forall (fun g => Glyph.p g = p) gs ->
  gs <> [] ->
  mem_Q p (gf_index gdf) = false ->
  gf_index (store_row gs gdf) = gf_index gdf ++ [p].
Proof.
  intros Hall Hne Hmem. destruct gs as [| g gs]; [now destruct Hne |].
  apply Forall_cons_iff in Hall. destruct Hall as [Hg Hall].
  change (store_row (g :: gs) gdf)
    with (store_row gs (frame_set (Glyph.p g) (Glyph.c g) g gdf)).
  rewrite (store_row_index_old gs p); [| exact Hall |];
    unfold frame_set; simpl; rewrite Hg, Hmem; [reflexivity |].
  now rewrite mem_Q_app, mem_Q_self, orb_true_r.
Qed.

Lemma store_row_columns_old (gs : list Glyph.Glyph) :
  forall gdf,
    Forall (fun g => In (Glyph.c g) (gf_columns gdf)) gs ->
    gf_columns (store_row gs gdf) = gf_columns gdf.
Proof.
  induction gs as [| g gs IH]; intros gdf Hall; [reflexivity |].
  apply Forall_cons_iff in Hall. destruct Hall as [Hg Hall].
  change (store_row (g :: gs) gdf)
    with (store_row gs (frame_set (Glyph.p g) (Glyph.c g) g gdf)).
  apply mem_str_In in Hg.
  rewrite IH; unfold frame_set; simpl; rewrite Hg; [reflexivity | exact Hall].
Qed.

Lemma store_row_columns_new (gs : list Glyph.Glyph) :
  forall gdf,
    NoDup (gf_columns gdf ++ map Glyph.c gs) ->
    gf_columns (store_row gs gdf) = gf_columns gdf ++ map Glyph.c gs.
Proof.
  induction gs as [| g gs IH]; intros gdf Hnd.
  - simpl. now rewrite app_nil_r.
  - change (store_row (g :: gs) gdf)
      with (store_row gs (frame_set (Glyph.p g) (Glyph.c g) g gdf)).
    simpl map in *.
    assert (mem_str (Glyph.c g) (gf_columns gdf) = false) as Hfresh.
    { destruct (mem_str (Glyph.c g) (gf_columns gdf)) eqn:Hm; [| reflexivity].
      apply mem_str_In in Hm. exfalso.
      apply NoDup_remove_2 in Hnd. apply Hnd, in_or_app. now left. }
    assert (gf_columns (frame_set (Glyph.p g) (Glyph.c g) g gdf)
            = gf_columns gdf ++ [Glyph.c g]) as Hcols.
    { unfold frame_set. simpl. now rewrite Hfresh. }
    rewrite IH; rewrite Hcols, <- app_assoc; [reflexivity | exact Hnd].
Qed.

Lemma ravel_full (f : GlyphFrame) :
  (forall p c, In p (gf_index f) -> In c (gf_columns f) ->
               frame_get p c f <> None) ->
  List.length (frame_ravel f)
  = (List.length (gf_index f) * List.length (gf_columns f))%nat.
Proof.
  unfold frame_ravel. generalize (gf_index f) as index.
  induction index as [| p index IH]; intros Hfull; [reflexivity |].
  simpl. rewrite length_app, IH by (intros q c Hq; apply Hfull; now right).
  f_equal.
  assert (forall c, In c (gf_columns f) -> frame_get p c f <> None) as Hrow.
  { intros c. apply Hfull. now left. }
  clear -Hrow. induction (gf_columns f) as [| c cols IH]; [reflexivity |].
  simpl. rewrite length_app, IH by (intros c' Hc'; apply Hrow; now right).
  destruct (frame_get p c f) eqn:Hget; [reflexivity |].
  exfalso. apply (Hrow c); [now left | exact Hget].
Qed.

Section Count.

Context {E : Externals}.

Lemma in_stacking_chars (chars : list string) (vs : list Q) (c : string) :
  is_argsort vs (np_argsort vs) = true ->
  List.length chars = List.length vs ->
  In c chars <-> In c (stacking_chars chars vs).
Proof.
  intros Hsort Hlen. unfold stacking_chars. split.
  - intros Hc. destruct (In_nth _ _ EmptyString Hc) as (j & Hj & <-).
    apply in_map_iff. exists j. split; [reflexivity |].
    apply (Permutation_in _ (Permutation_sym (is_argsort_perm _ _ Hsort))).
    apply in_seq. lia.
  - intros Hc. apply in_map_iff in Hc. destruct Hc as (j & <- & Hj).
    apply nth_In. rewrite Hlen.
    pose proof (is_argsort_bound _ _ Hsort) as Hb.
    rewrite Forall_forall in Hb. now apply Hb.
Qed.

(** Rows stored after the first one add positions to the index and no
    column. *)
Lemma compute_rows_labels (l : Logo) (positions : list Q) :
  cs l <> [] ->
  forall gdf0 gdf,
    compute_rows l positions gdf0 = Ok gdf ->
    (forall p, In p positions -> exists vs, row_ready l p vs) ->
    distinct_positions positions ->
    Forall (fun q => mem_Q q (gf_index gdf0) = false) positions ->
    (forall c, In c (cs l) -> In c (gf_columns gdf0)) ->
    gf_index gdf = gf_index gdf0 ++ positions
    /\ gf_columns gdf = gf_columns gdf0.
Proof.
  intros Hcs.
  induction positions as [| p positions IH];
    intros gdf0 gdf H Hready Hpairs Hfresh Hcols.
  - simpl in H. injection H as <-. now rewrite app_nil_r.
  - rewrite compute_rows_step in H.
    destruct (Hready p (or_introl eq_refl)) as [vs Hvs].
    pose proof Hvs as (_ & Hlen & _ & _ & Hsort).
    destruct (row_glyphs_ready l p vs Hvs) as (gs & Hgs & HS & Hc & Hp).
    rewrite Hgs in H.
    apply Forall_cons_iff in Hfresh. destruct Hfresh as [Hp0 Hfresh].
    inversion Hpairs as [| ? ? Hhead Htail]; subst.
    assert (gs <> []) as Hne.
    { intros ->. simpl in Hc. unfold stacking_chars in Hc.
      symmetry in Hc. apply map_eq_nil in Hc.
      pose proof (is_argsort_length _ _ Hsort) as Hl.
      rewrite Hc in Hl. simpl in Hl.
      destruct (cs l); [now apply Hcs | simpl in Hlen; lia]. }
    assert (gf_columns (store_row gs gdf0) = gf_columns gdf0) as Hsame.
    { apply store_row_columns_old. apply Forall_forall. intros g Hg.
      apply Hcols. apply (in_stacking_chars (cs l) vs); [exact Hsort | exact Hlen |].
      rewrite <- Hc. now apply in_map. }
    pose proof (store_row_index_new gs p gdf0 Hp Hne Hp0) as Hindex.
    destruct (IH (store_row gs gdf0) gdf H) as [Hi Hc'].
    + intros q Hq. apply Hready. now right.
    + exact Htail.
    + rewrite Hindex. apply Forall_forall. intros q Hq.
      rewrite mem_Q_app. rewrite Forall_forall in Hfresh, Hhead.
      rewrite (Hfresh q Hq). unfold mem_Q. simpl.
      now rewrite (Hhead q Hq).
    + now rewrite Hsame.
    + split.
      * rewrite Hi, Hindex, <- app_assoc. reflexivity.
      * now rewrite Hc'.
Qed.

(** X4.  One glyph per cell.  When [_compute_characters] runs on a logo whose
    positions differ pairwise, whose characters are distinct and each of
    whose rows is ready, it completes and the frame holds exactly one Glyph
    for each position and each character: [L * C] glyphs, its index being
    the positions in matrix order. *)
Theorem one_glyph_per_cell (w : World) :
  distinct_positions (ps (self w)) ->
  NoDup (cs (self w)) ->
  (forall p, In p (ps (self w)) -> exists vs, row_ready (self w) p vs) ->
  exists w',
    _compute_characters w = (Ok tt, w')
    /\ List.length (glyph_list (self w'))
       = (List.length (ps (self w)) * List.length (cs (self w)))%nat
    /\ (cs (self w) <> [] -> gf_index (glyph_df (self w')) = ps (self w))
    /\ (forall p c, In p (ps (self w)) -> In c (cs (self w)) ->
                    frame_get p c (glyph_df (self w')) <> None).
Proof.
  intros Hps Hcs Hready. set (l := self w) in *.
  destruct (compute_rows_total l (ps l) Hready empty_frame) as [gdf Hrows].
  exists (mkWorld (set_glyph_df gdf l) (axes w) (gca w)).
  split.
  { unfold _compute_characters, bind, get_self, lift, modify_self.
    fold l. now rewrite Hrows. }
  simpl. unfold glyph_list. simpl.
  assert (forall p c, In p (ps l) -> In c (cs l) ->
                      frame_get p c gdf <> None) as Hfull.
  { intros p c Hp Hc. destruct (Hready p Hp) as [vs Hvs].
    pose proof Hvs as (_ & Hlen & _ & _ & Hsort).
    destruct (row_glyphs_ready l p vs Hvs) as (gs & Hgs & _ & Hlab & _).
    apply (in_stacking_chars (cs l) vs c Hsort Hlen) in Hc.
    rewrite <- Hlab in Hc. apply in_map_iff in Hc.
    destruct Hc as (g & <- & Hg).
    rewrite (compute_rows_stored l (ps l) empty_frame gdf Hrows Hps p gs Hp
               Hgs (row_glyphs_labels_NoDup _ _ _ _ Hvs Hcs Hgs) g Hg).
    discriminate. }
  destruct (ps l) as [| p positions] eqn:Hpositions;
    try rewrite Hpositions in Hrows.
  { simpl in Hrows. injection Hrows as <-. repeat split; auto. }
  destruct (list_eq_dec string_dec (cs l) []) as [Hnil | Hne].
  { (* no character: every stack is empty and the frame stays empty *)
    assert (forall qs gdf0 gdf1,
              (forall q, In q qs -> exists vs, row_ready l q vs) ->
              compute_rows l qs gdf0 = Ok gdf1 -> gdf1 = gdf0) as Hempty.
    { induction qs as [| q qs IH]; intros gdf0 gdf1 Hr H.
      - simpl in H. now injection H.
      - rewrite compute_rows_step in H.
        destruct (Hr q (or_introl eq_refl)) as [vs Hvs].
        destruct (row_glyphs_ready l q vs Hvs) as (gs & Hgs & _ & Hlab & _).
        pose proof Hvs as (_ & Hlen & _ & _ & Hsort).
        rewrite Hgs in H.
        assert (gs = []) as ->.
        { apply map_eq_nil with (f := Glyph.c). rewrite Hlab.
          unfold stacking_chars.
          pose proof (is_argsort_length _ _ Hsort) as Hl.
          rewrite <- Hlen, Hnil in Hl. simpl in Hl.
          apply length_zero_iff_nil in Hl. now rewrite Hl. }
        apply (IH _ _ (fun q' Hq' => Hr q' (or_intror Hq')) H). }
    rewrite (Hempty _ _ _ Hready Hrows), Hnil. simpl.
    repeat split.
    - now rewrite Nat.mul_0_r.
    - intros Habs. now destruct Habs.
    - intros q c _ []. }
  (* the first row gives the columns, the others only positions *)
  rewrite compute_rows_step in Hrows.
  destruct (Hready p (or_introl eq_refl)) as [vs Hvs].
  pose proof Hvs as (_ & Hlen & _ & _ & Hsort).
  destruct (row_glyphs_ready l p vs Hvs) as (gs & Hgs & _ & Hlab & Hp).
  pose proof Hrows as Hrest. rewrite Hgs in Hrest.
  pose proof (row_glyphs_labels_NoDup _ _ _ _ Hvs Hcs Hgs) as Hnd.
  assert (gs <> []) as Hgne.
  { intros ->. simpl in Hlab. unfold stacking_chars in Hlab.
    symmetry in Hlab. apply map_eq_nil in Hlab.
    pose proof (is_argsort_length _ _ Hsort) as Hl.
    rewrite Hlab in Hl. simpl in Hl.
    destruct (cs l); [now apply Hne | simpl in Hlen; lia]. }
  pose proof (store_row_columns_new gs empty_frame Hnd) as Hcols1.
  pose proof (store_row_index_new gs p empty_frame Hp Hgne eq_refl) as Hidx1.
  simpl in Hcols1, Hidx1.
  inversion Hps as [| ? ? Hhead Htail]; subst.
  destruct (compute_rows_labels l positions Hne _ _ Hrest) as [Hi Hc].
  - intros q Hq. apply Hready. now right.
  - exact Htail.
  - rewrite Hidx1. apply Forall_forall. intros q Hq.
    rewrite Forall_forall in Hhead. unfold mem_Q. simpl.
    now rewrite (Hhead q Hq).
  - intros c Hc. rewrite Hcols1, Hlab.
    now apply (in_stacking_chars (cs l) vs).
  - rewrite Hidx1 in Hi. rewrite Hcols1 in Hc. simpl in Hi.
    assert (List.length (gf_columns gdf) = List.length (cs l)) as Hcount.
    { rewrite Hc, Hlab. unfold stacking_chars. rewrite length_map.
      rewrite (is_argsort_length _ _ Hsort). now symmetry. }
    split; [| split; [intros _; exact Hi | exact Hfull]].
    rewrite ravel_full.
    + now rewrite Hi, Hcount.
    + intros q c Hq Hcq. apply Hfull.
      * now rewrite <- Hi.
      * rewrite Hc, Hlab in Hcq.
        now apply (in_stacking_chars (cs l) vs) in Hcq.
Qed.

End Count.

Lemma one_glyph_per_cell_witness :
  exists w',
    @_compute_characters stable_externals undrawn_world = (Ok tt, w')
    /\ List.length (glyph_list (self w'))
       = (List.length (ps (self undrawn_world))
          * List.length (cs (self undrawn_world)))%nat
    /\ (cs (self undrawn_world) <> [] ->
        gf_index (glyph_df (self w')) = ps (self undrawn_world))
    /\ (forall p c, In p (ps (self undrawn_world)) ->
                    In c (cs (self undrawn_world)) ->
                    frame_get p c (glyph_df (self w')) <> None).
Proof.
  apply (@one_glyph_per_cell stable_externals undrawn_world).
  - vm_compute. repeat constructor.
  - vm_compute. repeat constructor; simpl; intuition discriminate.
  - intros p Hp.
    assert (p = 0 \/ p = 1 \/ p = 2) as Hcases.
    { vm_compute in Hp. intuition auto. }
    destruct Hcases as [-> | [-> | ->]].
    + exists [-1; 2; -3; 4]. repeat split; vm_compute; reflexivity.
    + exists [1 # 2; - (1 # 4); 3; 1]. repeat split; vm_compute; reflexivity.
    + exists [2; 1; -1; -2]. repeat split; vm_compute; reflexivity.
Defined.

(* ================================================================= *)
(** * What the methods leave alone *)

Section Preserves.

Variable R : World -> World -> Prop.
Hypothesis R_refl : forall w, R w w.
Hypothesis R_trans : forall w1 w2 w3, R w1 w2 -> R w2 w3 -> R w1 w3.

Lemma preserves_ret {A} (a : A) : preserves R (ret a).
Proof. intros w. apply R_refl. Qed.

Lemma preserves_raise {A} (e : exn) : preserves R (@raise A e).
Proof. intros w. apply R_refl. Qed.

Lemma preserves_lift {A} (r : result A) : preserves R (lift r).
Proof. intros w. apply R_refl. Qed.

Lemma preserves_assert (b : bool) (msg : string) :
  preserves R (py_assert b msg).
Proof. destruct b; intros w; apply R_refl. Qed.

Lemma preserves_get_self : preserves R get_self.
Proof. intros w. apply R_refl. Qed.

Lemma preserves_plt_gca : preserves R plt_gca.
Proof. intros w. apply R_refl. Qed.

Lemma preserves_get_axes (h : nat) : preserves R (get_axes h).
Proof. intros w. apply R_refl. Qed.

Lemma preserves_bind {A B} (m : py A) (k : A -> py B) :
  preserves R m -> (forall a, preserves R (k a)) -> preserves R (bind m k).
Proof.
  intros Hm Hk w. unfold bind. specialize (Hm w).
  destruct (m w) as [[a | e] w1]; simpl in *.
  - apply R_trans with w1; [exact Hm | apply Hk].
  - exact Hm.
Qed.

Lemma preserves_for {A} (xs : list A) (body : A -> py unit) :
  (forall x, preserves R (body x)) -> preserves R (py_for xs body).
Proof.
  intros H. induction xs as [| x xs IH]; simpl.
  - apply preserves_ret.
  - apply preserves_bind; [apply H | intros _; exact IH].
Qed.

Lemma preserves_for_enumerate (index : list Q) (sequence : list string)
  (body : Q -> string -> py unit) :
  (forall p c, preserves R (body p c)) ->
  forall i, preserves R (for_enumerate i index sequence body).
Proof.
  intros H. induction index as [| p index IH]; intros i; simpl.
  - apply preserves_ret.
  - destruct (nth_error sequence i); [| apply preserves_raise].
    apply preserves_bind; [apply H | intros _; apply IH].
Qed.

Lemma preserves_self_ax : preserves R self_ax.
Proof.
  unfold self_ax. apply preserves_bind; [apply preserves_get_self |].
  intros l. destruct (ax l); [apply preserves_ret | apply preserves_raise].
Qed.

End Preserves.

(** Splitting a method into its statements. *)
Ltac statements Hrefl Htrans :=
  repeat match goal with
    | |- preserves _ (ret _) => apply (preserves_ret _ Hrefl)
    | |- preserves _ (raise _) => apply (preserves_raise _ Hrefl)
    | |- preserves _ (lift _) => apply (preserves_lift _ Hrefl)
    | |- preserves _ (py_assert _ _) => apply (preserves_assert _ Hrefl)
    | |- preserves _ get_self => apply (preserves_get_self _ Hrefl)
    | |- preserves _ plt_gca => apply (preserves_plt_gca _ Hrefl)
    | |- preserves _ (get_axes _) => apply (preserves_get_axes _ Hrefl)
    | |- preserves _ self_ax => apply (preserves_self_ax _ Hrefl Htrans)
    | |- preserves _ (bind _ _) =>
        apply (preserves_bind _ Htrans); [| intros ?]
    | |- preserves _ (py_for _ _) =>
        apply (preserves_for _ Hrefl Htrans); intros ?
    | |- preserves _ (for_enumerate _ _ _ _) =>
        apply (preserves_for_enumerate _ Hrefl Htrans); intros ? ?
    | |- preserves _ (match ?x with Some _ => _ | None => _ end) =>
        destruct x
    | |- preserves _ (if ?x then _ else _) => destruct x
    | |- preserves _ (let '(_, _) := ?x in _) => destruct x
    | |- preserves _ (match ?x with _ => _ end) => destruct x
    end.

Lemma maintains_refl (P : Logo -> Prop) (w : World) :
  P (self w) -> P (self w).
Proof. auto. Qed.

Lemma maintains_trans (P : Logo -> Prop) (w1 w2 w3 : World) :
  (P (self w1) -> P (self w2)) -> (P (self w2) -> P (self w3)) ->
  P (self w1) -> P (self w3).
Proof. auto. Qed.

Lemma draws_nothing_refl (w : World) : axes w = axes w /\ gca w = gca w.
Proof. auto. Qed.

Lemma draws_nothing_trans (w1 w2 w3 : World) :
  axes w2 = axes w1 /\ gca w2 = gca w1 ->
  axes w3 = axes w2 /\ gca w3 = gca w2 ->
  axes w3 = axes w1 /\ gca w3 = gca w1.
Proof. intros [-> ->] [-> ->]. auto. Qed.

Lemma draws_only_on_refl (h : nat) (w : World) :
  forall k, k <> h -> axes w k = axes w k.
Proof. auto. Qed.

Lemma draws_only_on_trans (h : nat) (w1 w2 w3 : World) :
  (forall k, k <> h -> axes w2 k = axes w1 k) ->
  (forall k, k <> h -> axes w3 k = axes w2 k) ->
  forall k, k <> h -> axes w3 k = axes w1 k.
Proof. intros H1 H2 k Hk. now rewrite H2, H1. Qed.

Lemma reads_only_refl (w : World) : self w = self w.
Proof. reflexivity. Qed.

Lemma reads_only_trans (w1 w2 w3 : World) :
  self w2 = self w1 -> self w3 = self w2 -> self w3 = self w1.
Proof. congruence. Qed.

Lemma upd_same (h : nat) (a : Axes) (s : nat -> Axes) : upd h a s h = a.
Proof. unfold upd. now rewrite Nat.eqb_refl. Qed.

Lemma upd_other (h k : nat) (a : Axes) (s : nat -> Axes) :
  k <> h -> upd h a s k = s k.
Proof. intros Hk. unfold upd. apply Nat.eqb_neq in Hk. now rewrite Hk. Qed.

Section Draw.

Context {E : Externals}.

Lemma draw_settled (a : option nat) (w : World) :
  draw a w
  = draw_on (settle_ax a w)
      (mkWorld (set_ax (Some (settle_ax a w)) (self w)) (axes w) (gca w)).
Proof.
  destruct a as [h |]; [reflexivity |].
  assert (forall h, ax (self w) = Some h ->
                    mkWorld (set_ax (Some h) (self w)) (axes w) (gca w) = w)
    as Hsame.
  { intros h Hax. destruct w as [[] ? ?]. simpl in *. now subst. }
  unfold settle_ax.
  cbv beta iota delta [draw _update_ax self_ax bind ret get_self].
  destruct (ax (self w)) as [h |] eqn:Hax.
  - rewrite (Hsame h eq_refl). cbv beta iota. rewrite Hax. reflexivity.
  - reflexivity.
Qed.

Lemma draw_on_keeps {B} (f : Logo -> B) (h : nat) :
  (forall v l, f (set_has_been_drawn v l) = f l) -> keeps f (draw_on h).
Proof.
  intros Hdrawn. unfold draw_on.
  apply keeps_bind; [apply keeps_get_axes | intros ax0].
  apply keeps_bind; [apply keeps_put_axes | intros _].
  apply keeps_bind; [apply keeps_modify; intros l'; apply Hdrawn | intros _].
  apply keeps_bind; [apply keeps_get_self | intros l1].
  apply keeps_bind; [apply keeps_for; intros g; apply keeps_draw_glyph
                    | intros _].
  apply keeps_bind; [apply keeps_modify; intros l'; apply Hdrawn | intros _].
  apply keeps_bind; [apply keeps_get_self | intros l2].
  apply keeps_bind; [apply keeps_lift | intros xmin].
  apply keeps_bind; [apply keeps_lift | intros xmax].
  apply keeps_bind; [apply keeps_set_lim | intros _].
  apply keeps_bind; [apply keeps_lift | intros ymin].
  apply keeps_bind; [apply keeps_lift | intros ymax].
  apply keeps_set_lim.
Qed.

(** Whatever its outcome, [draw] leaves the logo with the Axes it settled
    on. *)
Lemma draw_ax (a : option nat) (w : World) :
  ax (self (snd (draw a w))) = Some (settle_ax a w).
Proof.
  rewrite draw_settled.
  rewrite (draw_on_keeps ax (settle_ax a w) (fun _ _ => eq_refl)).
  reflexivity.
Qed.

Lemma draw_on_only (h : nat) : draws_only_on h (draw_on h).
Proof.
  unfold draws_only_on, draw_on, draw_glyph, set_xlim, set_ylim.
  statements (draws_only_on_refl h) (draws_only_on_trans h);
    intros w k Hk; simpl; try reflexivity; now rewrite upd_other.
Qed.

Lemma draw_only (a : option nat) (w : World) :
  forall k, k <> settle_ax a w -> axes (snd (draw a w)) k = axes w k.
Proof.
  intros k Hk. rewrite draw_settled.
  now rewrite (draw_on_only (settle_ax a w) _ k Hk).
Qed.

End Draw.

Section DrawOutcome.

Context {E : Externals}.

Lemma for_draw_glyph_self (h : nat) (gs : list Glyph.Glyph) (w : World) :
  self (snd (py_for gs (draw_glyph h) w)) = self w
  /\ gca (snd (py_for gs (draw_glyph h) w)) = gca w.
Proof.
  revert w. induction gs as [| g gs IH]; intros w; simpl; [now split |].
  assert (self (snd (draw_glyph h g w)) = self w
          /\ gca (snd (draw_glyph h g w)) = gca w) as [Hs Hg].
  { unfold draw_glyph, bind, get_axes, put_axes, lift.
    destruct (Glyph_draw g (axes w h)) as [[[] | e] a']; now split. }
  unfold bind. destruct (draw_glyph h g w) as [[[] | e] w1]; simpl in *.
  - destruct (IH w1) as [-> ->]. now split.
  - now split.
Qed.

Lemma draw_Ok_outcome (a : option nat) (w w' : World) :
  draw a w = (Ok tt, w') ->
  self w' = set_has_been_drawn true (set_ax (Some (settle_ax a w)) (self w))
  /\ gca w' = gca w
  /\ (forall k, k <> settle_ax a w -> axes w' k = axes w k)
  /\ exists a1 a2 left right bottom top,
       In left (glyph_list (self w)) /\ In right (glyph_list (self w))
       /\ In bottom (glyph_list (self w)) /\ In top (glyph_list (self w))
       /\ ax_xlim (axes w' (settle_ax a w))
          = Axes_xlim_stored a1
              (Glyph.p left - (5 # 10) * Glyph.width left,
               Glyph.p right + (5 # 10) * Glyph.width right)
       /\ ax_ylim (axes w' (settle_ax a w))
          = Axes_ylim_stored a2 (Glyph.floor bottom, Glyph.ceiling top)
       /\ forall g, In g (glyph_list (self w)) ->
            Glyph.p left - (5 # 10) * Glyph.width left
            <= Glyph.p g - (5 # 10) * Glyph.width g
            /\ Glyph.p g + (5 # 10) * Glyph.width g
               <= Glyph.p right + (5 # 10) * Glyph.width right
            /\ Glyph.floor bottom <= Glyph.floor g
            /\ Glyph.ceiling g <= Glyph.ceiling top.
Proof.
  intros H.
  assert (forall k, k <> settle_ax a w -> axes w' k = axes w k) as Hother.
  { intros k Hk. pose proof (draw_only a w k Hk) as Ho.
    now rewrite H in Ho. }
  rewrite draw_settled in H. set (h := settle_ax a w) in *.
  unfold draw_on in H.
  apply bind_Ok_inv in H. destruct H as (a0 & w1 & H1 & H).
  apply bind_Ok_inv in H. destruct H as ([] & w2 & H2 & H).
  apply bind_Ok_inv in H. destruct H as ([] & w3 & H3 & H).
  apply bind_Ok_inv in H. destruct H as (l3 & w4 & H4 & H).
  apply bind_Ok_inv in H. destruct H as ([] & w5 & H5 & H).
  apply bind_Ok_inv in H. destruct H as ([] & w6 & H6 & H).
  apply bind_Ok_inv in H. destruct H as (l6 & w7 & H7 & H).
  apply bind_Ok_inv in H. destruct H as (xmin & w8 & H8 & H).
  apply bind_Ok_inv in H. destruct H as (xmax & w9 & H9 & H).
  apply bind_Ok_inv in H. destruct H as ([] & w10 & H10 & H).
  apply bind_Ok_inv in H. destruct H as (ymin & w11 & H11 & H).
  apply bind_Ok_inv in H. destruct H as (ymax & w12 & H12 & H).
  unfold get_axes in H1. injection H1 as <- <-.
  unfold put_axes in H2. injection H2 as <-.
  unfold modify_self in H3. injection H3 as <-.
  unfold get_self in H4. injection H4 as <- <-.
  match type of H5 with
  | py_for ?gs _ ?w0 = _ =>
      pose proof (for_draw_glyph_self h gs w0) as [Hself Hgca];
      rewrite H5 in Hself, Hgca; simpl in Hself, Hgca
  end.
  unfold modify_self in H6. injection H6 as <-.
  unfold get_self in H7. injection H7 as <- <-.
  unfold lift in H8, H9, H11, H12.
  injection H8 as H8 <-. injection H9 as H9 <-.
  unfold set_xlim, bind, get_axes, put_axes in H10. injection H10 as <-.
  injection H11 as H11 <-. injection H12 as H12 <-.
  unfold set_ylim, bind, get_axes, put_axes in H. injection H as <-.
  simpl in *. rewrite Hself in *.
  change (glyph_list (set_has_been_drawn true
            (set_has_been_drawn false (set_ax (Some h) (self w)))))
    with (glyph_list (self w)) in *.
  split; [reflexivity |]. split; [exact Hgca |]. split; [exact Hother |].
  apply py_min_spec in H8, H11. apply py_max_spec in H9, H12.
  destruct H8 as [Hl Hlmin]. destruct H9 as [Hr Hrmax].
  destruct H11 as [Hb Hbmin]. destruct H12 as [Ht Htmax].
  apply in_map_iff in Hl, Hr, Hb, Ht.
  destruct Hl as (left & <- & Hl). destruct Hr as (right & <- & Hr).
  destruct Hb as (bottom & <- & Hb). destruct Ht as (top & <- & Ht).
  eexists. eexists. exists left, right, bottom, top.
  repeat (split; [assumption |]).
  rewrite !upd_same. simpl.
  split; [reflexivity |]. split; [reflexivity |].
  intros g Hg. repeat split.
  - apply Hlmin.
    now apply (in_map (fun g => Glyph.p g - (5 # 10) * Glyph.width g)).
  - apply Hrmax.
    now apply (in_map (fun g => Glyph.p g + (5 # 10) * Glyph.width g)).
  - apply Hbmin. now apply in_map.
  - apply Htmax. now apply in_map.
Qed.


(** X6.  How [draw] can fail.  It fails only with the exception of a glyph that
    could not be drawn, and then the logo does not count as drawn, or, when
    the logo has no glyph at all, with the ValueError of [min] on an empty
    list, and then the logo already counts as drawn.  In both cases the
    logo holds the Axes [draw] settled on. *)
Theorem draw_failure (a : option nat) (w w' : World) (e : exn) :
  draw a w = (Raise e, w') ->
  ax (self w') = Some (settle_ax a w)
  /\ ((has_been_drawn (self w') = false /\ glyph_list (self w) <> [])
      \/ (has_been_drawn (self w') = true /\ glyph_list (self w) = []
          /\ e = ValueError "min() arg is an empty sequence")).
Proof.
  intros H. split.
  { pose proof (draw_ax a w) as Hax. now rewrite H in Hax. }
  rewrite draw_settled in H. set (h := settle_ax a w) in *.
  unfold draw_on in H.
  cbv beta iota delta [bind get_axes put_axes modify_self get_self] in H.
  cbn [self axes gca] in H.
  change (glyph_list (set_has_been_drawn false (set_ax (Some h) (self w))))
    with (glyph_list (self w)) in H.
  match type of H with
  | context [py_for ?gs ?body ?w0] =>
      pose proof (for_draw_glyph_self h gs w0) as [Hself _];
      destruct (py_for gs body w0) as [[[] | e0] w1] eqn:Hfor
  end.
  - (* every glyph was drawn *)
    simpl in Hself. right.
    change (glyph_list (set_has_been_drawn true (self w1)))
      with (glyph_list (self w1)) in H.
    rewrite Hself in H.
    change (glyph_list (set_has_been_drawn false (set_ax (Some h) (self w))))
      with (glyph_list (self w)) in H.
    destruct (glyph_list (self w)) as [| g gs] eqn:Hgs.
    + simpl in H. unfold lift in H. injection H as <- <-. auto.
    + exfalso. simpl in H.
      unfold lift, set_xlim, set_ylim, bind, get_axes, put_axes in H.
      simpl in H. discriminate.
  - left. injection H as <- <-. simpl in Hself. rewrite Hself. simpl.
    split; [reflexivity |].
    intros Hnil. rewrite Hnil in Hfor. simpl in Hfor. discriminate.
Qed.

End DrawOutcome.


Lemma draw_failure_witness :
  ax (self (snd (@draw stable_externals (Some 3%nat) blank_world)))
  = Some (settle_ax (Some 3%nat) blank_world)
  /\ ((has_been_drawn
         (self (snd (@draw stable_externals (Some 3%nat) blank_world)))
       = false
       /\ glyph_list (self blank_world) <> [])
      \/ (has_been_drawn
            (self (snd (@draw stable_externals (Some 3%nat) blank_world)))
          = true
          /\ glyph_list (self blank_world) = []
          /\ ValueError "min() arg is an empty sequence"
             = ValueError "min() arg is an empty sequence")).
Proof.
  apply (@draw_failure stable_externals (Some 3%nat) blank_world
           (snd (@draw stable_externals (Some 3%nat) blank_world))
           (ValueError "min() arg is an empty sequence")).
  vm_compute. reflexivity.
Defined.

(* ================================================================= *)
(** * A drawn logo has its Axes *)

Lemma maintains_Ok {A} (P : Logo -> Prop) (m : py A) (w w' : World) (a : A) :
  maintains P m -> P (self w) -> m w = (Ok a, w') -> P (self w').
Proof.
  intros Hm HP H. specialize (Hm w HP). now rewrite H in Hm.
Qed.

Section Invariant.

Context {E : Externals}.

Lemma maintains_draw (a : option nat) : maintains drawn_has_axes (draw a).
Proof.
  intros w _ _. rewrite draw_ax. discriminate.
Qed.

Lemma maintains_call (call : method_call) :
  maintains drawn_has_axes (run call).
Proof.
  destruct call; simpl;
    unfold style_glyphs, style_glyphs_below, style_glyphs_in_sequence,
      style_single_glyph, highlight_position, highlight_position_range,
      draw_baseline, style_xticks, style_spines, mutate_glyph,
      _compute_characters, _update_ax, set_xticks, set_xticklabels,
      set_spines, add_patch, axhline, maintains;
    statements (maintains_refl drawn_has_axes)
               (maintains_trans drawn_has_axes);
    try apply maintains_draw;
    try (intros w HP; exact HP);
    try (intros w HP Hd; simpl in *; first [discriminate | exact (HP Hd)]).
Qed.

Lemma reachable_invariant (w : World) :
  reachable w -> drawn_has_axes (self w).
Proof.
  induction 1 as [matrix ax0 neg cen col flip v z dn w0 w H
                 | call w _ IH | w axes' gca' _ IH].
  - unfold __init__ in H.
    apply bind_Ok_inv in H. destruct H as ([] & w1 & _ & H).
    apply bind_Ok_inv in H. destruct H as (df & w2 & _ & H).
    cbv zeta in H.
    apply bind_Ok_inv in H. destruct H as ([] & w3 & Hput & H).
    unfold put_self in Hput. injection Hput as <-.
    refine (maintains_Ok drawn_has_axes _ _ _ _ _ _ H).
    + unfold maintains, _compute_characters.
      statements (maintains_refl drawn_has_axes)
                 (maintains_trans drawn_has_axes);
        try apply maintains_draw;
        intros w' HP Hd; simpl in *; exact (HP Hd).
    + intros Hd. discriminate.
  - now apply maintains_call.
  - exact IH.
Qed.

Lemma reachable_drawn_ax (w : World) :
  reachable w -> has_been_drawn (self w) = true ->
  exists h, ax (self w) = Some h.
Proof.
  intros Hreach Hd. pose proof (reachable_invariant w Hreach) as Hinv.
  destruct (ax (self w)) as [h |] eqn:Hax; [now exists h |].
  exfalso. now apply Hinv.
Qed.

(** X7.  The logo of every reachable state that counts as drawn holds an Axes:
    after a completed construction and any sequence of method calls,
    whether they return or raise, [has_been_drawn] implies that [self.ax]
    is not None. *)
Theorem drawn_logo_has_axes (w : World) :
  reachable w ->
  has_been_drawn (self w) = true -> exists h, ax (self w) = Some h.
Proof.
  exact (reachable_drawn_ax w).
Qed.

End Invariant.

Lemma drawn_logo_has_axes_witness :
  exists h, ax (self drawn_world) = Some h.
Proof.
  apply (@drawn_logo_has_axes stable_externals drawn_world).
  - apply (@reachable_init stable_externals (ArgDataFrame df_mixed) None
             false false None true (1 # 2) 0 true blank_world).
    vm_compute. reflexivity.
  - vm_compute. reflexivity.
Defined.

(* ================================================================= *)
(** * The methods that decorate a drawn logo *)

Ltac run_cases :=
  repeat (simpl;
          match goal with
          | |- context [if ?b then _ else _] => destruct b eqn:?
          | |- context [match ?x with Some _ => _ | None => _ end] =>
              destruct x eqn:?
          | |- context [match ?x with Ok _ => _ | Raise _ => _ end] =>
              destruct x eqn:?
          | |- context [ax_ylim ?a] => destruct (ax_ylim a) eqn:?
          end).

Ltac other_axes k :=
  unfold upd;
  let Hkh := fresh "Hkh" in
  destruct (Nat.eqb k _) eqn:Hkh;
  [exfalso; apply Nat.eqb_eq in Hkh; congruence | reflexivity].

Ltac own_axes :=
  simpl; repeat split; try reflexivity; intros;
  match goal with
  | |- upd _ _ _ ?k = _ => other_axes k
  end.

Section Decorations.

Context {E : Externals}.

(** X8.  The five methods for a drawn logo only decorate: whatever their
    arguments and their outcome, [highlight_position],
    [highlight_position_range], [draw_baseline], [style_xticks] and
    [style_spines] change nothing of the logo, neither an attribute nor a
    glyph, and touch no Axes other than [self.ax]. *)
Theorem decorations_touch_own_axes_only :
  (forall p padding color edgecolor floor ceiling zorder kw,
     decorates
       (highlight_position p padding color edgecolor floor ceiling zorder kw))
  /\ (forall pmin pmax padding color edgecolor floor ceiling zorder kw,
        decorates
          (highlight_position_range pmin pmax padding color edgecolor floor
             ceiling zorder kw))
  /\ (forall zorder color linewidth kw,
        decorates (draw_baseline zorder color linewidth kw))
  /\ (forall anchor spacing fmt rotation kw,
        decorates (style_xticks anchor spacing fmt rotation kw))
  /\ (forall spines visible linewidth color bounds,
        decorates (style_spines spines visible linewidth color bounds)).
Proof.
  unfold decorates; repeat split; intros;
    unfold highlight_position, highlight_position_range, draw_baseline,
      style_xticks, style_spines, self_ax, add_patch, axhline, set_xticks,
      set_xticklabels, set_spines, bind, get_self, get_axes, put_axes,
      py_assert, lift, ret, raise;
    run_cases; own_axes.
Qed.

(** X9.  [highlight_position(p, ...)] is [highlight_position_range(p, p, ...)]:
    in every state, drawn or not, the two calls have the same outcome and
    the same effect. *)
Theorem highlight_position_is_range (p padding : Q) (color : Color)
  (edgecolor : option Color) (floor ceiling : option Q) (zorder : Q)
  (kw : kwargs) (w : World) :
  highlight_position p padding color edgecolor floor ceiling zorder kw w
  = highlight_position_range p p padding color edgecolor floor ceiling zorder
      kw w.
Proof.
  unfold highlight_position, bind at 1 2, get_self at 1.
  destruct (has_been_drawn (self w)) eqn:Hd; simpl.
  - reflexivity.
  - unfold highlight_position_range, bind, get_self. now rewrite Hd.
Qed.

(** X10.  On a reachable logo that counts as drawn, [draw_baseline] always
    returns: it appends one line, with the zorder, colour and line width
    given, to the lines of [self.ax] and changes nothing else of that
    Axes. *)
Theorem draw_baseline_returns (zorder : Q) (color : Color) (linewidth : Q)
  (kw : kwargs) (w : World) :
  reachable w -> has_been_drawn (self w) = true ->
  exists h w' line,
    ax (self w) = Some h
    /\ draw_baseline zorder color linewidth kw w = (Ok tt, w')
    /\ ax_lines (axes w' h) = ax_lines (axes w h) ++ [line]
    /\ hl_zorder line = zorder /\ hl_color line = color
    /\ hl_linewidth line = linewidth /\ hl_kwargs line = kw
    /\ ax_patches (axes w' h) = ax_patches (axes w h)
    /\ ax_xlim (axes w' h) = ax_xlim (axes w h)
    /\ ax_ylim (axes w' h) = ax_ylim (axes w h)
    /\ ax_xticks (axes w' h) = ax_xticks (axes w h)
    /\ ax_spines (axes w' h) = ax_spines (axes w h)
    /\ ax_glyphs (axes w' h) = ax_glyphs (axes w h).
Proof.
  intros Hreach Hd.
  destruct (reachable_drawn_ax w Hreach Hd) as [h Hax].
  exists h.
  unfold draw_baseline, self_ax, axhline, bind, get_self, get_axes, put_axes,
    py_assert, ret.
  rewrite Hd, Hax. simpl.
  eexists. exists (mkHLine 0 zorder color linewidth kw).
  split; [reflexivity |]. split; [reflexivity |].
  simpl. rewrite upd_same. simpl. repeat split.
Qed.

End Decorations.

Lemma draw_baseline_returns_witness :
  exists h w' line,
    ax (self drawn_world) = Some h
    /\ draw_baseline 0 (ColorName "black") 1 [] drawn_world = (Ok tt, w')
    /\ ax_lines (axes w' h) = ax_lines (axes drawn_world h) ++ [line]
    /\ hl_zorder line = 0 /\ hl_color line = ColorName "black"
    /\ hl_linewidth line = 1 /\ hl_kwargs line = []
    /\ ax_patches (axes w' h) = ax_patches (axes drawn_world h)
    /\ ax_xlim (axes w' h) = ax_xlim (axes drawn_world h)
    /\ ax_ylim (axes w' h) = ax_ylim (axes drawn_world h)
    /\ ax_xticks (axes w' h) = ax_xticks (axes drawn_world h)
    /\ ax_spines (axes w' h) = ax_spines (axes drawn_world h)
    /\ ax_glyphs (axes w' h) = ax_glyphs (axes drawn_world h).
Proof.
  apply (@draw_baseline_returns stable_externals 0 (ColorName "black") 1 []
           drawn_world).
  - apply (@reachable_init stable_externals (ArgDataFrame df_mixed) None
             false false None true (1 # 2) 0 true blank_world).
    vm_compute. reflexivity.
  - vm_compute. reflexivity.
Defined.

(* ================================================================= *)
(** * The methods that style glyphs *)

Section Styling.

Context {E : Externals}.

Lemma keeps_mutate_glyph {B} (f : Logo -> B) (k : Q * string) (kw : kwargs) :
  (forall g l, f (put_glyph k g l) = f l) -> keeps f (mutate_glyph k kw).
Proof.
  intros Hput. unfold mutate_glyph.
  apply keeps_bind; [apply keeps_get_self | intros l].
  destruct (cells_get k (gf_cells (glyph_df l))) as [g |];
    [| apply keeps_ret].
  destruct (Glyph_set_attributes kw g) as [r g'].
  apply keeps_bind; [apply keeps_modify; intros l'; apply Hput |].
  intros _. apply keeps_lift.
Qed.

Lemma keeps_style_single_glyph {B} (f : Logo -> B) (p : Q) (c : string)
  (dn : bool) (a : option nat) (kw : kwargs) :
  draw_stable f -> (forall g l, f (put_glyph (p, c) g l) = f l) ->
  keeps f (style_single_glyph p c dn a kw).
Proof.
  intros Hst Hput. unfold style_single_glyph.
  apply keeps_bind; [now apply keeps_update_ax | intros _].
  apply keeps_bind; [apply keeps_get_self | intros l].
  apply keeps_bind; [apply keeps_assert | intros _].
  apply keeps_bind; [apply keeps_assert | intros _].
  destruct (frame_get p c (glyph_df l)) as [g |]; [| apply keeps_raise].
  destruct (Glyph_set_attributes kw g) as [r g'].
  apply keeps_bind; [apply keeps_modify; intros l'; apply (Hput g' l') |].
  intros _. apply keeps_bind; [apply keeps_lift | intros _].
  destruct dn; [now apply keeps_draw | apply keeps_ret].
Qed.

Lemma style_single_glyph_sets (p : Q) (c : string) (dn : bool)
  (a : option nat) (kw : kwargs) (w : World) (g : Glyph.Glyph) :
  mem_Q p (gf_index (glyph_df (self w)))
  && mem_str c (gf_columns (glyph_df (self w))) = true ->
  frame_get p c (glyph_df (self w)) = Some g ->
  frame_get p c (glyph_df (self (snd (style_single_glyph p c dn a kw w))))
  = Some (snd (Glyph_set_attributes kw g)).
Proof.
  intros Hmem Hg. apply andb_true_iff in Hmem. destruct Hmem as [Hp Hc].
  assert (forall w0 : World,
            glyph_df (self w0) = glyph_df (self w) ->
            frame_get p c
              (glyph_df (self (snd
                 ((l <- get_self ;;
                   py_assert (mem_Q p (gf_index (glyph_df l)))
                     (String.append "Error: p="
                        (String.append (float_str p)
                           " is not a valid position")) ;;;
                   py_assert (mem_str c (gf_columns (glyph_df l)))
                     (String.append "Error: c="
                        (String.append c " is not a valid character")) ;;;
                   match frame_get p c (glyph_df l) with
                   | None =>
                       raise (AttributeError
                         "'float' object has no attribute 'set_attributes'")
                   | Some g =>
                       let '(r, g') := Glyph_set_attributes kw g in
                       modify_self (fun l =>
                         set_glyph_df
                           (mkGlyphFrame (gf_index (glyph_df l))
                              (gf_columns (glyph_df l))
                              (cells_set (p, c) g' (gf_cells (glyph_df l))))
                           l) ;;;
                       lift r ;;;
                       (if dn then draw None else ret tt)
                   end) w0))))
            = Some (snd (Glyph_set_attributes kw g))) as Htail.
  { intros w0 Hw0. unfold bind at 1, get_self at 1.
    rewrite Hw0, Hp, Hc, Hg. unfold py_assert, bind at 1 2, ret.
    destruct (Glyph_set_attributes kw g) as [r g'] eqn:Hset. simpl.
    unfold bind at 1, modify_self at 1.
    assert (forall w1 : World,
              frame_get p c (glyph_df (self w1)) = Some g' ->
              frame_get p c
                (glyph_df (self (snd
                   ((lift r ;;; (if dn then draw None else ret tt)) w1))))
              = Some g') as Hrest.
    { intros w1 Hw1. unfold bind, lift. destruct r as [[] | e]; simpl.
      - destruct dn; [| exact Hw1].
        rewrite <- Hw1.
        apply (keeps_draw (fun l => frame_get p c (glyph_df l)) None
                 (conj (fun _ _ => eq_refl) (fun _ _ => eq_refl))).
      - exact Hw1. }
    apply Hrest. unfold frame_get. simpl. rewrite Hw0.
    apply cells_get_set_same. }
  unfold style_single_glyph, bind at 1, _update_ax.
  destruct a as [h |]; [unfold modify_self | unfold ret];
    apply Htail; reflexivity.
Qed.

(** X11.  [style_single_glyph] is local.  Whatever its outcome, it leaves the
    labels of the glyph frame and every cell other than [(p, c)] as they
    are; when [p] is a position of the frame and [c] one of its characters,
    the glyph of cell [(p, c)] is the one [set_attributes] left; and when
    [p] is not a position or [c] not a character, it raises an
    AssertionError, draws nothing and changes no glyph at all. *)
Theorem style_single_glyph_local (p : Q) (c : string) (dn : bool)
  (a : option nat) (kw : kwargs) (w : World) :
  let w' := snd (style_single_glyph p c dn a kw w) in
  gf_index (glyph_df (self w')) = gf_index (glyph_df (self w))
  /\ gf_columns (glyph_df (self w')) = gf_columns (glyph_df (self w))
  /\ (forall q d, key_eqb (p, c) (q, d) = false ->
        frame_get q d (glyph_df (self w')) = frame_get q d (glyph_df (self w)))
  /\ (forall g,
        mem_Q p (gf_index (glyph_df (self w)))
        && mem_str c (gf_columns (glyph_df (self w))) = true ->
        frame_get p c (glyph_df (self w)) = Some g ->
        frame_get p c (glyph_df (self w'))
        = Some (snd (Glyph_set_attributes kw g)))
  /\ (mem_Q p (gf_index (glyph_df (self w)))
      && mem_str c (gf_columns (glyph_df (self w))) = false ->
      (exists msg,
         fst (style_single_glyph p c dn a kw w) = Raise (AssertionError msg))
      /\ glyph_df (self w') = glyph_df (self w)
      /\ has_been_drawn (self w') = has_been_drawn (self w)
      /\ axes w' = axes w).
Proof.
  cbv zeta. split; [| split; [| split; [| split]]].
  - apply (keeps_style_single_glyph (fun l => gf_index (glyph_df l)));
      [split |]; reflexivity.
  - apply (keeps_style_single_glyph (fun l => gf_columns (glyph_df l)));
      [split |]; reflexivity.
  - intros q d Hqd.
    apply (keeps_style_single_glyph (fun l => frame_get q d (glyph_df l)));
      [split; reflexivity |].
    intros g l. unfold frame_get, put_glyph. simpl.
    now apply cells_get_set_other.
  - intros g. apply style_single_glyph_sets.
  - intros Hmem.
    unfold style_single_glyph, bind, _update_ax, modify_self, ret, get_self,
      py_assert.
    destruct a as [h |]; simpl;
      destruct (mem_Q p (gf_index (glyph_df (self w)))); simpl;
      try (repeat split; eauto; fail);
      destruct (mem_str c (gf_columns (glyph_df (self w)))); simpl;
      try discriminate; repeat split; eauto.
Qed.

End Styling.

Section Sequence.

Context {E : Externals}.

Lemma style_single_glyph_Ok_drawn (p : Q) (c : string) (a : option nat)
  (kw : kwargs) (w w' : World) :
  style_single_glyph p c true a kw w = (Ok tt, w') ->
  has_been_drawn (self w') = true /\ exists h, ax (self w') = Some h.
Proof.
  unfold style_single_glyph. intros H.
  apply bind_Ok_inv in H. destruct H as ([] & w1 & _ & H).
  apply bind_Ok_inv in H. destruct H as (l & w2 & _ & H).
  apply bind_Ok_inv in H. destruct H as ([] & w3 & _ & H).
  apply bind_Ok_inv in H. destruct H as ([] & w4 & _ & H).
  destruct (frame_get p c (glyph_df l)) as [g |]; [| discriminate].
  destruct (Glyph_set_attributes kw g) as [r g'].
  apply bind_Ok_inv in H. destruct H as ([] & w5 & _ & H).
  apply bind_Ok_inv in H. destruct H as ([] & w6 & _ & H).
  destruct (draw_Ok_outcome None w6 w' H) as (-> & _).
  split; [reflexivity | now eexists].
Qed.

Lemma for_enumerate_last (Q0 : World -> Prop) (body : Q -> string -> py unit)
  (sequence : list string) :
  (forall p c w1 w2, body p c w1 = (Ok tt, w2) -> Q0 w2) ->
  forall index i w w',
    index <> [] ->
    for_enumerate i index sequence body w = (Ok tt, w') -> Q0 w'.
Proof.
  intros Hbody. induction index as [| p index IH]; intros i w w' Hne H.
  - now destruct Hne.
  - simpl in H. destruct (nth_error sequence i) as [c |]; [| discriminate].
    apply bind_Ok_inv in H. destruct H as ([] & w1 & H1 & H).
    destruct index as [| q index].
    + simpl in H. unfold ret in H. injection H as <-.
      exact (Hbody _ _ _ _ H1).
    + apply (IH (S i) w1 w'); [discriminate | exact H].
Qed.

(** X12.  Styling a sequence draws, asked or not.  [style_glyphs_in_sequence]
    styles each glyph through [style_single_glyph], whose [draw_now]
    defaults to True: when the call completes on a logo that has a position,
    the logo has been drawn on its Axes, also when the call was made with
    [draw_now=False]. *)
Theorem style_glyphs_in_sequence_draws (sequence : string) (dn : bool)
  (a : option nat) (kw : kwargs) (w w' : World) :
  style_glyphs_in_sequence sequence dn a kw w = (Ok tt, w') ->
  gf_index (glyph_df (self w)) <> [] ->
  has_been_drawn (self w') = true /\ exists h, ax (self w') = Some h.
Proof.
  unfold style_glyphs_in_sequence. intros H Hne.
  apply bind_Ok_inv in H. destruct H as ([] & w1 & H1 & H).
  assert (glyph_df (self w1) = glyph_df (self w)) as Hsame.
  { pose proof (keeps_update_ax glyph_df a
                  (conj (fun _ _ => eq_refl) (fun _ _ => eq_refl)) w) as Hk.
    now rewrite H1 in Hk. }
  apply bind_Ok_inv in H. destruct H as (l & w2 & H2 & H).
  unfold get_self in H2. injection H2 as <- <-.
  apply bind_Ok_inv in H. destruct H as ([] & w3 & H3 & H).
  assert (w3 = w1) as ->.
  { unfold py_assert in H3.
    destruct (Nat.eqb _ _); [now injection H3 | discriminate]. }
  apply bind_Ok_inv in H. destruct H as ([] & w4 & H4 & H).
  assert (self w4 = self w1) as Hself4.
  { pose proof (keeps_for (fun l => l) (tuple sequence)
                  (fun c => py_assert (mem_str c (cs (self w1)))
                              (character_msg c))
                  (fun c => keeps_assert _ _ _) w1) as Hk.
    unfold character_msg in Hk. now rewrite H4 in Hk. }
  apply bind_Ok_inv in H. destruct H as (l & w5 & H5 & H).
  unfold get_self in H5. injection H5 as <- <-.
  apply bind_Ok_inv in H. destruct H as ([] & w6 & H6 & H).
  assert (has_been_drawn (self w6) = true
          /\ exists h, ax (self w6) = Some h) as Hdrawn.
  { apply (for_enumerate_last
             (fun w0 => has_been_drawn (self w0) = true
                        /\ exists h, ax (self w0) = Some h)
             (fun p c => style_single_glyph p c true None kw)
             (tuple sequence))
      with (index := gf_index (glyph_df (self w4))) (i := 0%nat) (w := w4).
    - intros p c wa wb. apply style_single_glyph_Ok_drawn.
    - now rewrite Hself4, Hsame.
    - exact H6. }
  destruct dn.
  - destruct (draw_Ok_outcome None w6 w' H) as (-> & _).
    split; [reflexivity | now eexists].
  - unfold ret in H. injection H as <-. exact Hdrawn.
Qed.

End Sequence.

Lemma style_glyphs_in_sequence_draws_witness :
  has_been_drawn
    (self (snd (@style_glyphs_in_sequence stable_externals "ACG" false None []
                  undrawn_world)))
  = true
  /\ exists h,
       ax (self (snd (@style_glyphs_in_sequence stable_externals "ACG" false
                        None [] undrawn_world)))
       = Some h.
Proof.
  apply (@style_glyphs_in_sequence_draws stable_externals "ACG" false None []
           undrawn_world).
  - vm_compute. reflexivity.
  - vm_compute. discriminate.
Defined.

Lemma loc_rows_aux_Qeq (p q : Q) (idx : list Q) (rows : list (list Q)) :
  Qeq_bool p q = true -> loc_rows_aux p idx rows = loc_rows_aux q idx rows.
Proof.
  intros Hpq. revert rows.
  induction idx as [| i idx IH]; intros [| r rows]; simpl; try reflexivity.
  assert (Qeq_bool i p = Qeq_bool i q) as ->.
  { destruct (Qeq_bool i q) eqn:Hiq.
    - apply (Qeq_bool_trans i q p Hiq). now rewrite Qeq_bool_comm.
    - destruct (Qeq_bool i p) eqn:Hip; [| reflexivity].
      rewrite <- Hiq. symmetry. exact (Qeq_bool_trans i p q Hip Hpq). }
  destruct (Qeq_bool i q); [f_equal |]; apply IH.
Qed.

Lemma df_loc_key (df : DataFrame) (p q : Q) (c d : string) :
  key_eqb (p, c) (q, d) = true -> df_loc df p c = df_loc df q d.
Proof.
  unfold key_eqb. simpl. intros H. apply andb_true_iff in H.
  destruct H as [Hpq Hcd]. apply String.eqb_eq in Hcd. subst d.
  unfold df_loc, loc_rows. now rewrite (loc_rows_aux_Qeq p q _ _ Hpq).
Qed.

Section Below.

Context {E : Externals}.

(** X13.  [style_glyphs_below] spares what is not below.  Whatever its arguments
    and its outcome, the glyph of a cell whose matrix value is not negative
    is the one it was before the call. *)
Theorem style_glyphs_below_spares (shade fade : Q) (flip dn : bool)
  (a : option nat) (kw : kwargs) (w : World) (q : Q) (d : string) :
  (forall v, df_loc (matrix_df (self w)) q d = Ok v -> 0 <= v) ->
  frame_get q d
    (glyph_df (self (snd (style_glyphs_below shade fade flip dn a kw w))))
  = frame_get q d (glyph_df (self w)).
Proof.
  intros Hnonneg.
  set (P := fun l : Logo =>
              matrix_df l = matrix_df (self w)
              /\ frame_get q d (glyph_df l) = frame_get q d (glyph_df (self w))).
  assert (maintains P (style_glyphs_below shade fade flip dn a kw)) as Hm.
  { unfold style_glyphs_below, maintains, _update_ax.
    apply (preserves_bind _ (maintains_trans P)).
    { destruct a; intros w0 HP; exact HP. }
    intros _.
    apply (preserves_bind _ (maintains_trans P));
      [apply (preserves_get_self _ (maintains_refl P)) | intros l].
    apply (preserves_bind _ (maintains_trans P)).
    - apply (preserves_for _ (maintains_refl P) (maintains_trans P)).
      intros p.
      apply (preserves_for _ (maintains_refl P) (maintains_trans P)).
      intros c w0 [HPm HPg].
      unfold bind, get_self. rewrite HPm.
      destruct (df_loc (matrix_df (self w)) p c) as [v |] eqn:Hv;
        [| now split].
      destruct (Qltb v 0) eqn:Hneg; [| now split].
      destruct (frame_get p c (glyph_df (self w0))) as [g |];
        [| destruct (_ && _); now split].
      unfold mutate_glyph, bind, get_self.
      destruct (cells_get (p, c) (gf_cells (glyph_df (self w0)))) as [g0 |];
        [| now split].
      destruct (Glyph_set_attributes _ g0) as [r g'].
      assert (key_eqb (p, c) (q, d) = false) as Hkey.
      { destruct (key_eqb (p, c) (q, d)) eqn:Hk; [| reflexivity].
        exfalso. rewrite (df_loc_key _ _ _ _ _ Hk) in Hv.
        apply Qltb_lt in Hneg. exact (Qlt_not_le _ _ Hneg (Hnonneg v Hv)). }
      assert (P (put_glyph (p, c) g' (self w0))) as HP'.
      { split; [exact HPm |]. rewrite <- HPg.
        unfold frame_get, put_glyph. simpl.
        now apply cells_get_set_other. }
      unfold modify_self, lift. destruct r; exact HP'.
    - intros _. destruct dn; [| apply (preserves_ret _ (maintains_refl P))].
      intros w0 [HPm HPg]. split.
      + rewrite <- HPm.
        apply (keeps_draw matrix_df None
                 (conj (fun _ _ => eq_refl) (fun _ _ => eq_refl))).
      + rewrite <- HPg.
        apply (keeps_draw (fun l => frame_get q d (glyph_df l)) None
                 (conj (fun _ _ => eq_refl) (fun _ _ => eq_refl))). }
  apply (Hm w). split; reflexivity.
Qed.

End Below.

Lemma style_glyphs_below_spares_witness :
  frame_get 0 "C"
    (glyph_df (self (snd (@style_glyphs_below stable_externals (1 # 2) (1 # 2)
                            true false None [] undrawn_world))))
  = frame_get 0 "C" (glyph_df (self undrawn_world)).
Proof.
  apply (@style_glyphs_below_spares stable_externals (1 # 2) (1 # 2) true
           false None [] undrawn_world 0 "C").
  intros v Hv. vm_compute in Hv. injection Hv as <-. discriminate.
Defined.

(* ================================================================= *)
(** * What no method does *)

Section Never.

Context {E : Externals}.

(** X14.  Nothing is drawn unless asked for.  With [draw_now=False], the
    constructor, [style_glyphs], [style_glyphs_below] and
    [style_single_glyph] touch no Axes, whatever their outcome; neither do
    [_compute_characters] and [_update_ax]. *)
Theorem nothing_drawn_unless_asked :
  (forall matrix ax0 neg cen col flip v z,
     draws_nothing (__init__ matrix ax0 neg cen col flip v z false))
  /\ (forall nc a z kw, draws_nothing (style_glyphs nc false a z kw))
  /\ (forall sh fa fl a kw,
        draws_nothing (style_glyphs_below sh fa fl false a kw))
  /\ (forall p c a kw, draws_nothing (style_single_glyph p c false a kw))
  /\ draws_nothing _compute_characters
  /\ (forall a, draws_nothing (_update_ax a)).
Proof.
  split; [| split; [| split; [| split; [| split]]]]; intros;
    unfold __init__, style_glyphs, style_glyphs_below, style_single_glyph,
      mutate_glyph, _compute_characters, _update_ax, draws_nothing;
    cbv zeta;
    statements draws_nothing_refl draws_nothing_trans;
    intros w0; split; reflexivity.
Qed.

Lemma run_keeps (call : method_call) :
  keeps logo_data (run call)
  /\ (call <> Call_compute_characters -> keeps frame_labels (run call)).
Proof.
  split; [| intros Hcall];
    (change (preserves (fun w w' => logo_data (self w') = logo_data (self w))
               (run call))
     || change (preserves
                  (fun w w' => frame_labels (self w') = frame_labels (self w))
                  (run call)));
    (destruct call; try (now destruct Hcall); simpl;
     unfold style_glyphs, style_glyphs_below, style_glyphs_in_sequence,
       style_single_glyph, highlight_position, highlight_position_range,
       draw_baseline, style_xticks, style_spines, mutate_glyph,
       _compute_characters, draw, _update_ax, draw_glyph, set_xlim, set_ylim,
       set_xticks, set_xticklabels, set_spines, add_patch, axhline;
     statements (fun w : World => @eq_refl _ (logo_data (self w)))
                (fun (w1 w2 w3 : World)
                     (H1 : logo_data (self w2) = logo_data (self w1))
                     (H2 : logo_data (self w3) = logo_data (self w2)) =>
                   eq_trans H2 H1)
     || statements (fun w : World => @eq_refl _ (frame_labels (self w)))
                   (fun (w1 w2 w3 : World)
                        (H1 : frame_labels (self w2) = frame_labels (self w1))
                        (H2 : frame_labels (self w3) = frame_labels (self w2))
                      => eq_trans H2 H1));
    intros w0; reflexivity.
Qed.

(** X15.  The data of a logo are fixed by its constructor.  No method, whatever
    its arguments and its outcome, changes the matrix, the positions, the
    characters, their numbers or the parameters [negate], [center],
    [flip_below] and [vsep]; and no method other than [_compute_characters]
    changes the labels of the glyph frame. *)
Theorem methods_keep_data (call : method_call) :
  keeps logo_data (run call)
  /\ (call <> Call_compute_characters -> keeps frame_labels (run call)).
Proof.
  exact (run_keeps call).
Qed.

Lemma consistent_data (l l' : Logo) :
  logo_data l' = logo_data l -> consistent l -> consistent l'.
Proof.
  unfold logo_data, consistent. intros H (HL & HC & Hps & Hcs).
  injection H as -> -> -> -> -> _ _ _ _. auto.
Qed.

Lemma reachable_consistent (w : World) : reachable w -> consistent (self w).
Proof.
  induction 1 as [matrix ax0 neg cen col flip v z dn w0 w H
                 | call w _ IH | w axes' gca' _ IH].
  - destruct (init_Ok_attributes _ _ _ _ _ _ _ _ _ _ _ H)
      as (df & rgba & _ & _ & Hattr).
    assert (stable logo_data) as Hst by (repeat split).
    apply (consistent_data _ _ (Hattr _ logo_data Hst)).
    unfold consistent, transformed. simpl.
    destruct neg, cen; simpl; auto.
  - apply (consistent_data _ _ (proj1 (run_keeps call) w)). exact IH.
  - exact IH.
Qed.

(** X23.  The sizes and labels of a logo agree with its matrix.  In every
    reachable state, [L] is the number of rows of [matrix_df] and [C] the
    number of its columns, [ps] is its index and [cs] are its columns,
    negated and centered as the matrix may be. *)
Theorem reachable_logo_consistent (w : World) :
  reachable w ->
  L (self w) = List.length (ps (self w))
  /\ C (self w) = List.length (cs (self w))
  /\ ps (self w) = df_index (matrix_df (self w))
  /\ cs (self w) = df_columns (matrix_df (self w)).
Proof.
  intros Hreach. destruct (reachable_consistent w Hreach) as (HL & HC & Hps & Hcs).
  rewrite Hps, Hcs. auto.
Qed.

End Never.

Lemma reachable_logo_consistent_witness :
  L (self drawn_world) = List.length (ps (self drawn_world))
  /\ C (self drawn_world) = List.length (cs (self drawn_world))
  /\ ps (self drawn_world) = df_index (matrix_df (self drawn_world))
  /\ cs (self drawn_world) = df_columns (matrix_df (self drawn_world)).
Proof.
  apply (@reachable_logo_consistent stable_externals drawn_world).
  apply (@reachable_init stable_externals (ArgDataFrame df_mixed) None
           false false None true (1 # 2) 0 true blank_world).
  vm_compute. reflexivity.
Defined.

(* ================================================================= *)
(** * The transform step of the constructor *)

Lemma Forall2_map_same {A B} (R : B -> B -> Prop) (f g : A -> B)
  (l : list A) :
  (forall x, In x l -> R (f x) (g x)) -> Forall2 R (map f l) (map g l).
Proof.
  induction l as [| a l IH]; intros H; simpl; constructor.
  - apply H. now left.
  - apply IH. intros x Hx. apply H. now right.
Qed.

Lemma Forall2_map_left {A} (R : A -> A -> Prop) (f : A -> A) (l : list A) :
  (forall x, In x l -> R (f x) x) -> Forall2 R (map f l) l.
Proof.
  induction l as [| a l IH]; intros H; simpl; constructor.
  - apply H. now left.
  - apply IH. intros x Hx. apply H. now right.
Qed.

Lemma map_fix {A} (f : A -> A) (l : list A) :
  (forall x, f x = x) -> map f l = l.
Proof.
  intros H. induction l as [| a l IH]; simpl; [reflexivity |].
  now rewrite H, IH.
Qed.

Lemma Qopp_opp_eq (x : Q) : Qopp (Qopp x) = x.
Proof.
  destruct x as [n d]. unfold Qopp. simpl. now rewrite Z.opp_involutive.
Qed.

Lemma py_sum_opp (row : list Q) : py_sum (map Qopp row) == - py_sum row.
Proof.
  induction row as [| x row IH]; simpl.
  - rewrite py_sum_nil. ring.
  - rewrite !py_sum_cons, IH. ring.
Qed.

Lemma row_mean_opp (row : list Q) :
  row_mean (map Qopp row) == - row_mean row.
Proof.
  unfold row_mean. rewrite py_sum_opp, length_map.
  unfold Qdiv. ring.
Qed.

Lemma row_mean_centered (row : list Q) :
  row_mean (map (fun v => v - row_mean row) row) == 0.
Proof.
  unfold row_mean at 1. rewrite centered_row_sum.
  unfold Qdiv. ring.
Qed.

(** X16.  The transforms of the constructor.  Negating twice gives the matrix
    back; centering a centered matrix changes no value; and centering the
    negated matrix, as the constructor does when both [negate] and [center]
    are set, gives the values of negating the centered one. *)
Theorem transforms_compose (df : DataFrame) :
  df_neg (df_neg df) = df
  /\ same_values (df_values (df_center (df_center df)))
       (df_values (df_center df))
  /\ same_values (df_values (transformed true true df))
       (df_values (df_neg (df_center df))).
Proof.
  split; [| split].
  - destruct df as [index columns values]. unfold df_neg. simpl. f_equal.
    rewrite map_map. apply map_fix. intros row. rewrite map_map.
    apply map_fix. apply Qopp_opp_eq.
  - unfold df_center, same_values. simpl.
    apply Forall2_map_left. intros row0 Hrow0.
    apply in_map_iff in Hrow0. destruct Hrow0 as (row & <- & _).
    apply Forall2_map_left. intros v _.
    rewrite row_mean_centered. ring.
  - unfold transformed, df_center, df_neg, same_values. simpl.
    rewrite !map_map. apply Forall2_map_same. intros row _.
    rewrite !map_map. apply Forall2_map_same. intros v _.
    rewrite row_mean_opp. ring.
Qed.

(* ================================================================= *)
(** * What a completed construction leaves *)

Section Constructed.

Context {E : Externals}.

(** X17.  The constructor draws exactly when asked.  After a completed
    construction the logo counts as drawn if and only if [draw_now] was
    set; with [draw_now] its Axes is the [ax] given, or pyplot's current
    Axes when none was given, and without it [self.ax] is the [ax] given,
    None included, and no Axes has been touched. *)
Theorem constructor_draws_on_request (matrix : matrix_arg)
  (ax0 : option nat) (neg cen : bool) (col : option color_scheme)
  (flip : bool) (v z : Q) (dn : bool) (w w' : World) :
  __init__ matrix ax0 neg cen col flip v z dn w = (Ok tt, w') ->
  has_been_drawn (self w') = dn
  /\ ax (self w')
     = (if dn
        then Some (match ax0 with Some h => h | None => gca w end)
        else ax0)
  /\ (dn = false -> axes w' = axes w).
Proof.
  unfold __init__. intros H.
  apply bind_Ok_inv in H. destruct H as ([] & w1 & H1 & H).
  assert (w1 = w) as ->.
  { unfold py_assert in H1. destruct matrix; simpl in H1;
      [now injection H1 | now injection H1 | discriminate]. }
  apply bind_Ok_inv in H. destruct H as (df & w2 & H2 & H).
  assert (w2 = w) as ->.
  { destruct matrix; simpl in H2; unfold lift, ret in H2;
      [now injection H2 | now injection H2 | discriminate]. }
  cbv zeta in H.
  apply bind_Ok_inv in H. destruct H as ([] & w3 & Hput & H).
  unfold put_self in Hput. injection Hput as <-.
  apply bind_Ok_inv in H. destruct H as ([] & w4 & Hneg & H).
  apply bind_Ok_inv in H. destruct H as ([] & w5 & Hcen & H).
  apply bind_Ok_inv in H. destruct H as (rgba & w6 & Hrgba & H).
  apply bind_Ok_inv in H. destruct H as ([] & w7 & Hset & H).
  apply bind_Ok_inv in H. destruct H as ([] & w8 & Hcomp & H).
  assert (has_been_drawn (self w8) = false /\ ax (self w8) = ax0
          /\ axes w8 = axes w /\ gca w8 = gca w) as (Hd & Hax & Haxes & Hgca).
  { unfold _compute_characters, bind, get_self, lift, modify_self in Hcomp.
    destruct (compute_rows _ _ _) as [gdf |]; [| discriminate].
    injection Hcomp as <-.
    unfold modify_self in Hset. injection Hset as <-.
    unfold lift in Hrgba. injection Hrgba as _ <-.
    destruct neg, cen; simpl in Hneg, Hcen;
      unfold modify_self, ret in Hneg, Hcen;
      injection Hneg as <-; injection Hcen as <-; simpl; auto. }
  destruct dn.
  - destruct (draw_Ok_outcome None w8 w' H) as (-> & _).
    simpl. unfold settle_ax. rewrite Hax, Hgca.
    split; [reflexivity | split; [destruct ax0; reflexivity | discriminate]].
  - unfold ret in H. injection H as <-. auto.
Qed.

End Constructed.

Lemma constructor_draws_on_request_witness :
  has_been_drawn (self drawn_world) = true
  /\ ax (self drawn_world)
     = Some (match @None nat with Some h => h | None => gca blank_world end)
  /\ (true = false -> axes drawn_world = axes blank_world).
Proof.
  apply (@constructor_draws_on_request stable_externals (ArgDataFrame df_mixed)
           None false false None true (1 # 2) 0 true blank_world drawn_world).
  vm_compute. reflexivity.
Defined.

(* ================================================================= *)
(** * Styling the spines *)

Lemma Forall2_map_right {A} (R : A -> A -> Prop) (f : A -> A) (l : list A) :
  (forall x, In x l -> R x (f x)) -> Forall2 R l (map f l).
Proof.
  induction l as [| a l IH]; intros H; simpl; constructor.
  - apply H. now left.
  - apply IH. intros x Hx. apply H. now right.
Qed.

Section Spines.

Context {E : Externals}.

(** X18.  [style_spines] on a reachable logo that counts as drawn always
    returns.  The spines of [self.ax] keep their names and their order;
    those named in [spines] get the visibility, colour and line width
    given, and the bounds given unless [bounds] is None, which keeps
    theirs; the others are untouched.  A second call with the same
    arguments returns as well and changes nothing. *)
Theorem style_spines_effect (spines : list string) (visible : bool)
  (linewidth : Q) (color : Color) (bounds : option (Q * Q)) (w : World) :
  reachable w -> has_been_drawn (self w) = true ->
  exists h w',
    ax (self w) = Some h
    /\ style_spines spines visible linewidth color bounds w = (Ok tt, w')
    /\ Forall2 (styled_spines spines visible linewidth color bounds)
         (ax_spines (axes w h)) (ax_spines (axes w' h))
    /\ exists w'',
         style_spines spines visible linewidth color bounds w' = (Ok tt, w'')
         /\ self w'' = self w'
         /\ forall k, axes w'' k = axes w' k.
Proof.
  intros Hreach Hd. destruct (reachable_drawn_ax w Hreach Hd) as [h Hax].
  exists h.
  unfold style_spines, self_ax, set_spines, bind, get_self, get_axes,
    put_axes, py_assert, ret.
  rewrite Hd, Hax. simpl. eexists. split; [reflexivity |].
  split; [reflexivity |].
  do 3 (simpl; rewrite ?Hd, ?Hax, ?upd_same). simpl. split.
  - apply Forall2_map_right. intros [name spine] _.
    unfold styled_spines. simpl.
    destruct (mem_str name spines) eqn:Hmem; simpl; repeat split.
  - eexists. split; [reflexivity |]. split; [reflexivity |].
    intros k. simpl.
    destruct (Nat.eq_dec k h) as [-> | Hk];
      [| rewrite !upd_other by exact Hk; reflexivity].
    rewrite !upd_same. simpl. f_equal. rewrite map_map. apply map_ext. intros [name spine].
    destruct (mem_str name spines) eqn:Hmem; rewrite Hmem; [| reflexivity].
    destruct bounds; reflexivity.
Qed.

End Spines.

Lemma style_spines_effect_witness :
  exists h w',
    ax (self drawn_world) = Some h
    /\ @style_spines ["top"%string; "right"%string] false 1
         (ColorName "black") None drawn_world
       = (Ok tt, w')
    /\ Forall2
         (styled_spines ["top"%string; "right"%string] false 1
            (ColorName "black") None)
         (ax_spines (axes drawn_world h)) (ax_spines (axes w' h))
    /\ exists w'',
         @style_spines ["top"%string; "right"%string] false 1
           (ColorName "black") None w'
         = (Ok tt, w'')
         /\ self w'' = self w'
         /\ forall k, axes w'' k = axes w' k.
Proof.
  apply (@style_spines_effect stable_externals
           ["top"%string; "right"%string] false 1 (ColorName "black") None
           drawn_world).
  - apply (@reachable_init stable_externals (ArgDataFrame df_mixed) None
             false false None true (1 # 2) 0 true blank_world).
    vm_compute. reflexivity.
  - vm_compute. reflexivity.
Defined.

(* ================================================================= *)
(** * Failures that leave a half-done change *)

Section HalfDone.

Context {E : Externals}.

(** X19.  A colour scheme that cannot be resolved.  When [style_glyphs] is given
    [colors] and [get_color_dict] raises, the call raises that exception
    with [self.colors] already replaced, while [rgba_dict], the glyphs and
    [zorder] are the old ones and nothing has been drawn. *)
Theorem style_glyphs_color_failure (scheme : color_scheme) (dn : bool)
  (a : option nat) (z : option Q) (kw : kwargs) (w : World) (e : exn) :
  get_color_dict scheme (cs (self w)) 1 = Raise e ->
  exists w',
    style_glyphs (Some scheme) dn a z kw w = (Raise e, w')
    /\ colors (self w') = scheme
    /\ rgba_dict (self w') = rgba_dict (self w)
    /\ glyph_df (self w') = glyph_df (self w)
    /\ zorder (self w') = zorder (self w)
    /\ has_been_drawn (self w') = has_been_drawn (self w)
    /\ axes w' = axes w.
Proof.
  intros Hfail.
  unfold style_glyphs, _update_ax, bind, modify_self, get_self, lift, ret.
  destruct a as [h |]; simpl; rewrite Hfail; eexists; repeat split.
Qed.


End HalfDone.

Lemma style_glyphs_color_failure_witness :
  exists w',
    @style_glyphs strict_externals (Some (SchemeColor (ColorName "")))
      false None None [] undrawn_world
    = (Raise (ValueError "invalid color"), w')
    /\ colors (self w') = SchemeColor (ColorName "")
    /\ rgba_dict (self w') = rgba_dict (self undrawn_world)
    /\ glyph_df (self w') = glyph_df (self undrawn_world)
    /\ zorder (self w') = zorder (self undrawn_world)
    /\ has_been_drawn (self w') = has_been_drawn (self undrawn_world)
    /\ axes w' = axes undrawn_world.
Proof.
  apply (@style_glyphs_color_failure strict_externals
           (SchemeColor (ColorName "")) false None None [] undrawn_world
           (ValueError "invalid color")).
  reflexivity.
Defined.


(* ================================================================= *)
(** * What [style_glyphs_below] does to a glyph below the axis *)

Lemma keeps_for_in {A B} (f : Logo -> B) (xs : list A) (body : A -> py unit) :
  (forall x, In x xs -> keeps f (body x)) -> keeps f (py_for xs body).
Proof.
  induction xs as [| x xs IH]; intros H; simpl.
  - apply keeps_ret.
  - apply keeps_bind; [apply H; now left |].
    intros _. apply IH. intros y Hy. apply H. now right.
Qed.

(** A loop that completes has run the body of each element; the turns of
    the other elements leaving [f] alone, [f] is what that turn made it. *)
Lemma py_for_visit {A B} (f : Logo -> B) (body : A -> py unit)
  (xs1 : list A) (x : A) (xs2 : list A) :
  (forall y, In y xs1 -> keeps f (body y)) ->
  (forall y, In y xs2 -> keeps f (body y)) ->
  forall w w',
    py_for (xs1 ++ x :: xs2) body w = (Ok tt, w') ->
    exists w1 w2,
      body x w1 = (Ok tt, w2)
      /\ f (self w1) = f (self w)
      /\ f (self w') = f (self w2).
Proof.
  intros H1 H2. induction xs1 as [| y xs1 IH]; intros w w' H; simpl in H.
  - apply bind_Ok_inv in H. destruct H as ([] & w2 & Hx & H).
    exists w, w2. split; [exact Hx |]. split; [reflexivity |].
    pose proof (keeps_for_in f xs2 body H2 w2) as Hk.
    now rewrite H in Hk.
  - apply bind_Ok_inv in H. destruct H as ([] & w0 & Hy & H).
    destruct (IH (fun z Hz => H1 z (or_intror Hz)) w0 w' H)
      as (w1 & w2 & Hx & Hf1 & Hf2).
    exists w1, w2. split; [exact Hx |]. split; [| exact Hf2].
    rewrite Hf1. pose proof (H1 y (or_introl eq_refl) w) as Hk.
    now rewrite Hy in Hk.
Qed.

Lemma distinct_positions_split (xs1 : list Q) (p : Q) (xs2 : list Q) :
  distinct_positions (xs1 ++ p :: xs2) ->
  forall q, In q xs1 \/ In q xs2 -> Qeq_bool q p = false.
Proof.
  unfold distinct_positions. induction xs1 as [| a xs1 IH]; simpl; intros H q Hq.
  - inversion H as [| ? ? Hhead _]; subst.
    destruct Hq as [[] | Hq]. rewrite Forall_forall in Hhead.
    now apply Hhead.
  - inversion H as [| ? ? Hhead Htail]; subst.
    destruct Hq as [[<- | Hq] | Hq].
    + rewrite Forall_forall in Hhead. rewrite Qeq_bool_comm.
      apply Hhead. apply in_or_app. right. now left.
    + apply (IH Htail). now left.
    + apply (IH Htail). now right.
Qed.

Section BelowEffect.

Context {E : Externals}.

Lemma keeps_below_body (p q : Q) (c d : string) (shade fade : Q)
  (flip : bool) (kw : kwargs) :
  key_eqb (q, d) (p, c) = false ->
  keeps (fun l => (matrix_df l, frame_get p c (glyph_df l)))
    (l <- get_self ;;
     match df_loc (matrix_df l) q d with
     | Raise e => raise e
     | Ok v =>
         if Qltb v 0 then
           match frame_get q d (glyph_df l) with
           | None =>
               if mem_Q q (gf_index (glyph_df l))
                  && mem_str d (gf_columns (glyph_df l))
               then raise (AttributeError
                             "'float' object has no attribute 'color'")
               else raise (KeyError d)
           | Some g =>
               mutate_glyph (q, d)
                 (("color"%string,
                   PyNums (map (fun x => x * (1 - shade)) (Glyph.color g)))
                  :: ("alpha"%string, PyNum (Glyph.alpha g * (1 - fade)))
                  :: ("flip"%string, PyBool flip) :: kw)
           end
         else ret tt
     end).
Proof.
  intros Hkey.
  apply keeps_bind; [apply keeps_get_self | intros l].
  destruct (df_loc (matrix_df l) q d) as [v |]; [| apply keeps_raise].
  destruct (Qltb v 0); [| apply keeps_ret].
  destruct (frame_get q d (glyph_df l)) as [g |].
  - apply keeps_mutate_glyph. intros g' l'.
    unfold frame_get, put_glyph. simpl. f_equal.
    now apply cells_get_set_other.
  - destruct (_ && _); apply keeps_raise.
Qed.

(** X21.  What [style_glyphs_below] does below.  When the call completes on a
    logo whose positions differ pairwise and whose characters are distinct,
    the glyph of a cell whose matrix value is negative is the one
    [set_attributes] left when given the glyph's colour scaled by
    [1 - shade], its opacity scaled by [1 - fade], [flip] and the other
    keyword arguments. *)
Theorem style_glyphs_below_restyles (shade fade : Q) (flip dn : bool)
  (a : option nat) (kw : kwargs) (w w' : World) (p : Q) (c : string) (v : Q)
  (g : Glyph.Glyph) :
  style_glyphs_below shade fade flip dn a kw w = (Ok tt, w') ->
  distinct_positions (ps (self w)) ->
  NoDup (cs (self w)) ->
  In p (ps (self w)) -> In c (cs (self w)) ->
  df_loc (matrix_df (self w)) p c = Ok v -> v < 0 ->
  frame_get p c (glyph_df (self w)) = Some g ->
  frame_get p c (glyph_df (self w'))
  = Some (snd (Glyph_set_attributes
                 (("color"%string,
                   PyNums (map (fun x => x * (1 - shade)) (Glyph.color g)))
                  :: ("alpha"%string, PyNum (Glyph.alpha g * (1 - fade)))
                  :: ("flip"%string, PyBool flip) :: kw)
                 g)).
Proof.
  intros H Hps Hcs Hp Hc Hv Hneg Hg.
  set (f := fun l : Logo => (matrix_df l, frame_get p c (glyph_df l))).
  unfold style_glyphs_below in H.
  apply bind_Ok_inv in H. destruct H as ([] & w1 & H1 & H).
  assert (self w1 = set_ax (ax (self w1)) (self w)) as Hself1.
  { destruct a as [h |]; simpl in H1; unfold modify_self, ret in H1;
      injection H1 as <-; simpl; [reflexivity |].
    destruct (self w); reflexivity. }
  apply bind_Ok_inv in H. destruct H as (l & w2 & H2 & H).
  unfold get_self in H2. injection H2 as <- <-.
  apply bind_Ok_inv in H. destruct H as ([] & w3 & Hloop & H).
  assert (f (self w') = f (self w3)) as Hlast.
  { destruct dn.
    - pose proof (keeps_draw f None
                    (conj (fun _ _ => eq_refl) (fun _ _ => eq_refl)) w3) as Hk.
      now rewrite H in Hk.
    - unfold ret in H. now injection H as <-. }
  assert (ps (self w1) = ps (self w)) as Hps1 by now rewrite Hself1.
  assert (cs (self w1) = cs (self w)) as Hcs1 by now rewrite Hself1.
  assert (f (self w1) = f (self w)) as Hf1 by now rewrite Hself1.
  rewrite Hps1, Hcs1 in Hloop.
  destruct (in_split _ _ Hp) as (xs1 & xs2 & Hsplit).
  destruct (in_split _ _ Hc) as (ys1 & ys2 & Hsplitc).
  rewrite Hsplit in Hloop, Hps. rewrite Hsplitc in Hloop, Hcs.
  pose proof (distinct_positions_split _ _ _ Hps) as Hother.
  assert (forall d, In d ys1 \/ In d ys2 -> String.eqb d c = false) as Hotherc.
  { intros d Hd. apply String.eqb_neq. intros ->.
    apply NoDup_remove_2 in Hcs. apply Hcs, in_or_app. tauto. }
  apply (py_for_visit f) in Hloop.
  - destruct Hloop as (wa & wb & Hrow & Hfa & Hfb).
    apply (py_for_visit f) in Hrow.
    + destruct Hrow as (wc & wd & Hcell & Hfc & Hfd).
      assert (f (self wc) = f (self w)) as Hfw by congruence.
      unfold f in Hfw. injection Hfw as Hm Hcellc.
      assert (frame_get p c (glyph_df (self w')) = frame_get p c (glyph_df (self wd)))
        as ->.
      { assert (f (self w') = f (self wd)) as Hall by congruence.
        unfold f in Hall. now injection Hall. }
      unfold bind, get_self in Hcell. rewrite Hm, Hv in Hcell.
      apply Qltb_lt in Hneg. rewrite Hneg, Hcellc, Hg in Hcell.
      unfold mutate_glyph, bind, get_self in Hcell.
      unfold frame_get in Hcellc, Hg. rewrite Hcellc, Hg in Hcell.
      destruct (Glyph_set_attributes _ g) as [r g']. simpl.
      unfold modify_self, lift in Hcell.
      injection Hcell as _ <-. unfold frame_get, put_glyph. simpl.
      apply cells_get_set_same.
    + intros d Hd. apply keeps_below_body. unfold key_eqb. simpl.
      rewrite (Hotherc d (or_introl Hd)). apply andb_false_r.
    + intros d Hd. apply keeps_below_body. unfold key_eqb. simpl.
      rewrite (Hotherc d (or_intror Hd)). apply andb_false_r.
  - intros q Hq. apply keeps_for. intros d. apply keeps_below_body.
    unfold key_eqb. simpl. now rewrite (Hother q (or_introl Hq)).
  - intros q Hq. apply keeps_for. intros d. apply keeps_below_body.
    unfold key_eqb. simpl. now rewrite (Hother q (or_intror Hq)).
Qed.

End BelowEffect.

Lemma style_glyphs_below_restyles_witness :
  exists g,
    frame_get 0 "A" (glyph_df (self undrawn_world)) = Some g
    /\ frame_get 0 "A"
         (glyph_df (self (snd (@style_glyphs_below stable_externals (1 # 2)
                                 (1 # 4) true false None [] undrawn_world))))
       = Some (snd (@Glyph_set_attributes stable_externals
                      (("color"%string,
                        PyNums (map (fun x => x * (1 - (1 # 2)))
                                  (Glyph.color g)))
                       :: ("alpha"%string,
                           PyNum (Glyph.alpha g * (1 - (1 # 4))))
                       :: ("flip"%string, PyBool true) :: [])
                      g)).
Proof.
  destruct (frame_get 0 "A" (glyph_df (self undrawn_world))) as [g |] eqn:Hg;
    [| vm_compute in Hg; discriminate].
  exists g. split; [reflexivity |].
  apply (@style_glyphs_below_restyles stable_externals (1 # 2) (1 # 4) true
           false None [] undrawn_world
           (snd (@style_glyphs_below stable_externals (1 # 2) (1 # 4) true
                   false None [] undrawn_world))
           0 "A" (-1) g).
  - vm_compute. reflexivity.
  - vm_compute. repeat constructor.
  - vm_compute. repeat constructor; simpl; intuition discriminate.
  - vm_compute. left. reflexivity.
  - vm_compute. left. reflexivity.
  - vm_compute. reflexivity.
  - vm_compute. reflexivity.
  - exact Hg.
Defined.

(* ================================================================= *)
(** * What [style_glyphs] does to each glyph *)

Lemma row_keys_other (f : GlyphFrame) (q : Q) (cols : list string) (p : Q)
  (c : string) :
  (Qeq_bool q p = false \/ forall d, In d cols -> String.eqb d c = false) ->
  forall k,
    In k (flat_map (fun d => match frame_get q d f with
                             | Some _ => [(q, d)]
                             | None => []
                             end) cols) ->
    key_eqb k (p, c) = false.
Proof.
  intros Hdiff k Hk. apply in_flat_map in Hk. destruct Hk as (d & Hd & Hk).
  destruct (frame_get q d f); [| destruct Hk].
  destruct Hk as [<- | []]. unfold key_eqb. simpl.
  destruct Hdiff as [-> | Hcols]; [reflexivity |].
  rewrite (Hcols d Hd). apply andb_false_r.
Qed.

Lemma frame_keys_split (f : GlyphFrame) (p : Q) (c : string)
  (g : Glyph.Glyph) :
  distinct_positions (gf_index f) -> NoDup (gf_columns f) ->
  In p (gf_index f) -> In c (gf_columns f) ->
  frame_get p c f = Some g ->
  exists ks1 ks2,
    frame_keys f = ks1 ++ (p, c) :: ks2
    /\ forall k, In k ks1 \/ In k ks2 -> key_eqb k (p, c) = false.
Proof.
  intros Hidx Hcols Hp Hc Hg. unfold frame_keys.
  destruct (in_split _ _ Hp) as (xs1 & xs2 & Hsplit).
  destruct (in_split _ _ Hc) as (ys1 & ys2 & Hsplitc).
  rewrite Hsplit in Hidx |- *.
  pose proof (distinct_positions_split _ _ _ Hidx) as Hother.
  assert (forall d, In d ys1 \/ In d ys2 -> String.eqb d c = false) as Hotherc.
  { intros d Hd. apply String.eqb_neq. intros ->.
    rewrite Hsplitc in Hcols.
    apply NoDup_remove_2 in Hcols. apply Hcols, in_or_app. tauto. }
  set (row := fun q =>
                flat_map (fun d => match frame_get q d f with
                                   | Some _ => [(q, d)]
                                   | None => []
                                   end) (gf_columns f)).
  rewrite flat_map_app. simpl. fold (row p).
  assert (row p
          = flat_map (fun d => match frame_get p d f with
                               | Some _ => [(p, d)]
                               | None => []
                               end) ys1
            ++ (p, c)
               :: flat_map (fun d => match frame_get p d f with
                                     | Some _ => [(p, d)]
                                     | None => []
                                     end) ys2) as Hrow.
  { unfold row. rewrite Hsplitc, flat_map_app. simpl. now rewrite Hg. }
  rewrite Hrow.
  eexists. eexists. split.
  { rewrite <- app_assoc. rewrite <- app_comm_cons. rewrite app_assoc.
    reflexivity. }
  intros k [Hk | Hk].
  - apply in_app_or in Hk. destruct Hk as [Hk | Hk].
    + apply in_flat_map in Hk. destruct Hk as (q & Hq & Hk).
      apply (row_keys_other f q (gf_columns f) p c); [| exact Hk].
      left. apply Hother. now left.
    + apply (row_keys_other f p ys1 p c); [| exact Hk].
      right. intros d Hd. apply Hotherc. now left.
  - apply in_app_or in Hk. destruct Hk as [Hk | Hk].
    + apply (row_keys_other f p ys2 p c); [| exact Hk].
      right. intros d Hd. apply Hotherc. now right.
    + apply in_flat_map in Hk. destruct Hk as (q & Hq & Hk).
      apply (row_keys_other f q (gf_columns f) p c); [| exact Hk].
      left. apply Hother. now right.
Qed.

Section GlyphsEffect.

Context {E : Externals}.

(** X22.  What [style_glyphs] does.  When the call completes on a logo whose
    glyph frame has pairwise different positions and distinct characters,
    the glyph of every cell is the one [set_attributes] left when given the
    keyword arguments, restyled once more with the first three components
    of its character's entry in the new [rgba_dict] when [colors] was
    given; and [self.colors] and [self.zorder] hold what was given. *)
Theorem style_glyphs_restyles (nc : option color_scheme) (dn : bool)
  (a : option nat) (z : option Q) (kw : kwargs) (w w' : World) (p : Q)
  (c : string) (g : Glyph.Glyph) :
  style_glyphs nc dn a z kw w = (Ok tt, w') ->
  distinct_positions (gf_index (glyph_df (self w))) ->
  NoDup (gf_columns (glyph_df (self w))) ->
  In p (gf_index (glyph_df (self w))) ->
  In c (gf_columns (glyph_df (self w))) ->
  frame_get p c (glyph_df (self w)) = Some g ->
  let kwargs := match z with
                | Some v => ("zorder"%string, PyNum v) :: kw
                | None => kw
                end in
  let g1 := snd (Glyph_set_attributes kwargs g) in
  match nc with
  | None =>
      frame_get p c (glyph_df (self w')) = Some g1
      /\ colors (self w') = colors (self w)
  | Some scheme =>
      (exists rgba,
         dict_get (Glyph.c g1) (rgba_dict (self w')) = Some rgba
         /\ frame_get p c (glyph_df (self w'))
            = Some (snd (Glyph_set_attributes
                           [("color"%string, PyNums (firstn 3 rgba))] g1)))
      /\ colors (self w') = scheme
  end
  /\ zorder (self w') = match z with Some v => v | None => zorder (self w) end.
Proof.
  intros H Hidx Hcols Hp Hc Hg. cbv zeta.
  set (kwargs := match z with
                 | Some v => ("zorder"%string, PyNum v) :: kw
                 | None => kw
                 end).
  set (f := fun l : Logo =>
              (rgba_dict l, colors l, zorder l,
               frame_get p c (glyph_df l))).
  unfold style_glyphs in H. fold kwargs in H.
  apply bind_Ok_inv in H. destruct H as ([] & w1 & H1 & H).
  apply bind_Ok_inv in H. destruct H as ([] & w2 & H2 & H).
  apply bind_Ok_inv in H. destruct H as ([] & w3 & H3 & H).
  cbv zeta in H.
  apply bind_Ok_inv in H. destruct H as (l & w4 & H4 & H).
  unfold get_self in H4. injection H4 as <- <-.
  apply bind_Ok_inv in H. destruct H as ([] & w5 & Hloop & H).
  assert (f (self w') = f (self w5)) as Hlast.
  { destruct dn.
    - pose proof (keeps_draw f None
                    (conj (fun _ _ => eq_refl) (fun _ _ => eq_refl)) w5) as Hk.
      now rewrite H in Hk.
    - unfold ret in H. now injection H as <-. }
  (* the statements before the loop *)
  assert (glyph_df (self w3) = glyph_df (self w)
          /\ colors (self w3)
             = match nc with Some s => s | None => colors (self w) end
          /\ zorder (self w3)
             = match z with Some v => v | None => zorder (self w) end)
    as (Hgdf & Hcolors & Hz).
  { assert (glyph_df (self w1) = glyph_df (self w)
            /\ colors (self w1) = colors (self w)
            /\ zorder (self w1) = zorder (self w)) as (Hg1 & Hc1 & Hz1).
    { destruct a; simpl in H1; unfold modify_self, ret in H1;
        injection H1 as <-; auto. }
    assert (glyph_df (self w2) = glyph_df (self w1)
            /\ colors (self w2)
               = match nc with Some s => s | None => colors (self w1) end
            /\ zorder (self w2) = zorder (self w1)) as (Hg2 & Hc2 & Hz2).
    { destruct nc as [scheme |].
      - unfold bind, modify_self, get_self, lift in H2. simpl in H2.
        destruct (get_color_dict scheme (cs (self w1)) 1); [| discriminate].
        injection H2 as <-. auto.
      - unfold ret in H2. injection H2 as <-. auto. }
    destruct z as [v |]; unfold modify_self, ret in H3; injection H3 as <-;
      simpl; rewrite ?Hg2, ?Hc2, ?Hz2, ?Hg1, ?Hc1, ?Hz1; auto. }
  rewrite Hgdf in Hloop.
  destruct (frame_keys_split _ p c g Hidx Hcols Hp Hc Hg)
    as (ks1 & ks2 & Hkeys & Hother).
  rewrite Hkeys in Hloop.
  assert (forall k, key_eqb k (p, c) = false ->
            keeps f
              (mutate_glyph k kwargs ;;;
               match nc with
               | None => ret tt
               | Some _ =>
                   l <- get_self ;;
                   match cells_get k (gf_cells (glyph_df l)) with
                   | None => ret tt
                   | Some g0 =>
                       match dict_get (Glyph.c g0) (rgba_dict l) with
                       | None => raise (KeyError (Glyph.c g0))
                       | Some rgba =>
                           mutate_glyph k
                             [("color"%string, PyNums (firstn 3 rgba))]
                       end
                   end
               end)) as Hkeeps.
  { intros k Hk.
    assert (forall g' l', f (put_glyph k g' l') = f l') as Hput.
    { intros g' l'. unfold f, frame_get, put_glyph. simpl. f_equal.
      now apply cells_get_set_other. }
    apply keeps_bind; [now apply keeps_mutate_glyph | intros _].
    destruct nc; [| apply keeps_ret].
    apply keeps_bind; [apply keeps_get_self | intros l].
    destruct (cells_get k (gf_cells (glyph_df l))); [| apply keeps_ret].
    destruct (dict_get _ _); [| apply keeps_raise].
    now apply keeps_mutate_glyph. }
  apply (py_for_visit f) in Hloop.
  2: { intros k Hk. apply Hkeeps, Hother. now left. }
  2: { intros k Hk. apply Hkeeps, Hother. now right. }
  destruct Hloop as (wa & wb & Hcell & Hfa & Hfb).
  assert (f (self w') = f (self wb)) as Hend by congruence.
  pose proof (f_equal (fun t => fst (fst (fst t))) Hend) as Er.
  pose proof (f_equal (fun t => snd (fst (fst t))) Hend) as Ec.
  pose proof (f_equal (fun t => snd (fst t)) Hend) as Ez.
  pose proof (f_equal snd Hend) as Eg.
  pose proof (f_equal (fun t => fst (fst (fst t))) Hfa) as Fr.
  pose proof (f_equal (fun t => snd (fst (fst t))) Hfa) as Fc.
  pose proof (f_equal (fun t => snd (fst t)) Hfa) as Fz.
  pose proof (f_equal snd Hfa) as Fg.
  unfold f in Er, Ec, Ez, Eg, Fr, Fc, Fz, Fg.
  simpl in Er, Ec, Ez, Eg, Fr, Fc, Fz, Fg.
  rewrite Er, Ec, Ez, Eg. clear Er Ec Ez Eg Hend Hfb Hlast Hfa.
  rewrite Hgdf, Hg in Fg.
  (* the turn of the cell itself *)
  apply bind_Ok_inv in Hcell. destruct Hcell as ([] & wm & Hfirst & Hcell).
  unfold mutate_glyph, bind, get_self in Hfirst.
  unfold frame_get in Fg. rewrite Fg in Hfirst.
  destruct (Glyph_set_attributes kwargs g) as [r g1] eqn:Hset.
  unfold modify_self, lift in Hfirst.
  injection Hfirst as _ <-. cbn -[firstn].
  destruct nc as [scheme |].
  - unfold bind, get_self in Hcell. cbn -[firstn] in Hcell.
    rewrite cells_get_set_same in Hcell.
    destruct (dict_get (Glyph.c g1) (rgba_dict (self wa))) as [rgba |] eqn:Hd;
      [| discriminate].
    unfold mutate_glyph, bind, get_self in Hcell. cbn -[firstn] in Hcell.
    rewrite cells_get_set_same in Hcell.
    destruct (Glyph_set_attributes [("color"%string, PyNums (firstn 3 rgba))]
                g1) as [r2 g2] eqn:Hset2.
    unfold modify_self, lift in Hcell. injection Hcell as _ <-.
    cbn -[firstn].
    split; [split |].
    + exists rgba. split; [exact Hd |].
      rewrite Hset2. unfold frame_get. simpl.
      now rewrite cells_get_set_same.
    + now rewrite Fc, Hcolors.
    + now rewrite Fz, Hz.
  - unfold ret in Hcell. injection Hcell as <-. simpl.
    split; [split |].
    + unfold frame_get. simpl. now rewrite cells_get_set_same.
    + now rewrite Fc, Hcolors.
    + now rewrite Fz, Hz.
Qed.

End GlyphsEffect.

Lemma style_glyphs_restyles_witness :
  exists g,
    frame_get 0 "A" (glyph_df (self undrawn_world)) = Some g
    /\ let w' :=
         snd (@style_glyphs stable_externals
                (Some (SchemeColor (ColorName "red"))) false None (Some 5) []
                undrawn_world) in
       let g1 :=
         snd (@Glyph_set_attributes stable_externals
                [("zorder"%string, PyNum 5)] g) in
       ((exists rgba,
           dict_get (Glyph.c g1) (rgba_dict (self w')) = Some rgba
           /\ frame_get 0 "A" (glyph_df (self w'))
              = Some (snd (@Glyph_set_attributes stable_externals
                             [("color"%string, PyNums (firstn 3 rgba))] g1)))
        /\ colors (self w') = SchemeColor (ColorName "red"))
       /\ zorder (self w') = 5.
Proof.
  destruct (frame_get 0 "A" (glyph_df (self undrawn_world))) as [g |] eqn:Hg;
    [| vm_compute in Hg; discriminate].
  exists g. split; [reflexivity |].
  apply (@style_glyphs_restyles stable_externals
           (Some (SchemeColor (ColorName "red"))) false None (Some 5) []
           undrawn_world
           (snd (@style_glyphs stable_externals
                   (Some (SchemeColor (ColorName "red"))) false None (Some 5)
                   [] undrawn_world))
           0 "A" g).
  - vm_compute. reflexivity.
  - vm_compute. repeat constructor.
  - vm_compute. repeat constructor; simpl; intuition discriminate.
  - vm_compute. left. reflexivity.
  - vm_compute. right. left. reflexivity.
  - exact Hg.
Defined.

(* ================================================================= *)
(** * What [style_glyphs_in_sequence] does to the glyphs *)

Lemma py_assert_Ok (b : bool) (msg : string) (w w' : World) :
  py_assert b msg w = (Ok tt, w') -> b = true /\ w' = w.
Proof.
  unfold py_assert. destruct b; intros H; [| discriminate].
  unfold ret in H. injection H as <-. auto.
Qed.

Lemma keeps_for_enumerate_at {B} (f : Logo -> B) (sequence : list string)
  (body : Q -> string -> py unit) (index : list Q) :
  forall i,
    (forall k p c,
       nth_error index k = Some p -> nth_error sequence (i + k) = Some c ->
       keeps f (body p c)) ->
    keeps f (for_enumerate i index sequence body).
Proof.
  induction index as [| p index IH]; intros i H; simpl.
  - apply keeps_ret.
  - destruct (nth_error sequence i) as [c |] eqn:Hc; [| apply keeps_raise].
    apply keeps_bind.
    + apply (H 0%nat p c); [reflexivity | now rewrite Nat.add_0_r].
    + intros _. apply IH. intros k q d Hq Hd.
      apply (H (S k) q d); [exact Hq |].
      now rewrite Nat.add_succ_r.
Qed.

Lemma for_enumerate_visit {B} (f : Logo -> B) (sequence : list string)
  (body : Q -> string -> py unit) (xs1 : list Q) (x : Q) (xs2 : list Q) :
  (forall y c, In y xs1 -> keeps f (body y c)) ->
  (forall y c, In y xs2 -> keeps f (body y c)) ->
  forall i w w',
    for_enumerate i (xs1 ++ x :: xs2) sequence body w = (Ok tt, w') ->
    exists c w1 w2,
      nth_error sequence (i + List.length xs1) = Some c
      /\ body x c w1 = (Ok tt, w2)
      /\ f (self w1) = f (self w)
      /\ f (self w') = f (self w2).
Proof.
  intros H1 H2. induction xs1 as [| y xs1 IH]; intros i w w' H; simpl in H.
  - destruct (nth_error sequence i) as [c |] eqn:Hc; [| discriminate].
    apply bind_Ok_inv in H. destruct H as ([] & w2 & Hx & H).
    exists c, w, w2. simpl. rewrite Nat.add_0_r.
    split; [exact Hc |]. split; [exact Hx |]. split; [reflexivity |].
    assert (keeps f (for_enumerate (S i) xs2 sequence body)) as Hk.
    { apply keeps_for_enumerate_at. intros k q d Hq _.
      apply H2. eapply nth_error_In. exact Hq. }
    specialize (Hk w2). now rewrite H in Hk.
  - destruct (nth_error sequence i) as [c |] eqn:Hc; [| discriminate].
    apply bind_Ok_inv in H. destruct H as ([] & w0 & Hy & H).
    destruct (IH (fun z d Hz => H1 z d (or_intror Hz)) (S i) w0 w' H)
      as (cx & w1 & w2 & Hcx & Hx & Hf1 & Hf2).
    exists cx, w1, w2. simpl. rewrite Nat.add_succ_r.
    split; [exact Hcx |]. split; [exact Hx |]. split; [| exact Hf2].
    rewrite Hf1. pose proof (H1 y c (or_introl eq_refl) w) as Hk.
    now rewrite Hy in Hk.
Qed.

Section SequenceEffect.

Context {E : Externals}.

(** X24.  What [style_glyphs_in_sequence] does.  When the call completes on
    a logo whose glyph frame has pairwise different positions, the glyph at
    each position [p], the i-th of the frame, and the i-th character [c] of
    the sequence is the one [set_attributes] left when given the keyword
    arguments; and every glyph that is not at a position and the character
    the sequence has for it is the one it was before. *)
Theorem style_glyphs_in_sequence_restyles (sequence : string) (dn : bool)
  (a : option nat) (kw : kwargs) (w w' : World) :
  style_glyphs_in_sequence sequence dn a kw w = (Ok tt, w') ->
  distinct_positions (gf_index (glyph_df (self w))) ->
  (forall i p c g,
     nth_error (gf_index (glyph_df (self w))) i = Some p ->
     nth_error (tuple sequence) i = Some c ->
     frame_get p c (glyph_df (self w)) = Some g ->
     frame_get p c (glyph_df (self w'))
     = Some (snd (Glyph_set_attributes kw g)))
  /\ (forall q d,
        (forall i p c,
           nth_error (gf_index (glyph_df (self w))) i = Some p ->
           nth_error (tuple sequence) i = Some c ->
           key_eqb (p, c) (q, d) = false) ->
        frame_get q d (glyph_df (self w'))
        = frame_get q d (glyph_df (self w))).
Proof.
  unfold style_glyphs_in_sequence. intros H Hidx.
  apply bind_Ok_inv in H. destruct H as ([] & w1 & H1 & H).
  assert (glyph_df (self w1) = glyph_df (self w)) as Hsame.
  { pose proof (keeps_update_ax glyph_df a
                  (conj (fun _ _ => eq_refl) (fun _ _ => eq_refl)) w) as Hk.
    now rewrite H1 in Hk. }
  apply bind_Ok_inv in H. destruct H as (l & w2 & H2 & H).
  unfold get_self in H2. injection H2 as <- <-.
  apply bind_Ok_inv in H. destruct H as ([] & w3 & H3 & H).
  apply py_assert_Ok in H3. destruct H3 as [_ ->].
  apply bind_Ok_inv in H. destruct H as ([] & w4 & H4 & H).
  assert (self w4 = self w1) as Hself4.
  { pose proof (keeps_for (fun l => l) (tuple sequence)
                  (fun c => py_assert (mem_str c (cs (self w1)))
                              (character_msg c))
                  (fun c => keeps_assert _ _ _) w1) as Hk.
    unfold character_msg in Hk. now rewrite H4 in Hk. }
  apply bind_Ok_inv in H. destruct H as (l & w5 & H5 & H).
  unfold get_self in H5. injection H5 as <- <-.
  apply bind_Ok_inv in H. destruct H as ([] & w6 & Hloop & H).
  rewrite Hself4, Hsame in Hloop.
  assert (forall q d,
            frame_get q d (glyph_df (self w'))
            = frame_get q d (glyph_df (self w6))) as Hlast.
  { intros q d. destruct dn.
    - pose proof (keeps_draw (fun l => frame_get q d (glyph_df l)) None
                    (conj (fun _ _ => eq_refl) (fun _ _ => eq_refl)) w6) as Hk.
      now rewrite H in Hk.
    - unfold ret in H. now injection H as <-. }
  assert (forall q d, frame_get q d (glyph_df (self w4))
                      = frame_get q d (glyph_df (self w))) as Hfirst.
  { intros q d. now rewrite Hself4, Hsame. }
  assert (forall p c' q d,
            key_eqb (p, c') (q, d) = false ->
            keeps (fun l => frame_get q d (glyph_df l))
              (style_single_glyph p c' true None kw)) as Hkeeps.
  { intros p c' q d Hkey. apply keeps_style_single_glyph.
    - split; reflexivity.
    - intros g l. unfold frame_get, put_glyph. simpl.
      now apply cells_get_set_other. }
  split.
  - intros i p c g Hp Hc Hg.
    destruct (nth_error_split _ _ Hp) as (xs1 & xs2 & Hsplit & Hlen).
    rewrite Hsplit in Hloop, Hidx.
    pose proof (distinct_positions_split _ _ _ Hidx) as Hother.
    apply (for_enumerate_visit (fun l => frame_get p c (glyph_df l))) in Hloop.
    + destruct Hloop as (cx & wa & wb & Hcx & Hbody & Hfa & Hfb).
      simpl in Hcx. rewrite Hlen, Hc in Hcx. injection Hcx as <-.
      rewrite Hlast, Hfb.
      rewrite Hfirst, Hg in Hfa.
      pose proof Hbody as Hmem. unfold style_single_glyph in Hmem.
      apply bind_Ok_inv in Hmem. destruct Hmem as ([] & wc & Hc1 & Hmem).
      simpl in Hc1. unfold ret in Hc1. injection Hc1 as <-.
      apply bind_Ok_inv in Hmem. destruct Hmem as (l & wd & Hc2 & Hmem).
      unfold get_self in Hc2. injection Hc2 as <- <-.
      apply bind_Ok_inv in Hmem. destruct Hmem as ([] & we & Hc3 & Hmem).
      apply py_assert_Ok in Hc3. destruct Hc3 as [Hmp ->].
      apply bind_Ok_inv in Hmem. destruct Hmem as ([] & wf & Hc4 & _).
      apply py_assert_Ok in Hc4. destruct Hc4 as [Hmc _].
      pose proof (style_single_glyph_sets p c true None kw wa g) as Hsets.
      rewrite Hbody in Hsets. apply Hsets; [| exact Hfa].
      now rewrite Hmp, Hmc.
    + intros y c' Hy. apply Hkeeps. unfold key_eqb. simpl.
      now rewrite (Hother y (or_introl Hy)).
    + intros y c' Hy. apply Hkeeps. unfold key_eqb. simpl.
      now rewrite (Hother y (or_intror Hy)).
  - intros q d Hkeys. rewrite Hlast, <- Hfirst.
    pose proof (keeps_for_enumerate_at
                  (fun l => frame_get q d (glyph_df l)) (tuple sequence)
                  (fun p c => style_single_glyph p c true None kw)
                  (gf_index (glyph_df (self w))) 0%nat) as Hk.
    assert (forall k p c,
              nth_error (gf_index (glyph_df (self w))) k = Some p ->
              nth_error (tuple sequence) (0 + k) = Some c ->
              keeps (fun l => frame_get q d (glyph_df l))
                (style_single_glyph p c true None kw)) as Hall.
    { intros k p c Hp Hc. apply Hkeeps. exact (Hkeys k p c Hp Hc). }
    specialize (Hk Hall w4). now rewrite Hloop in Hk.
Qed.

End SequenceEffect.

Lemma style_glyphs_in_sequence_restyles_witness :
  let w' :=
    snd (@style_glyphs_in_sequence stable_externals "ACG" false None
           [("alpha"%string, PyNum (1 # 2))] undrawn_world) in
  (forall i p c g,
     nth_error (gf_index (glyph_df (self undrawn_world))) i = Some p ->
     nth_error (tuple "ACG") i = Some c ->
     frame_get p c (glyph_df (self undrawn_world)) = Some g ->
     frame_get p c (glyph_df (self w'))
     = Some (snd (@Glyph_set_attributes stable_externals
                    [("alpha"%string, PyNum (1 # 2))] g)))
  /\ (forall q d,
        (forall i p c,
           nth_error (gf_index (glyph_df (self undrawn_world))) i = Some p ->
           nth_error (tuple "ACG") i = Some c ->
           key_eqb (p, c) (q, d) = false) ->
        frame_get q d (glyph_df (self w'))
        = frame_get q d (glyph_df (self undrawn_world))).
Proof.
  apply (@style_glyphs_in_sequence_restyles stable_externals "ACG" false None
           [("alpha"%string, PyNum (1 # 2))] undrawn_world).
  - vm_compute. reflexivity.
  - vm_compute. repeat constructor.
Defined.
